(** * libclub: the replication engine of [club::hub]

    A shallow embedding of [src/club/hub.cpp].  The hub is a record of its
    members, every member function is a state transformer on that record,
    and what the hub does to the outside world (handing bytes to a peer's
    transport, closing a socket, running an application callback) is
    appended, in order, to a journal kept in the record.  Code that can
    run into undefined behaviour returns an [option], [None] standing for
    the dereference of a null pointer.

    Containers: [std::set<uuid>] and [flat_set<uuid>] are [gset PeerId];
    [std::map<uuid, AckData>] is a [gmap]; the three maps that the code
    walks in key order ([_nodes], [_configs], the log) are association
    lists kept sorted by key. *)

From Stdlib Require Import NArith Lia.
From stdpp Require Import base option list gmap sets.

Local Open Scope N_scope.

(** ** Identifiers *)

(** [club::uuid]: a 128-bit value with a total order. *)
Definition PeerId := N.

(** [TimeStamp]: an unsigned 64-bit counter; [++] wraps. *)
Definition TimeStamp := N.

Definition ts_modulus : N := 2 ^ 64.

Definition ts_succ (t : TimeStamp) : TimeStamp := (t + 1) mod ts_modulus.

(** Modelled from the spec: [MessageId] of message_id.h, the pair
    (timestamp, originator) ordered lexicographically. *)
Definition MessageId := (TimeStamp * PeerId)%type.

Definition mid_compare (a b : MessageId) : comparison :=
  match N.compare (fst a) (fst b) with
  | Eq => N.compare (snd a) (snd b)
  | c => c
  end.

Definition mid_ltb (a b : MessageId) : bool :=
  match mid_compare a b with Lt => true | _ => false end.

Definition mid_leb (a b : MessageId) : bool :=
  match mid_compare a b with Gt => false | _ => true end.

Definition mid_eqb (a b : MessageId) : bool :=
  match mid_compare a b with Eq => true | _ => false end.

Definition mid_lt (a b : MessageId) : Prop := mid_ltb a b = true.
Definition mid_le (a b : MessageId) : Prop := mid_leb a b = true.

(** ** Ordered maps ([std::map]) as key-sorted association lists *)

Section OrderedMap.
Context {K V : Type} (cmp : K -> K -> comparison).

Fixpoint om_find (k : K) (m : list (K * V)) : option V :=
  match m with
  | [] => None
  | (k', v) :: m' =>
      match cmp k k' with
      | Eq => Some v
      | Lt => None
      | Gt => om_find k m'
      end
  end.

(** [std::map::insert] / [emplace]: an existing key keeps its value. *)
Fixpoint om_insert (k : K) (v : V) (m : list (K * V)) : list (K * V) :=
  match m with
  | [] => [(k, v)]
  | (k', v') :: m' =>
      match cmp k k' with
      | Eq => (k', v') :: m'
      | Lt => (k, v) :: (k', v') :: m'
      | Gt => (k', v') :: om_insert k v m'
      end
  end.

(** [m[k] = v]: an existing key is overwritten. *)
Fixpoint om_set (k : K) (v : V) (m : list (K * V)) : list (K * V) :=
  match m with
  | [] => [(k, v)]
  | (k', v') :: m' =>
      match cmp k k' with
      | Eq => (k', v) :: m'
      | Lt => (k, v) :: (k', v') :: m'
      | Gt => (k', v') :: om_set k v m'
      end
  end.

Fixpoint om_erase (k : K) (m : list (K * V)) : list (K * V) :=
  match m with
  | [] => []
  | (k', v') :: m' =>
      match cmp k k' with
      | Eq => m'
      | Lt => (k', v') :: m'
      | Gt => (k', v') :: om_erase k m'
      end
  end.

Definition om_count (k : K) (m : list (K * V)) : bool :=
  match om_find k m with Some _ => true | None => false end.
End OrderedMap.


(** ** Messages (club/message.h) *)

Definition Bytes := list N.

Record Header := {
  original_poster : PeerId;
  time_stamp : TimeStamp;
  config_id : MessageId;
  visited : gset PeerId
}.

Record AckData := {
  acked_message_id : MessageId;
  predecessor_id : MessageId;
  neighbors : gset PeerId
}.

Record Fuse := {
  fuse_header : Header;
  fuse_ack_data : AckData;
  fuse_target : PeerId
}.

Record PortOffer := {
  po_header : Header;
  po_ack_data : AckData;
  addressor : PeerId;
  internal_port : N;
  external_port : N
}.

Record UserData := {
  ud_header : Header;
  ud_ack_data : AckData;
  ud_data : Bytes
}.

Record Ack := {
  ack_header : Header;
  ack_data : AckData
}.

Inductive MessageType := fuse | port_offer | user_data | ack.

(** [LogMessage]: the variant stored in a log entry. *)
Inductive LogMessage :=
| LFuse (m : Fuse)
| LPortOffer (m : PortOffer)
| LUserData (m : UserData).

(** Any message the inbound path is instantiated with. *)
Inductive Message :=
| MLog (m : LogMessage)
| MAck (m : Ack).

Definition log_header (m : LogMessage) : Header :=
  match m with
  | LFuse f => fuse_header f
  | LPortOffer p => po_header p
  | LUserData u => ud_header u
  end.

Definition log_ack_data (m : LogMessage) : AckData :=
  match m with
  | LFuse f => fuse_ack_data f
  | LPortOffer p => po_ack_data p
  | LUserData u => ud_ack_data u
  end.

Definition log_type (m : LogMessage) : MessageType :=
  match m with
  | LFuse _ => fuse
  | LPortOffer _ => port_offer
  | LUserData _ => user_data
  end.

Definition header (m : Message) : Header :=
  match m with
  | MLog l => log_header l
  | MAck a => ack_header a
  end.

Definition message_type (m : Message) : MessageType :=
  match m with
  | MLog l => log_type l
  | MAck _ => ack
  end.

Definition header_id (h : Header) : MessageId := (time_stamp h, original_poster h).

Definition message_id (m : Message) : MessageId := header_id (header m).

Definition is_fuse_type (t : MessageType) : bool :=
  match t with fuse => true | _ => false end.

Definition visit (p : PeerId) (h : Header) : Header :=
  {| original_poster := original_poster h;
     time_stamp := time_stamp h;
     config_id := config_id h;
     visited := {[ p ]} ∪ visited h |}.

(** [msg.header.visited.insert(p)] on each kind of message. *)
Definition mark_visited (p : PeerId) (m : Message) : Message :=
  match m with
  | MLog (LFuse f) =>
      MLog (LFuse {| fuse_header := visit p (fuse_header f);
                     fuse_ack_data := fuse_ack_data f;
                     fuse_target := fuse_target f |})
  | MLog (LPortOffer o) =>
      MLog (LPortOffer {| po_header := visit p (po_header o);
                          po_ack_data := po_ack_data o;
                          addressor := addressor o;
                          internal_port := internal_port o;
                          external_port := external_port o |})
  | MLog (LUserData u) =>
      MLog (LUserData {| ud_header := visit p (ud_header u);
                         ud_ack_data := ud_ack_data u;
                         ud_data := ud_data u |})
  | MAck a =>
      MAck {| ack_header := visit p (ack_header a); ack_data := ack_data a |}
  end.

(** ** Log entries (log.h) *)

(** Modelled from the spec: [LogEntry] of log.h.  An entry holds the
    message, the acks received for it keyed by acker, and the ordered map
    of predecessors named by those acks (the mapped value, which the hub
    never reads, is the acker). *)
Record LogEntry := {
  message : LogMessage;
  acks : gmap PeerId AckData;
  predecessors : list (MessageId * PeerId)
}.

(** Modelled from the spec: the quorum of an entry is its set of ackers. *)
Definition quorum (e : LogEntry) : gset PeerId := dom (acks e).

(** Modelled from the spec: [LogEntry::acked_by_quorum()], at least one
    acker and every ack's neighbours equal to the set of ackers. *)
Definition acked_by_quorum (e : LogEntry) : bool :=
  negb (bool_decide (quorum e = ∅)) &&
  forallb (fun kv => bool_decide (neighbors (snd kv) = quorum e))
          (map_to_list (acks e)).

(** Modelled from the spec: [LogEntry::acked_by_quorum(live_nodes)], which
    also requires the quorum to be [live_nodes]. *)
Definition acked_by_quorum_of (live_nodes : gset PeerId) (e : LogEntry) : bool :=
  acked_by_quorum e && bool_decide (quorum e = live_nodes).

(** Modelled from the spec: [LogEntry::apply_ack], recording one ack. *)
Definition entry_apply_ack (acker : PeerId) (ad : AckData) (e : LogEntry) : LogEntry :=
  {| message := message e;
     acks := <[ acker := ad ]> (acks e);
     predecessors := om_insert mid_compare (predecessor_id ad) acker (predecessors e) |}.

(** Modelled from the spec: the constructor [LogEntry(message)]; the
    originator's own ack rides in the message. *)
Definition new_entry (m : LogMessage) : LogEntry :=
  entry_apply_ack (original_poster (log_header m)) (log_ack_data m)
    {| message := m; acks := ∅; predecessors := [] |}.

(** [LogEntry::message_type] and [LogEntry::message_id], read off the
    message. *)
Definition entry_message_type (e : LogEntry) : MessageType := log_type (message e).
Definition entry_message_id (e : LogEntry) : MessageId := header_id (log_header (message e)).
Definition entry_is_fuse (e : LogEntry) : bool := is_fuse_type (entry_message_type e).

(** Modelled from the spec: [Log] of log.h, the pending entries in
    ascending order of message id and the three scalars.  Acks that arrive
    before the body of the message they acknowledge are parked in a
    placeholder that carries only the acks; placeholders are kept beside
    the entries, so that every entry the hub walks has a message. *)
Record Log := {
  entries : list (MessageId * LogEntry);
  placeholders : list (MessageId * gmap PeerId AckData);
  last_committed : MessageId;
  last_commit_op : PeerId;
  last_fuse_commit : MessageId
}.

(** Modelled from the spec: folding a set of acks into an entry. *)
Definition fold_acks (from : list (PeerId * AckData)) (e : LogEntry) : LogEntry :=
  foldr (fun kv acc => entry_apply_ack (fst kv) (snd kv) acc) e from.

(** Modelled from the spec: [Log::insert_entry], idempotent on the message
    id; the acks of a placeholder or of the new entry are folded into the
    entry that stays. *)
Definition insert_entry (e : LogEntry) (l : Log) : Log :=
  let id := entry_message_id e in
  match om_find mid_compare id (entries l) with
  | Some old =>
      {| entries := om_set mid_compare id (fold_acks (map_to_list (acks e)) old) (entries l);
         placeholders := placeholders l;
         last_committed := last_committed l;
         last_commit_op := last_commit_op l;
         last_fuse_commit := last_fuse_commit l |}
  | None =>
      let e' := match om_find mid_compare id (placeholders l) with
                | Some ph => fold_acks (map_to_list ph) e
                | None => e
                end in
      {| entries := om_insert mid_compare id e' (entries l);
         placeholders := om_erase mid_compare id (placeholders l);
         last_committed := last_committed l;
         last_commit_op := last_commit_op l;
         last_fuse_commit := last_fuse_commit l |}
  end.

(** Modelled from the spec: [Log::apply_ack]. *)
Definition log_apply_ack (acker : PeerId) (ad : AckData) (l : Log) : Log :=
  let id := acked_message_id ad in
  match om_find mid_compare id (entries l) with
  | Some e =>
      {| entries := om_set mid_compare id (entry_apply_ack acker ad e) (entries l);
         placeholders := placeholders l;
         last_committed := last_committed l;
         last_commit_op := last_commit_op l;
         last_fuse_commit := last_fuse_commit l |}
  | None =>
      let ph := default ∅ (om_find mid_compare id (placeholders l)) in
      {| entries := entries l;
         placeholders := om_set mid_compare id (<[ acker := ad ]> ph) (placeholders l);
         last_committed := last_committed l;
         last_commit_op := last_commit_op l;
         last_fuse_commit := last_fuse_commit l |}
  end.

(** [_log->erase(entry_i)] *)
Definition log_erase (id : MessageId) (l : Log) : Log :=
  {| entries := om_erase mid_compare id (entries l);
     placeholders := placeholders l;
     last_committed := last_committed l;
     last_commit_op := last_commit_op l;
     last_fuse_commit := last_fuse_commit l |}.

Definition set_last_committed (id : MessageId) (op : PeerId) (l : Log) : Log :=
  {| entries := entries l;
     placeholders := placeholders l;
     last_committed := id;
     last_commit_op := op;
     last_fuse_commit := last_fuse_commit l |}.

Definition set_last_fuse_commit (id : MessageId) (l : Log) : Log :=
  {| entries := entries l;
     placeholders := placeholders l;
     last_committed := last_committed l;
     last_commit_op := last_commit_op l;
     last_fuse_commit := id |}.

(** Modelled from the spec: [Log::find_highest_fuse_entry]. *)
Definition find_highest_fuse_entry (l : Log) : option LogEntry :=
  snd <$> List.find (fun kv => entry_is_fuse (snd kv)) (rev (entries l)).

(** Modelled from the spec: [Log::get_predecessor_time], the greatest id
    below [id] among the entries, else [last_committed]. *)
Definition get_predecessor_time (id : MessageId) (l : Log) : MessageId :=
  match List.find (fun kv => mid_ltb (fst kv) id) (rev (entries l)) with
  | Some kv => fst kv
  | None => last_committed l
  end.

(** ** The seen-message filter (seen_messages.h) *)

(** Modelled from the spec: [SeenMessages], per originator the timestamps
    observed and the timestamp up to which everything has been seen. *)
Record SeenMessages := {
  seen_stamps : gmap PeerId (gset TimeStamp);
  seen_up_to : gmap PeerId TimeStamp
}.

(** Modelled from the spec: [SeenMessages::is_in], at or below the
    collapsed history of the originator, or among its observed stamps. *)
Definition seen_is_in (id : MessageId) (s : SeenMessages) : bool :=
  match seen_up_to s !! snd id with
  | Some u => fst id <=? u
  | None => false
  end
  || bool_decide (fst id ∈ default ∅ (seen_stamps s !! snd id)).

(** Modelled from the spec: [SeenMessages::insert]. *)
Definition seen_insert (id : MessageId) (s : SeenMessages) : SeenMessages :=
  {| seen_stamps :=
       <[ snd id := {[ fst id ]} ∪ default ∅ (seen_stamps s !! snd id) ]> (seen_stamps s);
     seen_up_to := seen_up_to s |}.

(** Modelled from the spec: [SeenMessages::seen_everything_up_to], which
    collapses the originator's history at and below the timestamp. *)
Definition seen_everything_up_to (id : MessageId) (s : SeenMessages) : SeenMessages :=
  {| seen_stamps :=
       match seen_stamps s !! snd id with
       | Some ts => <[ snd id := filter (fun t => fst id < t) ts ]> (seen_stamps s)
       | None => seen_stamps s
       end;
     seen_up_to :=
       <[ snd id := N.max (fst id) (default 0 (seen_up_to s !! snd id)) ]> (seen_up_to s) |}.

(** Modelled from the spec: [SeenMessages::forget_messages_from_user]. *)
Definition forget_messages_from_user (p : PeerId) (s : SeenMessages) : SeenMessages :=
  {| seen_stamps := delete p (seen_stamps s); seen_up_to := delete p (seen_up_to s) |}.

(** ** Peers (node.h) and graphs (graph.h) *)

Definition Address := N.

(** A socket, named by the remote address it is connected to. *)
Definition Socket := N.

(** Modelled from the spec: [Node], the record kept per peer. *)
Record Node := {
  node_id : PeerId;
  node_socket : option Socket;
  node_peers : list (PeerId * Address);
  node_remote_port : option (N * N)
}.

(** Modelled from the spec: [Node::is_connected], a transport is there. *)
Definition is_connected (n : Node) : bool :=
  match node_socket n with Some _ => true | None => false end.

(** Modelled from the spec: [Node::address], unspecified (0) without a
    transport. *)
Definition node_address (n : Node) : Address := default 0 (node_socket n).

(** Modelled from the spec: [Graph<uuid>], nodes and directed edges. *)
Record Graph := {
  g_nodes : gset PeerId;
  g_edges : gset (PeerId * PeerId)
}.

Definition single_node_graph (id : PeerId) : Graph :=
  {| g_nodes := {[ id ]}; g_edges := ∅ |}.

(** [acks_to_graph]: the ackers are the nodes, and each acker has an edge
    to each of its neighbours. *)
Definition acks_to_graph (a : gmap PeerId AckData) : Graph :=
  foldr (fun kv g =>
           {| g_nodes := {[ fst kv ]} ∪ g_nodes g;
              g_edges := set_map (fun peer => (fst kv, peer)) (neighbors (snd kv))
                           ∪ g_edges g |})
        {| g_nodes := ∅; g_edges := ∅ |}
        (map_to_list a).

(** ** What the hub does to the outside world *)

Inductive ErrorCode :=
| success
| connection_refused
| no_protocol_option
| already_connected
| transport_error (code : N).

(** [size_t] is 64 bits wide. *)
Definition size_t_modulus : N := 2 ^ 64.

(** [boost::asio::const_buffer], a pointer and a size: the bytes of the
    frame that lie at the pointer and behind it, and the size the buffer
    was made with, which is not checked against them. *)
Record const_buffer := {
  buffer_data : Bytes;
  buffer_size : N
}.

Inductive AppEvent :=
| EvInsert (added : gset PeerId)
| EvRemove (removed : gset PeerId)
| EvReceive (op : PeerId) (data : Bytes)
| EvReceiveUnreliable (source : PeerId) (payload : const_buffer)
| EvFused (error : ErrorCode) (peer : PeerId).

Inductive Action :=
| ASend (to : PeerId) (msg : Message)
| ASendUnreliable (to : PeerId) (frame : Bytes)
| AExchange (sock : Socket) (version : N) (id : PeerId)
| ASocketClose (sock : Socket)
| ACall (ev : AppEvent).

(** ** Application code

    What a function of the application does to the hub while the hub runs
    it, as far as this model follows it: it may destroy the hub, and it
    may call [hub::on_insert], [hub::on_remove], [hub::on_receive] and
    [hub::on_receive_unreliable], any number of times and with any
    function, the empty one included.  Application code that sends, fuses
    or otherwise re-enters the engine while the hub runs it is outside the
    model. *)
Inductive Registration (R : Type) :=
| RegInsert (f : option (gset PeerId -> R))
| RegRemove (f : option (gset PeerId -> R))
| RegReceive (f : option (PeerId -> Bytes -> R))
| RegReceiveUnreliable (f : option (PeerId -> const_buffer -> R)).

Arguments RegInsert {R} f.
Arguments RegRemove {R} f.
Arguments RegReceive {R} f.
Arguments RegReceiveUnreliable {R} f.

Unset Elimination Schemes.
Inductive Reaction :=
| mkReaction (destroyed : bool) (registered : list (Registration Reaction)).
Set Elimination Schemes.

Definition destroys (r : Reaction) : bool :=
  match r with mkReaction d _ => d end.

Definition registers (r : Reaction) : list (Registration Reaction) :=
  match r with mkReaction _ l => l end.

Definition OnInsert := gset PeerId -> Reaction.
Definition OnRemove := gset PeerId -> Reaction.
Definition OnReceive := PeerId -> Bytes -> Reaction.
Definition OnReceiveUnreliable := PeerId -> const_buffer -> Reaction.

(** [struct Callback]: the stored function, empty or not, and the flag
    [reset] raises. *)
Record Callback (F : Type) := {
  func : option F;
  was_reset : bool
}.

Arguments func {F} c.
Arguments was_reset {F} c.

(** [Callback::reset] *)
Definition reset {F : Type} (f : option F) (c : Callback F) : Callback F :=
  {| func := f; was_reset := true |}.

(** [struct hub::Callbacks], without [_on_direct_connect], which hub.cpp
    never runs. *)
Record Callbacks := {
  _on_insert : Callback OnInsert;
  _on_remove : Callback OnRemove;
  _on_receive : Callback OnReceive;
  _on_receive_unreliable : Callback OnReceiveUnreliable
}.

(** A slot as [std::make_shared<Callbacks>()] makes it. *)
Definition no_callback {F : Type} : Callback F :=
  {| func := None; was_reset := false |}.

Definition no_callbacks : Callbacks :=
  {| _on_insert := no_callback; _on_remove := no_callback;
     _on_receive := no_callback; _on_receive_unreliable := no_callback |}.

(** One of the four slots: how it is read and written, and which calls
    of the application register a function in it. *)
Record Slot (F : Type) := {
  slot_get : Callbacks -> Callback F;
  slot_set : Callback F -> Callbacks -> Callbacks;
  slot_pick : Registration Reaction -> option (option F)
}.

Arguments slot_get {F} s c.
Arguments slot_set {F} s v c.
Arguments slot_pick {F} s reg.

Definition insert_slot : Slot OnInsert :=
  {| slot_get := _on_insert;
     slot_set := fun v c =>
       {| _on_insert := v; _on_remove := _on_remove c;
          _on_receive := _on_receive c;
          _on_receive_unreliable := _on_receive_unreliable c |};
     slot_pick := fun reg => match reg with RegInsert f => Some f | _ => None end |}.

Definition remove_slot : Slot OnRemove :=
  {| slot_get := _on_remove;
     slot_set := fun v c =>
       {| _on_insert := _on_insert c; _on_remove := v;
          _on_receive := _on_receive c;
          _on_receive_unreliable := _on_receive_unreliable c |};
     slot_pick := fun reg => match reg with RegRemove f => Some f | _ => None end |}.

Definition receive_slot : Slot OnReceive :=
  {| slot_get := _on_receive;
     slot_set := fun v c =>
       {| _on_insert := _on_insert c; _on_remove := _on_remove c;
          _on_receive := v;
          _on_receive_unreliable := _on_receive_unreliable c |};
     slot_pick := fun reg => match reg with RegReceive f => Some f | _ => None end |}.

Definition receive_unreliable_slot : Slot OnReceiveUnreliable :=
  {| slot_get := _on_receive_unreliable;
     slot_set := fun v c =>
       {| _on_insert := _on_insert c; _on_remove := _on_remove c;
          _on_receive := _on_receive c;
          _on_receive_unreliable := v |};
     slot_pick := fun reg =>
       match reg with RegReceiveUnreliable f => Some f | _ => None end |}.

(** The function the last registration in [l] puts into the slot, if [l]
    registers anything there. *)
Definition registered_last {F : Type} (slot : Slot F)
    (l : list (Registration Reaction)) : option (option F) :=
  last (omap (slot_pick slot) l).

(** ** The hub *)

(** The members of [club::hub].  The routing table is kept as the graph it
    was last recalculated from; [journal] is not a member, it records what
    the hub did. *)
Record hub := {
  _id : PeerId;
  _time_stamp : TimeStamp;
  _nodes : list (PeerId * Node);
  _log : Log;
  _configs : list (MessageId * gset PeerId);
  _seen : SeenMessages;
  _broadcast_routing_table : Graph;
  _was_destroyed : bool;
  _callbacks : Callbacks;
  journal : list Action
}.

Definition with_time_stamp (t : TimeStamp) (h : hub) : hub :=
  {| _id := _id h; _time_stamp := t; _nodes := _nodes h; _log := _log h;
     _configs := _configs h; _seen := _seen h;
     _broadcast_routing_table := _broadcast_routing_table h;
     _was_destroyed := _was_destroyed h; _callbacks := _callbacks h;
     journal := journal h |}.

Definition with_nodes (n : list (PeerId * Node)) (h : hub) : hub :=
  {| _id := _id h; _time_stamp := _time_stamp h; _nodes := n; _log := _log h;
     _configs := _configs h; _seen := _seen h;
     _broadcast_routing_table := _broadcast_routing_table h;
     _was_destroyed := _was_destroyed h; _callbacks := _callbacks h;
     journal := journal h |}.

Definition with_log (l : Log) (h : hub) : hub :=
  {| _id := _id h; _time_stamp := _time_stamp h; _nodes := _nodes h; _log := l;
     _configs := _configs h; _seen := _seen h;
     _broadcast_routing_table := _broadcast_routing_table h;
     _was_destroyed := _was_destroyed h; _callbacks := _callbacks h;
     journal := journal h |}.

Definition with_configs (c : list (MessageId * gset PeerId)) (h : hub) : hub :=
  {| _id := _id h; _time_stamp := _time_stamp h; _nodes := _nodes h; _log := _log h;
     _configs := c; _seen := _seen h;
     _broadcast_routing_table := _broadcast_routing_table h;
     _was_destroyed := _was_destroyed h; _callbacks := _callbacks h;
     journal := journal h |}.

Definition with_seen (s : SeenMessages) (h : hub) : hub :=
  {| _id := _id h; _time_stamp := _time_stamp h; _nodes := _nodes h; _log := _log h;
     _configs := _configs h; _seen := s;
     _broadcast_routing_table := _broadcast_routing_table h;
     _was_destroyed := _was_destroyed h; _callbacks := _callbacks h;
     journal := journal h |}.

Definition with_routing (g : Graph) (h : hub) : hub :=
  {| _id := _id h; _time_stamp := _time_stamp h; _nodes := _nodes h; _log := _log h;
     _configs := _configs h; _seen := _seen h;
     _broadcast_routing_table := g;
     _was_destroyed := _was_destroyed h; _callbacks := _callbacks h;
     journal := journal h |}.

Definition with_destroyed (d : bool) (h : hub) : hub :=
  {| _id := _id h; _time_stamp := _time_stamp h; _nodes := _nodes h; _log := _log h;
     _configs := _configs h; _seen := _seen h;
     _broadcast_routing_table := _broadcast_routing_table h;
     _was_destroyed := d; _callbacks := _callbacks h;
     journal := journal h |}.

Definition with_callbacks (c : Callbacks) (h : hub) : hub :=
  {| _id := _id h; _time_stamp := _time_stamp h; _nodes := _nodes h; _log := _log h;
     _configs := _configs h; _seen := _seen h;
     _broadcast_routing_table := _broadcast_routing_table h;
     _was_destroyed := _was_destroyed h; _callbacks := c;
     journal := journal h |}.

Definition record (a : Action) (h : hub) : hub :=
  {| _id := _id h; _time_stamp := _time_stamp h; _nodes := _nodes h; _log := _log h;
     _configs := _configs h; _seen := _seen h;
     _broadcast_routing_table := _broadcast_routing_table h;
     _was_destroyed := _was_destroyed h; _callbacks := _callbacks h;
     journal := journal h ++ [a] |}.

Definition new_node (id : PeerId) (sock : option Socket) : Node :=
  {| node_id := id; node_socket := sock; node_peers := []; node_remote_port := None |}.

(** Modelled from the spec: a new [Log], empty, its ids value-initialised. *)
Definition empty_log : Log :=
  {| entries := []; placeholders := [];
     last_committed := (0, 0); last_commit_op := 0; last_fuse_commit := (0, 0) |}.

(** [hub::hub]: alone in its own configuration.  The constructor leaves
    the slots empty; [cbs] is whatever the application has registered by
    the time the hub is first used. *)
Definition hub_init (id : PeerId) (cbs : Callbacks) : hub :=
  {| _id := id;
     _time_stamp := 0;
     _nodes := [(id, new_node id None)];
     _log := set_last_committed (last_committed empty_log) id empty_log;
     _configs := [((0, id), {[ id ]})];
     _seen := {| seen_stamps := ∅; seen_up_to := ∅ |};
     _broadcast_routing_table := single_node_graph id;
     _was_destroyed := false;
     _callbacks := cbs;
     journal := [] |}.

Definition find_node (id : PeerId) (h : hub) : option Node :=
  om_find N.compare id (_nodes h).

Definition insert_node (id : PeerId) (sock : option Socket) (h : hub) : hub :=
  with_nodes (om_insert N.compare id (new_node id sock) (_nodes h)) h.

(** [_configs.rbegin()]; the constructor puts one configuration in and
    nothing ever takes one out. *)
Definition current_config (h : hub) : MessageId * gset PeerId :=
  List.last (_configs h) ((0, _id h), ∅).

(** [hub::neighbors] *)
Definition hub_neighbors (h : hub) : gset PeerId :=
  {[ _id h ]} ∪
  list_to_set
    (map node_id
       (List.filter (fun n => negb (node_id n =? _id h) && is_connected n)
                    (map snd (_nodes h)))).

(** [hub::broadcast]: the peers the encoded message is handed to, in the
    order the node table is walked. *)
Definition broadcast_targets (hd : Header) (h : hub) : list PeerId :=
  map node_id
    (List.filter
       (fun n => negb (node_id n =? _id h)
                 && is_connected n
                 && negb (bool_decide (node_id n ∈ visited hd)))
       (map snd (_nodes h))).

Definition broadcast (msg : Message) (h : hub) : hub :=
  foldl (fun acc p => record (ASend p msg) acc) h (broadcast_targets (header msg) h).

(** [hub::add_log_entry] *)
Definition add_log_entry (m : LogMessage) (h : hub) : hub :=
  if mid_leb (header_id (log_header m)) (last_committed (_log h))
     && negb (is_fuse_type (log_type m))
  then h
  else with_log (insert_entry (new_entry m) (_log h)) h.

Definition fresh_header (t : TimeStamp) (h : hub) : Header :=
  {| original_poster := _id h;
     time_stamp := t;
     config_id := fst (current_config h);
     visited := {[ _id h ]} |}.

(** [hub::construct_ackable]: the header and ack data of a message this
    hub originates, and the hub with its clock advanced. *)
Definition construct_ackable (h : hub) : Header * AckData * hub :=
  let t := ts_succ (_time_stamp h) in
  let h' := with_time_stamp t h in
  let m_id := (t, _id h) in
  (fresh_header t h',
   {| acked_message_id := m_id;
      predecessor_id := get_predecessor_time m_id (_log h);
      neighbors := hub_neighbors h |},
   h').

(** [hub::construct_ack] *)
Definition construct_ack (msg_id : MessageId) (h : hub) : Ack * hub :=
  let ad := {| acked_message_id := msg_id;
               predecessor_id := get_predecessor_time msg_id (_log h);
               neighbors := hub_neighbors h |} in
  let t := ts_succ (_time_stamp h) in
  let h1 := with_time_stamp t h in
  let a := {| ack_header := fresh_header t h1; ack_data := ad |} in
  (a, with_log (log_apply_ack (_id h) ad (_log h1)) h1).

(** ** Running application callbacks *)

(** [hub::on_insert(f)], [hub::on_remove(f)], [hub::on_receive(f)] and
    [hub::on_receive_unreliable(f)]: the function is put into its slot
    with [reset]. *)
Definition reset_slot {F : Type} (slot : Slot F) (f : option F) (h : hub) : hub :=
  with_callbacks
    (slot_set slot (reset f (slot_get slot (_callbacks h))) (_callbacks h)) h.

Definition hub_on_insert (f : option OnInsert) (h : hub) : hub :=
  reset_slot insert_slot f h.

Definition hub_on_remove (f : option OnRemove) (h : hub) : hub :=
  reset_slot remove_slot f h.

Definition hub_on_receive (f : option OnReceive) (h : hub) : hub :=
  reset_slot receive_slot f h.

Definition hub_on_receive_unreliable (f : option OnReceiveUnreliable) (h : hub) : hub :=
  reset_slot receive_unreliable_slot f h.

Definition register (reg : Registration Reaction) (h : hub) : hub :=
  match reg with
  | RegInsert f => hub_on_insert f h
  | RegRemove f => hub_on_remove f h
  | RegReceive f => hub_on_receive f h
  | RegReceiveUnreliable f => hub_on_receive_unreliable f h
  end.

(** The hub after application code has run and reacted with [r]: its
    registrations have been made, in order, and the liveness flag is up
    if it destroyed the hub.  The [Callbacks] object outlives the hub for
    as long as [safe_exec] holds on to it. *)
Definition run_reaction (r : Reaction) (h : hub) : hub :=
  with_destroyed (_was_destroyed h || destroys r)
    (foldl (fun acc reg => register reg acc) h (registers r)).

(** [Callbacks::safe_exec] on one slot, with [Callback::operator()]
    inlined; [call] hands the arguments to the stored function.  An empty
    slot is skipped.  Otherwise [was_reset] is lowered and the function is
    moved out of the slot, which a moved-from [std::function] leaves empty;
    the call is journalled and the function runs; and the function is
    moved back into [func] unless [reset] was called on this slot
    meanwhile. *)
Definition safe_exec {F : Type} (slot : Slot F) (call : F -> Reaction)
    (ev : AppEvent) (h : hub) : hub :=
  match func (slot_get slot (_callbacks h)) with
  | None => h
  | Some f =>
      let h1 := with_callbacks
                  (slot_set slot {| func := None; was_reset := false |} (_callbacks h))
                  h in
      let h2 := run_reaction (call f) (record (ACall ev) h1) in
      let c := slot_get slot (_callbacks h2) in
      if was_reset c then h2
      else
        with_callbacks
          (slot_set slot {| func := Some f; was_reset := was_reset c |} (_callbacks h2))
          h2
  end.

(** [Callbacks::on_insert] and the like. *)
Definition on_insert (added : gset PeerId) (h : hub) : hub :=
  safe_exec insert_slot (fun f => f added) (EvInsert added) h.

Definition on_remove (removed : gset PeerId) (h : hub) : hub :=
  safe_exec remove_slot (fun f => f removed) (EvRemove removed) h.

Definition on_receive (op : PeerId) (data : Bytes) (h : hub) : hub :=
  safe_exec receive_slot (fun f => f op data) (EvReceive op data) h.

Definition on_receive_unreliable (source : PeerId) (payload : const_buffer) (h : hub) : hub :=
  safe_exec receive_unreliable_slot (fun f => f source payload)
            (EvReceiveUnreliable source payload) h.

(** ** Committing *)

Definition forget_node (id : PeerId) (h : hub) : hub :=
  with_nodes (om_erase N.compare id (_nodes h))
    (with_seen (forget_messages_from_user id (_seen h)) h).

Definition nonempty (s : gset PeerId) : bool := negb (bool_decide (s = ∅)).

(** The part of [hub::on_commit_fuse] before any callback runs. *)
Definition install_config (entry : LogEntry) (h : hub) : hub :=
  let h1 := with_routing (acks_to_graph (acks entry)) h in
  let prev_quorum := snd (current_config h1) in
  let h2 := with_configs
              (om_insert mid_compare (entry_message_id entry) (quorum entry) (_configs h1))
              h1 in
  foldl (fun acc id => forget_node id acc) h2 (elements (prev_quorum ∖ quorum entry)).

(** [hub::on_commit_fuse] *)
Definition on_commit_fuse (entry : LogEntry) (h : hub) : hub :=
  if negb (acked_by_quorum entry) then h
  else
    let prev_quorum := snd (current_config h) in
    let removed := prev_quorum ∖ quorum entry in
    let added := quorum entry ∖ prev_quorum in
    let h3 := install_config entry h in
    let h4 := if nonempty added then on_insert added h3 else h3 in
    if nonempty added && _was_destroyed h4 then h4
    else if nonempty removed then on_remove removed h4
    else h4.

(** [hub::commit_user_data] *)
Definition commit_user_data (op : PeerId) (data : Bytes) (h : hub) : hub :=
  match find_node op h with
  | None => h
  | Some _ => on_receive op data h
  end.

(** [hub::commit] *)
Definition commit (entry : LogEntry) (h : hub) : hub :=
  match message entry with
  | LFuse _ => on_commit_fuse entry h
  | LPortOffer _ => h
  | LUserData m => commit_user_data (original_poster (ud_header m)) (ud_data m) h
  end.

(** What the first block of the walk's loop body decides for an entry. *)
Inductive Verdict := Discard | Stop | Pass.

Definition first_block (F : option LogEntry) (live_nodes : gset PeerId) (entry : LogEntry) : Verdict :=
  if entry_is_fuse entry then
    match F with
    | Some f =>
        if mid_ltb (entry_message_id entry) (entry_message_id f) then
          if negb (acked_by_quorum_of live_nodes entry) then Discard else Pass
        else
          if negb (mid_eqb (entry_message_id entry) (entry_message_id f)) then Stop
          else Pass
    | None => Stop
    end
  else
    if negb (acked_by_quorum_of live_nodes entry) then Stop else Pass.

(** The loop over [entry.predecessors], newest first. *)
Fixpoint find_predecessor (lc : MessageId) (config_known : bool)
    (rpreds : list MessageId) : option MessageId :=
  match rpreds with
  | [] => None
  | p :: rest =>
      if mid_eqb p lc then Some p
      else if negb config_known then find_predecessor lc config_known rest
      else Some p
  end.

(** The second block: does the entry wait for a predecessor? *)
Definition causal_gap (h : hub) (entry : LogEntry) : bool :=
  match find_predecessor (last_committed (_log h))
          (om_count mid_compare (config_id (log_header (message entry))) (_configs h))
          (rev (map fst (predecessors entry))) with
  | None => false
  | Some p =>
      negb (mid_eqb p (last_committed (_log h))) && mid_ltb (last_fuse_commit (_log h)) p
  end.

(** The erase-and-continue branch of the first block. *)
Definition drop_entry (kv : MessageId * LogEntry) (h : hub) : hub :=
  with_log
    (log_erase (fst kv)
       (set_last_committed (entry_message_id (snd kv))
          (original_poster (log_header (message (snd kv)))) (_log h)))
    h.

(** The third block, up to and including the call of [commit]. *)
Definition commit_entry (kv : MessageId * LogEntry) (h : hub) : hub :=
  let e := snd kv in
  let id := entry_message_id e in
  let l1 := log_erase (fst kv) (_log h) in
  let s1 := seen_everything_up_to id (_seen h) in
  let l2 := if entry_is_fuse e then set_last_fuse_commit id l1 else l1 in
  let l3 := set_last_committed id (original_poster (log_header (message e))) l2 in
  commit e (with_log l3 (with_seen s1 h)).

Inductive Outcome :=
| Continue (h : hub) (F : option (MessageId * LogEntry))
| Break (h : hub)
| Return (h : hub).

(** One turn of the walk's loop; [F] is [last_committable_fuse], a pointer
    into the log, kept as the entry it points to with its key. *)
Definition walk_step (F : option (MessageId * LogEntry)) (live_nodes : gset PeerId)
    (h : hub) (kv : MessageId * LogEntry) : Outcome :=
  match first_block (snd <$> F) live_nodes (snd kv) with
  | Discard => Continue (drop_entry kv h) F
  | Stop => Break h
  | Pass =>
      if causal_gap h (snd kv) then Break h
      else
        let F' := match F with
                  | Some f => if mid_eqb (fst kv) (fst f) then None else F
                  | None => None
                  end in
        let h' := commit_entry kv h in
        if _was_destroyed h' then Return h' else Continue h' F'
  end.

(** The loop.  [l] is what is left of the log from [entry_i] on: a turn
    erases nothing but its own entry, and application code that adds to
    the log while the hub runs it is outside this model, so the iterator
    [entry_j] taken before the turn is the head of the rest of the list. *)
Fixpoint walk (l : list (MessageId * LogEntry)) (F : option (MessageId * LogEntry))
    (live_nodes : gset PeerId) (h : hub) : hub :=
  match l with
  | [] => h
  | kv :: l' =>
      match walk_step F live_nodes h kv with
      | Continue h' F' => walk l' F' live_nodes h'
      | Break h' => h'
      | Return h' => h'
      end
  end.

(** The first [n] turns of the loop, if the walk makes that many without
    leaving it: the hub, [last_committable_fuse] and what is left of the
    log from [entry_i] on when turn [n + 1] begins. *)
Fixpoint turns (n : nat) (l : list (MessageId * LogEntry))
    (F : option (MessageId * LogEntry)) (live_nodes : gset PeerId) (h : hub)
    : option (hub * option (MessageId * LogEntry) * list (MessageId * LogEntry)) :=
  match n with
  | O => Some (h, F, l)
  | S n' =>
      match l with
      | [] => None
      | kv :: l' =>
          match walk_step F live_nodes h kv with
          | Continue h' F' => turns n' l' F' live_nodes h'
          | Break _ => None
          | Return _ => None
          end
      end
  end.

Definition committable_fuse (kv : MessageId * LogEntry) : bool :=
  entry_is_fuse (snd kv) && acked_by_quorum (snd kv).

(** The tail-first scan. *)
Definition last_committable_fuse (h : hub) : option (MessageId * LogEntry) :=
  List.find committable_fuse (rev (entries (_log h))).

Definition live_nodes_of (h : hub) : gset PeerId :=
  match last_committable_fuse h with
  | Some f => quorum (snd f)
  | None => snd (current_config h)
  end.

(** [hub::commit_what_was_seen_by_everyone] *)
Definition commit_what_was_seen_by_everyone (h : hub) : hub :=
  walk (entries (_log h)) (last_committable_fuse h) (live_nodes_of h) h.

(** ** The inbound path *)

(** [hub::process(Node&, Ack)] *)
Definition process_ack (m : Ack) (h : hub) : hub :=
  with_log (log_apply_ack (original_poster (ack_header m)) (ack_data m) (_log h)) h.

Definition broadcast_ack (msg_id : MessageId) (h : hub) : hub :=
  let '(a, h1) := construct_ack msg_id h in broadcast (MAck a) h1.

(** [hub::process(Node&, Fuse)] *)
Definition process_fuse (m : Fuse) (h : hub) : hub :=
  let msg_id := header_id (fuse_header m) in
  let h1 := add_log_entry (LFuse m) h in
  match find_highest_fuse_entry (_log h1) with
  | Some fuse_entry =>
      if mid_leb (entry_message_id fuse_entry) msg_id
      then commit_what_was_seen_by_everyone (broadcast_ack msg_id h1)
      else h1
  | None => commit_what_was_seen_by_everyone (broadcast_ack msg_id h1)
  end.

Definition set_remote_port (internal external : N) (n : Node) : Node :=
  {| node_id := node_id n; node_socket := node_socket n;
     node_peers := node_peers n; node_remote_port := Some (internal, external) |}.

(** [hub::process(Node&, PortOffer)] *)
Definition process_port_offer (op : PeerId) (m : PortOffer) (h : hub) : hub :=
  if negb (addressor m =? _id h) then h
  else
    match find_node op h with
    | Some n =>
        with_nodes
          (om_set N.compare op (set_remote_port (internal_port m) (external_port m) n)
                  (_nodes h))
          h
    | None => h
    end.

(** [hub::process(Node&, UserData)] *)
Definition process_user_data (m : UserData) (h : hub) : hub :=
  add_log_entry (LUserData m) (broadcast_ack (header_id (ud_header m)) h).

Definition process (op : PeerId) (msg : Message) (h : hub) : hub :=
  match msg with
  | MLog (LFuse m) => process_fuse m h
  | MLog (LPortOffer m) => process_port_offer op m h
  | MLog (LUserData m) => process_user_data m h
  | MAck m => process_ack m h
  end.

(** The statements of [hub::on_recv] between the seen test and the test
    for our own messages. *)
Definition note_received (msg : Message) (h : hub) : hub :=
  let h1 := with_seen (seen_insert (message_id msg) (_seen h)) h in
  let h2 := with_time_stamp (N.max (_time_stamp h1) (time_stamp (header msg))) h1 in
  match find_node (original_poster (header msg)) h with
  | None => insert_node (original_poster (header msg)) None h2
  | Some _ => h2
  end.

(** [hub::on_recv] *)
Definition on_recv (received : Message) (h : hub) : hub :=
  let msg := mark_visited (_id h) received in
  let op_id := original_poster (header msg) in
  if seen_is_in (message_id msg) (_seen h) then h
  else
    let h3 := note_received msg h in
    if op_id =? _id h then h3
    else
      let h4 := broadcast msg h3 in
      let h5 := process op_id msg h4 in
      if _was_destroyed h5 then h5
      else commit_what_was_seen_by_everyone h5.

(** ** The outbound path *)

(** [hub::total_order_broadcast], up to posting the commit pass. *)
Definition total_order_broadcast (data : Bytes) (h : hub) : hub :=
  let '(hd, ad, h1) := construct_ackable h in
  let msg := {| ud_header := hd; ud_ack_data := ad; ud_data := data |} in
  add_log_entry (LUserData msg) (broadcast (MLog (LUserData msg)) h1).

(** The closure it posts to the reactor. *)
Definition posted_commit (h : hub) : hub :=
  if _was_destroyed h then h else commit_what_was_seen_by_everyone h.

(** The three statements [fuse] and [on_peer_disconnected] share: a Fuse
    about [target] is constructed, broadcast and logged. *)
Definition originate_fuse (target : PeerId) (h : hub) : hub :=
  let '(hd, ad, h1) := construct_ackable h in
  let fuse_msg := {| fuse_header := hd; fuse_ack_data := ad; fuse_target := target |} in
  add_log_entry (LFuse fuse_msg) (broadcast (MLog (LFuse fuse_msg)) h1).

(** [hub::on_peer_disconnected] *)
Definition on_peer_disconnected (node : PeerId) (h : hub) : hub :=
  commit_what_was_seen_by_everyone (originate_fuse node h).

(** ** The handshake of [hub::fuse] and the unreliable path

    The binary decoder and the protocol version are not part of hub.cpp;
    the code below is read for any decoder and any version. *)

Section Wire.
(** [d.get<decltype(NET_PROTOCOL_VERSION)>()] and [d.get<uuid>()]: the
    value read and the bytes left, or nothing when the buffer is short. *)
Variable decode_version : Bytes -> option (N * Bytes).
Variable decode_uuid : Bytes -> option (PeerId * Bytes).
Variable NET_PROTOCOL_VERSION : N.
(** [BroadcastRoutingTable::get_targets], from the table's owner, the
    graph it was last recalculated from and the source. *)
Variable get_targets : PeerId -> Graph -> PeerId -> list PeerId.

(** The two reads of the handshake reply; the decoder's error flag is
    sticky, so [d.error()] holds when either read failed. *)
Definition decode_handshake (buffer : Bytes) : option (N * PeerId) :=
  match decode_version buffer with
  | None => None
  | Some (version, rest) =>
      match decode_uuid rest with
      | None => None
      | Some (id, _) => Some (version, id)
      end
  end.

(** The completion handed to [fuse], application code like the handlers. *)
Definition OnFused := ErrorCode -> PeerId -> Reaction.

Definition call_on_fused (on_fused : OnFused) (error : ErrorCode) (peer : PeerId)
    (h : hub) : hub :=
  run_reaction (on_fused error peer) (record (ACall (EvFused error peer)) h).

(** The local lambda [fusion_failed]; [uuid()] is the nil id. *)
Definition fusion_failed (socket : Socket) (on_fused : OnFused) (error : ErrorCode)
    (h : hub) : hub :=
  call_on_fused on_fused error 0 (record (ASocketClose socket) h).

Definition assign_socket (socket : Socket) (n : Node) : Node :=
  {| node_id := node_id n; node_socket := Some socket;
     node_peers := node_peers n; node_remote_port := node_remote_port n |}.

(** [hub::this_node], which is [*_nodes[_id]]: when the table holds no
    record under [_id], [operator[]] puts a null pointer there and the
    dereference is undefined. *)
Definition this_node (h : hub) : option Node := find_node (_id h) h.

(** [hub::add_connection]: what becomes of the node [from] refers to. *)
Definition add_connection (from : Node) (to : PeerId) (addr : Address) : Node :=
  {| node_id := node_id from; node_socket := node_socket from;
     node_peers := om_set N.compare to addr (node_peers from);
     node_remote_port := node_remote_port from |}.

(** [hub::fuse], first half: the handshake is sent. *)
Definition hub_fuse (socket : Socket) (h : hub) : hub :=
  record (AExchange socket NET_PROTOCOL_VERSION (_id h)) h.

(** [hub::fuse], second half: the handler given to [reliable_exchange],
    run with the outcome of the exchange.  [None]: [this_node()] was
    called on a table without a record of the hub's own. *)
Definition fuse_exchanged (socket : Socket) (on_fused : OnFused)
    (error : ErrorCode) (buffer : Bytes) (h : hub) : option hub :=
  if _was_destroyed h then Some h
  else
    match error with
    | success =>
        match decode_handshake buffer with
        | None => Some (fusion_failed socket on_fused connection_refused h)
        | Some (his_protocol_version, his_id) =>
            if negb (his_protocol_version =? NET_PROTOCOL_VERSION)
            then Some (fusion_failed socket on_fused no_protocol_option h)
            else if _id h =? his_id
            then Some (fusion_failed socket on_fused already_connected h)
            else
              let h1 := match find_node his_id h with
                        | Some n =>
                            with_nodes
                              (om_set N.compare his_id (assign_socket socket n) (_nodes h)) h
                        | None => insert_node his_id (Some socket) h
                        end in
              let h3 := originate_fuse his_id h1 in
              let address := from_option node_address 0 (find_node his_id h1) in
              match this_node h3 with
              | None => None
              | Some from =>
                  let h4 := with_nodes
                              (om_set N.compare (_id h3)
                                 (add_connection from his_id address) (_nodes h3))
                              h3 in
                  let h5 := call_on_fused on_fused success his_id h4 in
                  Some (if _was_destroyed h5 then h5
                        else commit_what_was_seen_by_everyone h5)
              end
        end
    | _ => Some (fusion_failed socket on_fused error h)
    end.

Definition send_unreliable_to (frame : Bytes) (h : hub) (id : PeerId) : hub :=
  match find_node id h with
  | Some node => if is_connected node then record (ASendUnreliable id frame) h else h
  | None => h
  end.

(** [const_buffer(d.current() + 4, d.size() - 4)], with [rest] what the
    decoder has left to read: [d.size() - 4] is computed in [size_t] and
    is not checked, so that it wraps when fewer than four bytes are left,
    the pointer then being past the end of the frame. *)
Definition payload_buffer (rest : Bytes) : const_buffer :=
  {| buffer_data := drop 4 rest;
     buffer_size := (N.of_nat (length rest) + size_t_modulus - 4) mod size_t_modulus |}.

(** [hub::node_received_unreliable_broadcast] *)
Definition node_received_unreliable_broadcast (buffer : Bytes) (h : hub) : hub :=
  match decode_uuid buffer with
  | None => h
  | Some (source, rest) =>
      if negb (om_count N.compare source (_nodes h)) then h
      else
        let h1 := foldl (send_unreliable_to buffer) h
                    (get_targets (_id h) (_broadcast_routing_table h) source) in
        on_receive_unreliable source (payload_buffer rest) h1
  end.
End Wire.

(** A fixed-width big-endian reader, one decoder the wire section can be
    read with. *)
Definition decode_be (width : nat) (buffer : Bytes) : option (N * Bytes) :=
  if (length buffer <? width)%nat then None
  else Some (foldl (fun acc b => acc * 256 + b) 0 (take width buffer), drop width buffer).

(** ** Callback slots *)

Module CallbackSlot.

(** A function stored in a slot, as far as the slot can tell: a name, and
    the [reset] calls it makes on its own slot while it runs, in order
    ([None] is the empty function). *)
Unset Elimination Schemes.
Inductive Fn := mkFn (name : N) (resets : list (option Fn)).
Set Elimination Schemes.

Definition resets_of (f : Fn) : list (option Fn) :=
  match f with mkFn _ r => r end.

Record Callback := {
  func : option Fn;
  was_reset : bool
}.

(** [Callback::reset] *)
Definition reset (f : option Fn) (c : Callback) : Callback :=
  {| func := f; was_reset := true |}.

(** [operator bool] *)
Definition registered (c : Callback) : bool :=
  match func c with Some _ => true | None => false end.

Definition run (f : Fn) (c : Callback) : Callback :=
  foldl (fun acc g => reset g acc) c (resets_of f).

(** [Callback::operator()]; calling an empty function throws, which is
    [None] here. *)
Definition invoke (c : Callback) : option Callback :=
  match func c with
  | None => None
  | Some f =>
      let moved_out := {| func := None; was_reset := false |} in
      let after := run f moved_out in
      Some (if negb (was_reset after)
            then {| func := Some f; was_reset := was_reset after |}
            else after)
  end.

(** [Callbacks::safe_exec] *)
Definition safe_exec (c : Callback) : Callback :=
  if negb (registered c) then c
  else default c (invoke c).

End CallbackSlot.

(** ** Sequences of operations *)

Inductive HubOp :=
| Receive (msg : Message)
| Broadcast (data : Bytes)
| CommitPass
| Register (reg : Registration Reaction).

Definition run_op (h : hub) (op : HubOp) : hub :=
  match op with
  | Receive msg => on_recv msg h
  | Broadcast data => total_order_broadcast data h
  | CommitPass => posted_commit h
  | Register reg => register reg h
  end.

Definition run_ops (ops : list HubOp) (h : hub) : hub := foldl run_op h ops.

Definition reachable (h : hub) : Prop :=
  exists id cbs ops, h = run_ops ops (hub_init id cbs).

(** ** Sample states and messages *)

Definition sample_header (ts : TimeStamp) (op : PeerId) (seen_by : list PeerId) : Header :=
  {| original_poster := op; time_stamp := ts; config_id := (0, op);
     visited := list_to_set seen_by |}.

Definition sample_ack_data (id pred : MessageId) (nbrs : list PeerId) : AckData :=
  {| acked_message_id := id; predecessor_id := pred; neighbors := list_to_set nbrs |}.

(** A Fuse from [op] stamped [ts], whose sender saw [pred] before it and
    was connected to [nbrs]. *)
Definition sample_fuse (ts : TimeStamp) (op : PeerId) (pred : MessageId)
    (nbrs : list PeerId) (target : PeerId) : Fuse :=
  {| fuse_header := sample_header ts op [op];
     fuse_ack_data := sample_ack_data (ts, op) pred nbrs;
     fuse_target := target |}.

Definition sample_user_data (ts : TimeStamp) (op : PeerId) (pred : MessageId)
    (nbrs : list PeerId) (data : Bytes) : UserData :=
  {| ud_header := sample_header ts op [op];
     ud_ack_data := sample_ack_data (ts, op) pred nbrs;
     ud_data := data |}.

(** Peer 2 alone, then after it has broadcast and committed one payload of
    its own: [last_committed] is (1, 2). *)
Definition hub_alone : hub := hub_init 2 no_callbacks.

Definition hub_after_broadcast : hub :=
  run_ops [Broadcast [120]; CommitPass] hub_alone.

(** Application code that neither destroys the hub nor registers
    anything. *)
Definition quiet : Reaction := mkReaction false [].

Definition quiet_on_fused : OnFused := fun _ _ => quiet.

(** A handshake reply: version 1, peer 3. *)
Definition sample_reply (version : N) (id : PeerId) : Bytes :=
  [0; 0; 0; version; 0; 0; 0; 0; 0; 0; 0; 0; 0; 0; 0; 0; 0; 0; 0; id].

(** Peer 2 after a successful handshake with peer 3 over socket 7. *)
Definition hub_linked : hub :=
  default hub_alone
    (fuse_exchanged (decode_be 4) (decode_be 16) 1 7 quiet_on_fused success
       (sample_reply 1 3) hub_alone).

(** ** Predicates used in the statements *)

(** What a refused handshake leaves behind: the socket closed, then the
    completion told [error] and the nil id, and nothing else. *)
Definition refused (socket : Socket) (error : ErrorCode) (h h' : hub) : Prop :=
  journal h' = journal h ++ [ASocketClose socket; ACall (EvFused error 0)] /\
  _nodes h' = _nodes h /\
  _log h' = _log h /\
  _configs h' = _configs h /\
  _time_stamp h' = _time_stamp h.


(** What the four slots have in common: a slot holds what was written to
    it, and a registration changes the slot it is made for by [reset] and
    no other slot. *)
Definition slot_laws {F : Type} (slot : Slot F) : Prop :=
  (forall v c, slot_get slot (slot_set slot v c) = v) /\
  (forall reg h,
     slot_get slot (_callbacks (register reg h))
     = match slot_pick slot reg with
       | Some f => reset f (slot_get slot (_callbacks h))
       | None => slot_get slot (_callbacks h)
       end).

(** The entries sit under their own ids, in ascending order, all above
    [lo]. *)
Fixpoint ascending_from (lo : MessageId) (l : list (MessageId * LogEntry)) : bool :=
  match l with
  | [] => true
  | kv :: l' =>
      mid_ltb lo (fst kv)
      && mid_eqb (entry_message_id (snd kv)) (fst kv)
      && ascending_from (fst kv) l'
  end.

Definition log_above_last_committed (h : hub) : bool :=
  ascending_from (last_committed (_log h)) (entries (_log h)).

(** The reception of a Fuse whose id is not above [last_committed]. *)
Definition stale_fuse (h : hub) (op : HubOp) : bool :=
  match op with
  | Receive (MLog (LFuse m)) =>
      mid_leb (header_id (fuse_header m)) (last_committed (_log h))
  | _ => false
  end.

(** No operation of the run, started in [h], is the reception of a Fuse
    whose id is not above [last_committed] at the time. *)
Fixpoint no_stale_fuse (ops : list HubOp) (h : hub) : bool :=
  match ops with
  | [] => true
  | op :: ops' => negb (stale_fuse h op) && no_stale_fuse ops' (run_op h op)
  end.

(** [last_committed] is where it was, or above. *)
Definition not_lowered (h h' : hub) : Prop :=
  last_committed (_log h') = last_committed (_log h) \/
  mid_lt (last_committed (_log h)) (last_committed (_log h')).

(** ** More sample states *)

(** The payload peer 2 has just broadcast, handed back to it. *)
Definition returned_message : Message :=
  MLog (LUserData (sample_user_data 1 2 (0, 0) [2] [120])).


(** Two Fuse messages of peer 1, which says it is connected to nobody: one
    stamped 3, and one stamped 1 that arrives after it. *)
Definition early_fuse : Message := MLog (LFuse (sample_fuse 3 1 (2, 1) [1] 9)).
Definition late_fuse : Message := MLog (LFuse (sample_fuse 1 1 (0, 1) [1] 8)).

(** Peer 2 has committed its own (1, 2) and holds peer 1's fuse (3, 1). *)
Definition hub_before_late_fuse : hub :=
  run_ops [Broadcast [120]; CommitPass; Receive early_fuse] hub_alone.

(** Modelled from the spec: the first half of [Node::disconnect], which
    tears the transport down; the second half reports the loss to the hub
    through [on_peer_disconnected]. *)
Definition drop_socket (id : PeerId) (h : hub) : hub :=
  match find_node id h with
  | Some n =>
      with_nodes
        (om_set N.compare id
           {| node_id := node_id n; node_socket := None;
              node_peers := node_peers n; node_remote_port := node_remote_port n |}
           (_nodes h))
        h
  | None => h
  end.

(** Peer 2 has committed its own (1, 2), has fused with peer 3, and has
    been forwarded by peer 3 the fuse (1, 1) that peer 1 sent meanwhile. *)
Definition forwarded_fuse : Message :=
  MLog (LFuse {| fuse_header := sample_header 1 1 [1; 3];
                 fuse_ack_data := sample_ack_data (1, 1) (0, 0) [1; 3];
                 fuse_target := 3 |}).

Definition hub_before_crash : hub :=
  on_recv forwarded_fuse
    (default hub_after_broadcast
       (fuse_exchanged (decode_be 4) (decode_be 16) 1 7 quiet_on_fused success
          (sample_reply 1 3) hub_after_broadcast)).

(** Peer 3 is then lost; [on_peer_disconnected] has logged its fuse
    (3, 2) and is about to run the commit pass. *)
Definition hub_at_crash : hub := originate_fuse 3 (drop_socket 3 hub_before_crash).

(** The entry at the head of the log. *)
Definition first_pending (h : hub) : MessageId * LogEntry :=
  List.hd ((0, 0), new_entry (LFuse (sample_fuse 0 0 (0, 0) [] 0))) (entries (_log h)).

(** The fuse (3, 2) by which peer 2 reports the loss of peer 3. *)
Definition loss_fuse : MessageId * LogEntry :=
  ((3, 2),
   new_entry (LFuse {| fuse_header := sample_header 3 2 [2];
                       fuse_ack_data := sample_ack_data (3, 2) (2, 2) [2];
                       fuse_target := 3 |})).

(** The hub after the first turn of that pass, which erases the fuse
    (1, 1), and what is left of the log behind the head then. *)
Definition hub_after_first_turn : hub :=
  drop_entry (first_pending hub_at_crash) hub_at_crash.

Definition behind_first_pending (h : hub) : list (MessageId * LogEntry) :=
  List.tl (entries (_log h)).

(** An application whose [on_receive] handler destroys the hub, and peer 2
    with two payloads of its own pending. *)
Definition destructive_callbacks : Callbacks :=
  {| _on_insert := no_callback; _on_remove := no_callback;
     _on_receive := reset (Some (fun _ _ => mkReaction true [])) no_callback;
     _on_receive_unreliable := no_callback |}.

Definition hub_two_pending : hub :=
  run_ops [Broadcast [1]; Broadcast [2]] (hub_init 2 destructive_callbacks).

(** A function that resets its own slot twice, last with the empty
    function, and one that leaves the slot alone. *)
Definition quiet_fn : CallbackSlot.Fn := CallbackSlot.mkFn 1 [].
Definition resetting_fn : CallbackSlot.Fn := CallbackSlot.mkFn 2 [Some quiet_fn; None].

(** ** More of hub.cpp *)

(** [struct Diff]: what left and what joined between two quorums;
    [std::set_difference] on two sorted sets is set difference. *)
Module Diff.
Record t := { removed : gset PeerId; added : gset PeerId }.

Definition set_difference (from to : gset PeerId) : gset PeerId := from ∖ to.

Definition make (from to : gset PeerId) : t :=
  {| removed := set_difference from to; added := set_difference to from |}.
End Diff.

(** A [std::map] is in ascending order of its keys, without repeats. *)
Fixpoint om_above {K V : Type} (cmp : K -> K -> comparison) (lo : K)
    (m : list (K * V)) : bool :=
  match m with
  | [] => true
  | (k, _) :: m' =>
      match cmp lo k with Lt => true | _ => false end && om_above cmp k m'
  end.

Definition om_sorted {K V : Type} (cmp : K -> K -> comparison) (m : list (K * V)) : bool :=
  match m with
  | [] => true
  | (k, _) :: m' => om_above cmp k m'
  end.

(** The peer table as [hub.cpp] keeps it: a map, each node under its own
    id. *)
Definition nodes_in_order (h : hub) : bool :=
  om_sorted N.compare (_nodes h)
  && forallb (fun kv => node_id (snd kv) =? fst kv) (_nodes h).

(** Reading the journal: is an action the run of a callback, and is it the
    delivery of a payload by [on_receive]? *)
Definition is_call (a : Action) : bool :=
  match a with ACall _ => true | _ => false end.

Definition delivery (a : Action) : option (PeerId * Bytes) :=
  match a with
  | ACall (EvReceive op data) => Some (op, data)
  | _ => None
  end.

Definition deliveries (j : list Action) : list (PeerId * Bytes) := omap delivery j.

(** What [commit] would hand to [on_receive] for an entry. *)
Definition payload (kv : MessageId * LogEntry) : option (PeerId * Bytes) :=
  match message (snd kv) with
  | LUserData m => Some (original_poster (ud_header m), ud_data m)
  | _ => None
  end.

(** What the code relies on without checking: the peer table and the
    configurations are maps, every node sits under its own id, and there
    is a configuration ([ASSERT(!_configs.empty())]). *)
Definition hub_ok (h : hub) : bool :=
  nodes_in_order h
  && om_sorted mid_compare (_configs h)
  && match _configs h with [] => false | _ => true end.

(** A hub on its own: no peer of its table is connected, it is the only
    member of the current configuration, nothing is pending, and its clock
    is not behind what it committed last. *)
Definition on_its_own (h : hub) : Prop :=
  entries (_log h) = [] /\
  placeholders (_log h) = [] /\
  forallb (fun kv => negb (is_connected (snd kv))) (_nodes h) = true /\
  is_Some (find_node (_id h) h) /\
  snd (current_config h) = {[ _id h ]} /\
  _was_destroyed h = false /\
  fst (last_committed (_log h)) <= _time_stamp h.

(** [total_order_broadcast] and the commit pass it posts, one payload after
    the other. *)
Definition broadcast_each (payloads : list Bytes) (h : hub) : hub :=
  foldl (fun acc data => posted_commit (total_order_broadcast data acc)) h payloads.

(** Is [id] in the peer table, and connected? *)
Definition connected_peer (h : hub) (id : PeerId) : bool :=
  match find_node id h with
  | Some node => is_connected node
  | None => false
  end.

(** An application that listens and never destroys the hub. *)
Definition listening_callbacks : Callbacks :=
  {| _on_insert := reset (Some (fun _ => quiet)) no_callback;
     _on_remove := reset (Some (fun _ => quiet)) no_callback;
     _on_receive := reset (Some (fun _ _ => quiet)) no_callback;
     _on_receive_unreliable := reset (Some (fun _ _ => quiet)) no_callback |}.

(** The Fuse that [originate_fuse] constructs in state [h]. *)
Definition originated_fuse (target : PeerId) (h : hub) : Fuse :=
  {| fuse_header := fst (fst (construct_ackable h));
     fuse_ack_data := snd (fst (construct_ackable h));
     fuse_target := target |}.

(** [hub::unreliable_broadcast].  The encoder is not part of hub.cpp; the
    frame is whatever it makes of the hub's id and the payload.  [counter]
    is a [size_t]. *)
Section Unreliable.
Variable encode_unreliable : PeerId -> Bytes -> Bytes.

(** The peers the frame is handed to. *)
Definition unreliable_targets (h : hub) : list PeerId :=
  map node_id
    (List.filter (fun n => negb ((node_id n =? _id h) || negb (is_connected n)))
                 (map snd (_nodes h))).

(** The hub after the sends, the counter the completions share, and
    whether the handler was posted to the reactor at once. *)
Definition unreliable_broadcast (payload : Bytes) (h : hub) : hub * N * bool :=
  let frame := encode_unreliable (_id h) payload in
  let targets := unreliable_targets h in
  let counter := foldl (fun c _ => (c + 1) mod size_t_modulus) 0 targets in
  (foldl (fun acc p => record (ASendUnreliable p frame) acc) h targets,
   counter,
   counter =? 0).

(** The completion given to each send: it decrements the shared counter
    and runs the handler when the counter reaches zero. *)
Definition send_completed (counter : N) : N * bool :=
  let c := (counter + size_t_modulus - 1) mod size_t_modulus in
  (c, c =? 0).

(** [n] completions run one after the other: for each, did it run the
    handler? *)
Fixpoint run_completions (n : nat) (counter : N) : list bool :=
  match n with
  | O => []
  | S n' =>
      let '(c, fired) := send_completed counter in
      fired :: run_completions n' c
  end.
End Unreliable.

(** The first thing [fuse] does with a good reply: the peer's record is
    bound to the socket, or made. *)
Definition bind_socket (his_id : PeerId) (socket : Socket) (h : hub) : hub :=
  match find_node his_id h with
  | Some n => with_nodes (om_set N.compare his_id (assign_socket socket n) (_nodes h)) h
  | None => insert_node his_id (Some socket) h
  end.

(** Every pending entry sits under the id of its message, no entry and no
    commit is stamped ahead of the hub's clock. *)
Definition stamped_by_clock (h : hub) : bool :=
  forallb (fun kv => mid_eqb (entry_message_id (snd kv)) (fst kv)
                     && (fst (fst kv) <=? _time_stamp h))
          (entries (_log h))
  && (fst (last_committed (_log h)) <=? _time_stamp h).

(** ** Sample states for the rest of the hub *)

(** Peer 2 with an application that listens, after its handshake with
    peer 3, and after peer 3 has acked the fuse (1, 2): the quorum is
    then 2 and 3. *)
Definition hub_listening : hub := hub_init 2 listening_callbacks.

Definition hub_listening_linked : hub :=
  default hub_listening
    (fuse_exchanged (decode_be 4) (decode_be 16) 1 7 quiet_on_fused success
       (sample_reply 1 3) hub_listening).

Definition ack_of_peer_3 : Message :=
  MAck {| ack_header := sample_header 2 3 [3];
          ack_data := sample_ack_data (1, 2) (0, 0) [2; 3] |}.

Definition hub_fused_with_3 : hub := on_recv ack_of_peer_3 hub_listening_linked.

(** Peer 3 is then lost, and peer 2 has logged its fuse about it. *)
Definition hub_losing_3 : hub := originate_fuse 3 (drop_socket 3 hub_fused_with_3).

(** Or peer 2 broadcasts a payload, which peer 3 has not acked yet. *)
Definition hub_waiting_for_3 : hub := total_order_broadcast [5] hub_fused_with_3.

(** Peer 2 with an [on_receive] function that takes one payload and then
    clears its slot. *)
Definition receive_once : OnReceive :=
  fun _ _ => mkReaction false [RegReceive None].

Definition hub_listening_once : hub :=
  hub_on_receive (Some receive_once) (hub_init 2 no_callbacks).


(** An unreliable frame of peer 1: its id, four bytes of length, and the
    payload. *)
Definition unreliable_frame : Bytes :=
  [0; 0; 0; 0; 0; 0; 0; 0; 0; 0; 0; 0; 0; 0; 0; 1; 0; 0; 0; 2; 104; 105].

Definition route_to_3_and_5 : PeerId -> Graph -> PeerId -> list PeerId :=
  fun _ _ _ => [3; 5].

Definition plain_frame : PeerId -> Bytes -> Bytes := fun id payload => id :: payload.

(** * Properties *)

(** ** Message ids *)

Lemma mid_compare_refl (a : MessageId) : mid_compare a a = Eq.
Proof. unfold mid_compare. by rewrite !N.compare_refl. Qed.

Lemma mid_compare_eq (a b : MessageId) : mid_compare a b = Eq -> a = b.
Proof.
  destruct a as [t p], b as [t' p']. unfold mid_compare. simpl.
  destruct (N.compare_spec t t') as [-> | |]; try discriminate.
  destruct (N.compare_spec p p') as [-> | |]; by try discriminate.
Qed.

Lemma mid_compare_antisym (a b : MessageId) :
  mid_compare b a = CompOpp (mid_compare a b).
Proof.
  unfold mid_compare. rewrite (N.compare_antisym (fst a) (fst b)).
  destruct (fst a ?= fst b); simpl; try done. apply N.compare_antisym.
Qed.

Lemma mid_lt_trans (a b c : MessageId) : mid_lt a b -> mid_lt b c -> mid_lt a c.
Proof.
  destruct a as [t1 p1], b as [t2 p2], c as [t3 p3].
  unfold mid_lt, mid_ltb, mid_compare. simpl.
  destruct (N.compare_spec t1 t2), (N.compare_spec t2 t3);
    destruct (N.compare_spec p1 p2), (N.compare_spec p2 p3);
    destruct (N.compare_spec t1 t3); destruct (N.compare_spec p1 p3);
    intros; subst; try done; lia.
Qed.

Lemma mid_lt_irrefl (a : MessageId) : ~ mid_lt a a.
Proof. unfold mid_lt, mid_ltb. by rewrite mid_compare_refl. Qed.

Lemma mid_lt_not_le (a b : MessageId) : mid_lt a b -> mid_leb b a = false.
Proof.
  unfold mid_lt, mid_ltb, mid_leb. rewrite (mid_compare_antisym a b).
  by destruct (mid_compare a b).
Qed.

Lemma mid_leb_refl (a : MessageId) : mid_leb a a = true.
Proof. unfold mid_leb. by rewrite mid_compare_refl. Qed.

Lemma mid_eqb_eq (a b : MessageId) : mid_eqb a b = true <-> a = b.
Proof.
  unfold mid_eqb. split.
  - destruct (mid_compare a b) eqn:E; try done. intros _. by apply mid_compare_eq.
  - intros ->. by rewrite mid_compare_refl.
Qed.

(** ** Ordered maps *)

Section OrderedMapFacts.
Context {K V : Type} (cmp : K -> K -> comparison).
Hypothesis cmp_refl : forall k, cmp k k = Eq.

Lemma om_find_insert (k : K) (v : V) (m : list (K * V)) :
  is_Some (om_find cmp k (om_insert cmp k v m)).
Proof.
  induction m as [| [k' v'] m IH]; simpl.
  - rewrite cmp_refl. by eexists.
  - destruct (cmp k k') eqn:E; simpl; rewrite ?cmp_refl, ?E; try by eexists.
    exact IH.
Qed.

Lemma om_find_set (k : K) (v : V) (m : list (K * V)) :
  om_find cmp k (om_set cmp k v m) = Some v.
Proof.
  induction m as [| [k' v'] m IH]; simpl.
  - by rewrite cmp_refl.
  - destruct (cmp k k') eqn:E; simpl; rewrite ?cmp_refl, ?E; try done.
Qed.

Lemma om_erase_head (k : K) (v : V) (m : list (K * V)) :
  om_erase cmp k ((k, v) :: m) = m.
Proof. simpl. by rewrite cmp_refl. Qed.
End OrderedMapFacts.

(** ** Messages *)

Lemma header_mark_visited (p : PeerId) (m : Message) :
  header (mark_visited p m) = visit p (header m).
Proof. by destruct m as [[| |]|]. Qed.

Lemma message_id_mark_visited (p : PeerId) (m : Message) :
  message_id (mark_visited p m) = message_id m.
Proof. unfold message_id. by rewrite header_mark_visited. Qed.

Lemma entry_message_id_new_entry (m : LogMessage) :
  entry_message_id (new_entry m) = header_id (log_header m).
Proof. done. Qed.

(** ** Application code *)

Lemma register_frame (reg : Registration Reaction) (h : hub) :
  _id (register reg h) = _id h /\
  _time_stamp (register reg h) = _time_stamp h /\
  _nodes (register reg h) = _nodes h /\
  _log (register reg h) = _log h /\
  _configs (register reg h) = _configs h /\
  _seen (register reg h) = _seen h /\
  _broadcast_routing_table (register reg h) = _broadcast_routing_table h /\
  _was_destroyed (register reg h) = _was_destroyed h /\
  journal (register reg h) = journal h.
Proof. by destruct reg. Qed.

Lemma registrations_frame (l : list (Registration Reaction)) (h : hub) :
  let h' := foldl (fun acc reg => register reg acc) h l in
  _id h' = _id h /\
  _time_stamp h' = _time_stamp h /\
  _nodes h' = _nodes h /\
  _log h' = _log h /\
  _configs h' = _configs h /\
  _seen h' = _seen h /\
  _broadcast_routing_table h' = _broadcast_routing_table h /\
  _was_destroyed h' = _was_destroyed h /\
  journal h' = journal h.
Proof.
  revert h. induction l as [| reg l IH]; intros h; simpl; [done |].
  destruct (IH (register reg h)) as (-> & -> & -> & -> & -> & -> & -> & -> & ->).
  apply register_frame.
Qed.

Lemma run_reaction_frame (r : Reaction) (h : hub) :
  _id (run_reaction r h) = _id h /\
  _time_stamp (run_reaction r h) = _time_stamp h /\
  _nodes (run_reaction r h) = _nodes h /\
  _log (run_reaction r h) = _log h /\
  _configs (run_reaction r h) = _configs h /\
  _seen (run_reaction r h) = _seen h /\
  _broadcast_routing_table (run_reaction r h) = _broadcast_routing_table h /\
  _was_destroyed (run_reaction r h) = _was_destroyed h || destroys r /\
  journal (run_reaction r h) = journal h.
Proof.
  unfold run_reaction.
  destruct (registrations_frame (registers r) h) as (Hi & Ht & Hn & Hl & Hc & Hs & Hr & _ & Hj).
  simpl. by rewrite Hi, Ht, Hn, Hl, Hc, Hs, Hr, Hj.
Qed.

(** What running a slot leaves alone: everything but the slots, the
    liveness flag and the journal. *)
Lemma safe_exec_frame {F : Type} (slot : Slot F) (call : F -> Reaction)
    (ev : AppEvent) (h : hub) :
  _id (safe_exec slot call ev h) = _id h /\
  _time_stamp (safe_exec slot call ev h) = _time_stamp h /\
  _nodes (safe_exec slot call ev h) = _nodes h /\
  _log (safe_exec slot call ev h) = _log h /\
  _configs (safe_exec slot call ev h) = _configs h /\
  _seen (safe_exec slot call ev h) = _seen h /\
  _broadcast_routing_table (safe_exec slot call ev h) = _broadcast_routing_table h.
Proof.
  unfold safe_exec. destruct (func (slot_get slot (_callbacks h))) as [f |]; [| done].
  match goal with
  | |- context [run_reaction ?r ?x] =>
      pose proof (run_reaction_frame r x) as Hf; set (h2 := run_reaction r x) in *
  end.
  destruct Hf as (Hi & Ht & Hn & Hl & Hc & Hs & Hr & _).
  destruct (was_reset _); simpl; done.
Qed.

Lemma safe_exec_journal {F : Type} (slot : Slot F) (call : F -> Reaction)
    (ev : AppEvent) (h : hub) :
  journal (safe_exec slot call ev h)
  = journal h ++ match func (slot_get slot (_callbacks h)) with
                 | Some _ => [ACall ev]
                 | None => []
                 end.
Proof.
  unfold safe_exec. destruct (func (slot_get slot (_callbacks h))) as [f |];
    [| by rewrite app_nil_r].
  match goal with
  | |- context [run_reaction ?r ?x] =>
      pose proof (run_reaction_frame r x) as Hf; set (h2 := run_reaction r x) in *
  end.
  destruct Hf as (_ & _ & _ & _ & _ & _ & _ & _ & Hj).
  destruct (was_reset _); simpl; done.
Qed.

Lemma safe_exec_destroyed {F : Type} (slot : Slot F) (call : F -> Reaction)
    (ev : AppEvent) (h : hub) :
  _was_destroyed (safe_exec slot call ev h)
  = _was_destroyed h
    || from_option (fun f => destroys (call f)) false (func (slot_get slot (_callbacks h))).
Proof.
  unfold safe_exec. destruct (func (slot_get slot (_callbacks h))) as [f |]; simpl;
    [| by rewrite orb_false_r].
  match goal with
  | |- context [run_reaction ?r ?x] =>
      pose proof (run_reaction_frame r x) as Hf; set (h2 := run_reaction r x) in *
  end.
  destruct Hf as (_ & _ & _ & _ & _ & _ & _ & Hd & _).
  destruct (was_reset _); simpl; done.
Qed.

Lemma insert_slot_laws : slot_laws insert_slot.
Proof. split; [done | by intros []]. Qed.

Lemma remove_slot_laws : slot_laws remove_slot.
Proof. split; [done | by intros []]. Qed.

Lemma receive_slot_laws : slot_laws receive_slot.
Proof. split; [done | by intros []]. Qed.

Lemma receive_unreliable_slot_laws : slot_laws receive_unreliable_slot.
Proof. split; [done | by intros []]. Qed.

(** After a run of registrations a slot holds what the last of them put
    there, or what it held before if none was made for it. *)
Lemma registrations_slot {F : Type} (slot : Slot F) (l : list (Registration Reaction))
    (h : hub) :
  slot_laws slot ->
  slot_get slot (_callbacks (foldl (fun acc reg => register reg acc) h l))
  = match registered_last slot l with
    | Some f => {| func := f; was_reset := true |}
    | None => slot_get slot (_callbacks h)
    end.
Proof.
  intros [_ Hreg]. unfold registered_last.
  induction l as [| reg l IH] using rev_ind; [done |].
  rewrite foldl_app, omap_app. cbn [foldl]. rewrite Hreg.
  change (omap (slot_pick slot) [reg]) with (option_list (slot_pick slot reg)).
  destruct (slot_pick slot reg) as [f |].
  - change (option_list (Some f)) with [f]. by rewrite last_snoc.
  - change (option_list (@None (option F))) with (@nil (option F)).
    by rewrite app_nil_r.
Qed.

Lemma run_reaction_callbacks (r : Reaction) (h : hub) :
  _callbacks (run_reaction r h)
  = _callbacks (foldl (fun acc reg => register reg acc) h (registers r)).
Proof. done. Qed.

(** [Callback::operator()] as [safe_exec] runs it: the function that ran
    is back in its slot unless it registered something there, and then the
    slot holds what it registered last. *)
Lemma safe_exec_slot {F : Type} (slot : Slot F) (call : F -> Reaction)
    (ev : AppEvent) (h : hub) (f : F) :
  slot_laws slot ->
  func (slot_get slot (_callbacks h)) = Some f ->
  slot_get slot (_callbacks (safe_exec slot call ev h))
  = match registered_last slot (registers (call f)) with
    | Some g => {| func := g; was_reset := true |}
    | None => {| func := Some f; was_reset := false |}
    end.
Proof.
  intros Hlaws Hf. unfold safe_exec. rewrite Hf. cbv zeta.
  rewrite run_reaction_callbacks, (registrations_slot slot _ _ Hlaws).
  pose proof (proj1 Hlaws) as Hset.
  destruct (registered_last slot (registers (call f))) as [g |] eqn:E; cbn [was_reset].
  - by rewrite run_reaction_callbacks, (registrations_slot slot _ _ Hlaws), E.
  - cbn [_callbacks record with_callbacks]. rewrite ?Hset. cbn [was_reset no_callback].
    cbn [_callbacks with_callbacks]. by rewrite ?Hset.
Qed.

(** And of another slot it changes nothing unless the function that ran
    registered something there. *)
Lemma safe_exec_other_slot {F G : Type} (slot : Slot F) (other : Slot G)
    (call : F -> Reaction) (ev : AppEvent) (h : hub) :
  slot_laws other ->
  (forall v c, slot_get other (slot_set slot v c) = slot_get other c) ->
  slot_get other (_callbacks (safe_exec slot call ev h))
  = match func (slot_get slot (_callbacks h)) with
    | Some f =>
        match registered_last other (registers (call f)) with
        | Some g => {| func := g; was_reset := true |}
        | None => slot_get other (_callbacks h)
        end
    | None => slot_get other (_callbacks h)
    end.
Proof.
  intros Hlaws Hother. unfold safe_exec.
  destruct (func (slot_get slot (_callbacks h))) as [f |]; [| done]. cbv zeta.
  assert (Hafter :
    slot_get other
      (_callbacks
         (run_reaction (call f)
            (record (ACall ev)
               (with_callbacks (slot_set slot no_callback (_callbacks h)) h))))
    = match registered_last other (registers (call f)) with
      | Some g => {| func := g; was_reset := true |}
      | None => slot_get other (_callbacks h)
      end).
  { rewrite run_reaction_callbacks, (registrations_slot other _ _ Hlaws).
    cbn [_callbacks record with_callbacks]. by rewrite Hother. }
  destruct (was_reset _); [done |].
  cbn [_callbacks with_callbacks]. by rewrite Hother.
Qed.

(** ** Adding to the log *)

Lemma insert_entry_present (e : LogEntry) (l : Log) :
  is_Some (om_find mid_compare (entry_message_id e) (entries (insert_entry e l))).
Proof.
  unfold insert_entry.
  destruct (om_find mid_compare (entry_message_id e) (entries l)) eqn:E; simpl.
  - rewrite om_find_set; [by eexists | apply mid_compare_refl].
  - apply om_find_insert, mid_compare_refl.
Qed.

(** C8. [add_log_entry] on a message whose id is not above
    [last_committed]: anything but a Fuse leaves the hub, and so the log,
    as it was; a Fuse goes through [insert_entry] all the same, and the
    log holds an entry under its id afterwards. *)
Theorem add_log_entry_not_above_last_committed (m : LogMessage) (h : hub) :
  mid_le (header_id (log_header m)) (last_committed (_log h)) ->
  (log_type m <> fuse -> add_log_entry m h = h) /\
  (log_type m = fuse ->
     _log (add_log_entry m h) = insert_entry (new_entry m) (_log h) /\
     is_Some (om_find mid_compare (header_id (log_header m))
                (entries (_log (add_log_entry m h))))).
Proof.
  intros Hle. unfold add_log_entry. rewrite Hle. split.
  - intros Hne. destruct (log_type m); simpl; congruence.
  - intros ->. simpl. split; [done |].
    rewrite <- entry_message_id_new_entry. apply insert_entry_present.
Qed.

(** ** The inbound path *)

(** C5. A message whose id the seen filter already holds is dropped on
    arrival with the hub exactly as it was: nothing sent, the log, the
    peer table and the journal of callbacks untouched. *)
Theorem on_recv_seen_is_dropped (msg : Message) (h : hub) :
  seen_is_in (message_id msg) (_seen h) = true ->
  on_recv msg h = h.
Proof.
  intros Hseen. unfold on_recv. by rewrite message_id_mark_visited, Hseen.
Qed.

Lemma seen_is_in_insert (id : MessageId) (s : SeenMessages) :
  seen_is_in id (seen_insert id s) = true.
Proof.
  unfold seen_is_in, seen_insert. simpl. rewrite lookup_insert_eq. simpl.
  apply orb_true_iff. right. apply bool_decide_eq_true. set_solver.
Qed.

Lemma note_received_fields (msg : Message) (h : hub) :
  _seen (note_received msg h) = seen_insert (message_id msg) (_seen h) /\
  _time_stamp (note_received msg h) = N.max (_time_stamp h) (time_stamp (header msg)) /\
  _log (note_received msg h) = _log h /\
  _configs (note_received msg h) = _configs h /\
  journal (note_received msg h) = journal h /\
  _id (note_received msg h) = _id h /\
  (is_Some (find_node (original_poster (header msg)) h) ->
   _nodes (note_received msg h) = _nodes h).
Proof.
  unfold note_received.
  destruct (find_node (original_poster (header msg)) h) eqn:E; simpl;
    repeat split; try done.
Qed.

(** C3, as the code has it.  A message of our own that the seen filter
    does not hold yet is dropped only after the filter has taken its id
    and the clock has been raised to its timestamp; a peer record is made
    for the originator if there was none.  Nothing is sent, and the log
    and the configurations stay as they were. *)
Theorem on_recv_own_message (msg : Message) (h : hub) :
  original_poster (header msg) = _id h ->
  seen_is_in (message_id msg) (_seen h) = false ->
  on_recv msg h = note_received (mark_visited (_id h) msg) h /\
  seen_is_in (message_id msg) (_seen (on_recv msg h)) = true /\
  _time_stamp (on_recv msg h) = N.max (_time_stamp h) (time_stamp (header msg)) /\
  _log (on_recv msg h) = _log h /\
  _configs (on_recv msg h) = _configs h /\
  journal (on_recv msg h) = journal h /\
  (is_Some (find_node (_id h) h) -> _nodes (on_recv msg h) = _nodes h).
Proof.
  intros Hop Hnew.
  assert (Heq : on_recv msg h = note_received (mark_visited (_id h) msg) h).
  { unfold on_recv. rewrite message_id_mark_visited, Hnew.
    rewrite header_mark_visited. simpl. rewrite Hop. by rewrite N.eqb_refl. }
  rewrite Heq.
  destruct (note_received_fields (mark_visited (_id h) msg) h)
    as (Hs & Ht & Hl & Hc & Hj & _ & Hn).
  rewrite message_id_mark_visited in Hs.
  rewrite header_mark_visited in Ht, Hn. simpl in Ht, Hn. rewrite Hop in Hn.
  repeat split; try done.
  rewrite Hs. apply seen_is_in_insert.
Qed.

(** C3, as stated, fails: the hub that receives its own message back ends
    with a different seen filter. *)
Lemma own_message_touches_seen_filter :
  ~ (forall (msg : Message) (h : hub),
       original_poster (header msg) = _id h ->
       _seen (on_recv msg h) = _seen h /\
       _time_stamp (on_recv msg h) = _time_stamp h /\
       _nodes (on_recv msg h) = _nodes h).
Proof.
  intros H.
  destruct (H returned_message (total_order_broadcast [120] hub_alone) eq_refl)
    as (Hseen & _ & _).
  apply (f_equal (seen_is_in (1, 2))) in Hseen.
  vm_compute in Hseen. discriminate Hseen.
Qed.

Lemma broadcast_journal (msg : Message) (h : hub) :
  journal (broadcast msg h)
  = journal h ++ map (fun p => ASend p msg) (broadcast_targets (header msg) h).
Proof.
  unfold broadcast. generalize (broadcast_targets (header msg) h). intros l.
  revert h. induction l as [| p l IH]; intros h; simpl.
  - by rewrite app_nil_r.
  - rewrite IH. simpl. by rewrite <- app_assoc.
Qed.

Lemma broadcast_frame (msg : Message) (h : hub) :
  _id (broadcast msg h) = _id h /\
  _time_stamp (broadcast msg h) = _time_stamp h /\
  _nodes (broadcast msg h) = _nodes h /\
  _log (broadcast msg h) = _log h /\
  _configs (broadcast msg h) = _configs h /\
  _seen (broadcast msg h) = _seen h /\
  _broadcast_routing_table (broadcast msg h) = _broadcast_routing_table h /\
  _was_destroyed (broadcast msg h) = _was_destroyed h /\
  _callbacks (broadcast msg h) = _callbacks h.
Proof.
  unfold broadcast. generalize (broadcast_targets (header msg) h). intros l.
  revert h. induction l as [| p l IH]; intros h; simpl; [done |].
  destruct (IH (record (ASend p msg) h)) as (-> & -> & -> & -> & -> & -> & -> & -> & ->).
  done.
Qed.

Lemma broadcast_targets_spec (hd : Header) (h : hub) (p : PeerId) :
  p ∈ broadcast_targets hd h <->
  (exists n, n ∈ map snd (_nodes h) /\ node_id n = p /\ is_connected n = true)
  /\ (p ∉ visited hd) /\ p <> _id h.
Proof.
  unfold broadcast_targets. rewrite list_elem_of_In, in_map_iff. split.
  - intros (n & <- & Hin). apply filter_In in Hin as [Hin Hf].
    apply andb_true_iff in Hf as [Hf Hv]. apply andb_true_iff in Hf as [Hs Hc].
    apply negb_true_iff, bool_decide_eq_false in Hv.
    apply negb_true_iff, N.eqb_neq in Hs.
    split; [| done]. exists n. by rewrite list_elem_of_In.
  - intros ((n & Hin & <- & Hc) & Hv & Hs). exists n. split; [done |].
    apply filter_In. split; [by apply list_elem_of_In |].
    rewrite Hc. apply N.eqb_neq in Hs. rewrite Hs. simpl.
    apply negb_true_iff, bool_decide_eq_false. done.
Qed.

(** C4. The message the inbound path rebroadcasts carries the local id in
    its visited set; [broadcast] hands it, and nothing else, to exactly the
    connected peers outside that set, so neither to a peer that forwarded
    it nor to the hub itself. *)
Theorem on_recv_rebroadcast (received : Message) (h : hub) :
  let msg := mark_visited (_id h) received in
  let h3 := note_received msg h in
  _id h ∈ visited (header msg) /\
  (seen_is_in (message_id received) (_seen h) = false ->
   original_poster (header received) <> _id h ->
   on_recv received h =
     let h5 := process (original_poster (header msg)) msg (broadcast msg h3) in
     if _was_destroyed h5 then h5 else commit_what_was_seen_by_everyone h5) /\
  journal (broadcast msg h3)
    = journal h ++ map (fun p => ASend p msg) (broadcast_targets (header msg) h3) /\
  (forall p, p ∈ broadcast_targets (header msg) h3 <->
     (exists n, n ∈ map snd (_nodes h3) /\ node_id n = p /\ is_connected n = true)
     /\ (p ∉ visited (header msg))) /\
  (forall p, p ∈ broadcast_targets (header msg) h3 ->
     p <> _id h /\ (p ∉ visited (header received))).
Proof.
  intros msg h3.
  assert (Hself : _id h ∈ visited (header msg)).
  { unfold msg. rewrite header_mark_visited. simpl. set_solver. }
  assert (Hid : _id h3 = _id h) by apply note_received_fields.
  assert (Hj : journal h3 = journal h) by apply note_received_fields.
  split; [done |]. split; [| split; [| split]].
  - intros Hnew Hop. unfold on_recv. fold msg.
    unfold msg at 1. rewrite message_id_mark_visited, Hnew. fold h3.
    replace (original_poster (header msg) =? _id h) with false; [done |].
    symmetry. apply N.eqb_neq. unfold msg. by rewrite header_mark_visited.
  - by rewrite broadcast_journal, Hj.
  - intros p. rewrite broadcast_targets_spec. split; [by intros (Hn & Hv & _) |].
    intros [Hn Hv]. repeat split; try done. rewrite Hid. intros ->. done.
  - intros p Hp. apply broadcast_targets_spec in Hp as (_ & Hv & Hs).
    rewrite Hid in Hs. split; [done |].
    unfold msg in Hv. rewrite header_mark_visited in Hv. simpl in Hv. set_solver.
Qed.

(** ** The handshake *)

Section WireFacts.
Variable decode_version : Bytes -> option (N * Bytes).
Variable decode_uuid : Bytes -> option (PeerId * Bytes).
Variable NET_PROTOCOL_VERSION : N.
Variable get_targets : PeerId -> Graph -> PeerId -> list PeerId.

Lemma fusion_failed_refused (socket : Socket) (on_fused : OnFused)
    (error : ErrorCode) (h : hub) :
  refused socket error h (fusion_failed socket on_fused error h).
Proof.
  unfold refused, fusion_failed, call_on_fused.
  match goal with
  | |- context [run_reaction ?r ?x] =>
      destruct (run_reaction_frame r x) as (_ & -> & -> & -> & -> & _ & _ & _ & ->)
  end.
  simpl. by rewrite <- app_assoc.
Qed.

(** C6. A handshake reply that does not decode, that carries another
    protocol version, or that carries our own id ends the fuse: the socket
    is closed, then the completion runs with [connection_refused],
    [no_protocol_option] or [already_connected]; no peer record is made,
    nothing is logged and nothing is broadcast.  None of the three gets as
    far as [this_node()]. *)
Theorem fuse_refuses_bad_reply (socket : Socket) (on_fused : OnFused)
    (buffer : Bytes) (h : hub) :
  _was_destroyed h = false ->
  let r := fuse_exchanged decode_version decode_uuid NET_PROTOCOL_VERSION
             socket on_fused success buffer h in
  (decode_handshake decode_version decode_uuid buffer = None ->
   exists h', r = Some h' /\ refused socket connection_refused h h') /\
  (forall version id,
     decode_handshake decode_version decode_uuid buffer = Some (version, id) ->
     version <> NET_PROTOCOL_VERSION ->
     exists h', r = Some h' /\ refused socket no_protocol_option h h') /\
  (decode_handshake decode_version decode_uuid buffer
     = Some (NET_PROTOCOL_VERSION, _id h) ->
   exists h', r = Some h' /\ refused socket already_connected h h').
Proof.
  intros Halive r. unfold r, fuse_exchanged. rewrite Halive.
  split; [| split].
  - intros ->. eexists. split; [done |]. apply fusion_failed_refused.
  - intros version id -> Hne. apply N.eqb_neq in Hne. rewrite Hne. simpl.
    eexists. split; [done |]. apply fusion_failed_refused.
  - intros ->. rewrite !N.eqb_refl. simpl.
    eexists. split; [done |]. apply fusion_failed_refused.
Qed.

(** ** The unreliable path *)

(** C10. An unreliable frame whose source does not decode, or decodes to
    an id the peer table does not hold, leaves the hub as it was: the
    frame is forwarded to nobody and [on_receive_unreliable] is not run. *)
Theorem unreliable_from_unknown_source_is_dropped (buffer : Bytes) (h : hub) :
  (decode_uuid buffer = None \/
   exists source rest,
     decode_uuid buffer = Some (source, rest) /\ find_node source h = None) ->
  node_received_unreliable_broadcast decode_uuid get_targets buffer h = h.
Proof.
  unfold node_received_unreliable_broadcast.
  intros [-> | (source & rest & -> & Hnone)]; [done |].
  unfold om_count. unfold find_node in Hnone. by rewrite Hnone.
Qed.
End WireFacts.

(** ** Callback slots *)

Lemma run_resets (f : CallbackSlot.Fn) (c : CallbackSlot.Callback)
    (gs : list (option CallbackSlot.Fn)) (g : option CallbackSlot.Fn) :
  CallbackSlot.resets_of f = gs ++ [g] ->
  CallbackSlot.run f c = {| CallbackSlot.func := g; CallbackSlot.was_reset := true |}.
Proof.
  unfold CallbackSlot.run. intros ->. by rewrite foldl_app.
Qed.

(** C9. Invoking a slot that holds [f] empties the slot for the time of
    the call; if [f] never resets the slot, [f] is moved back, and if it
    does, the slot keeps what the last [reset] put there, the empty
    function included. *)
Theorem callback_invoke (f : CallbackSlot.Fn) (c : CallbackSlot.Callback) :
  CallbackSlot.func c = Some f ->
  (CallbackSlot.resets_of f = [] ->
   CallbackSlot.invoke c
   = Some {| CallbackSlot.func := Some f; CallbackSlot.was_reset := false |}) /\
  (forall gs g,
     CallbackSlot.resets_of f = gs ++ [g] ->
     CallbackSlot.invoke c
     = Some {| CallbackSlot.func := g; CallbackSlot.was_reset := true |}) /\
  (forall c', CallbackSlot.invoke c = Some c' ->
     (CallbackSlot.was_reset c' = false <-> CallbackSlot.resets_of f = []) /\
     (CallbackSlot.was_reset c' = false -> CallbackSlot.func c' = Some f)).
Proof.
  intros Hf. unfold CallbackSlot.invoke. rewrite Hf.
  split; [| split].
  - intros Hnil. unfold CallbackSlot.run. by rewrite Hnil.
  - intros gs g Hr. by rewrite (run_resets f _ gs g Hr).
  - intros c' [= <-].
    destruct (CallbackSlot.resets_of f) as [| g0 gs0] eqn:Hr using rev_ind.
    + unfold CallbackSlot.run. rewrite Hr. simpl. done.
    + rewrite (run_resets f _ _ _ Hr). simpl. split; [| done].
      split; [done |]. intros Habs. by apply app_nil in Habs as [_ ?].
Qed.

(** ** The commit pass *)

Lemma safe_exec_log {F : Type} (slot : Slot F) (call : F -> Reaction)
    (ev : AppEvent) (h : hub) :
  _log (safe_exec slot call ev h) = _log h.
Proof. apply safe_exec_frame. Qed.

Lemma forget_nodes_fields (ids : list PeerId) (h : hub) :
  let h' := foldl (fun acc id => forget_node id acc) h ids in
  _log h' = _log h /\ _was_destroyed h' = _was_destroyed h /\
  journal h' = journal h /\ _callbacks h' = _callbacks h /\
  _configs h' = _configs h.
Proof.
  revert h. induction ids as [| id ids IH]; intros h; simpl; [done |].
  destruct (IH (forget_node id h)) as (-> & -> & -> & -> & ->). done.
Qed.

Lemma install_config_fields (entry : LogEntry) (h : hub) :
  _log (install_config entry h) = _log h /\
  _was_destroyed (install_config entry h) = _was_destroyed h /\
  journal (install_config entry h) = journal h /\
  _callbacks (install_config entry h) = _callbacks h.
Proof.
  unfold install_config.
  match goal with
  | |- context [foldl _ ?h0 ?ids] =>
      destruct (forget_nodes_fields ids h0) as (-> & -> & -> & -> & _)
  end.
  done.
Qed.

Lemma install_config_log (entry : LogEntry) (h : hub) :
  _log (install_config entry h) = _log h.
Proof. apply install_config_fields. Qed.

Lemma commit_log (entry : LogEntry) (h : hub) : _log (commit entry h) = _log h.
Proof.
  unfold commit. destruct (message entry); [| done |].
  - unfold on_commit_fuse. destruct (negb (acked_by_quorum entry)); [done |].
    repeat match goal with
           | |- context [if ?b then _ else _] => destruct b
           end; unfold on_insert, on_remove;
      rewrite ?safe_exec_log, ?install_config_log; done.
  - unfold commit_user_data. destruct (find_node _ h); [| done].
    unfold on_receive. by rewrite safe_exec_log.
Qed.

Lemma drop_entry_log (kv : MessageId * LogEntry) (h : hub) :
  entries (_log (drop_entry kv h)) = om_erase mid_compare (fst kv) (entries (_log h)) /\
  last_committed (_log (drop_entry kv h)) = entry_message_id (snd kv) /\
  last_commit_op (_log (drop_entry kv h)) = original_poster (log_header (message (snd kv))).
Proof. done. Qed.

Lemma commit_entry_log (kv : MessageId * LogEntry) (h : hub) :
  entries (_log (commit_entry kv h)) = om_erase mid_compare (fst kv) (entries (_log h)) /\
  last_committed (_log (commit_entry kv h)) = entry_message_id (snd kv).
Proof.
  unfold commit_entry. rewrite commit_log. simpl.
  by destruct (entry_is_fuse (snd kv)).
Qed.

(** The three ways a turn of the loop can end. *)
Lemma walk_step_cases (F : option (MessageId * LogEntry)) (live : gset PeerId)
    (h : hub) (kv : MessageId * LogEntry) :
  match walk_step F live h kv with
  | Continue h' F' =>
      (h' = drop_entry kv h /\ F' = F /\ first_block (snd <$> F) live (snd kv) = Discard) \/
      (h' = commit_entry kv h /\ _was_destroyed h' = false /\
       first_block (snd <$> F) live (snd kv) = Pass)
  | Break h' => h' = h
  | Return h' => h' = commit_entry kv h /\ _was_destroyed h' = true
  end.
Proof.
  unfold walk_step. destruct (first_block (snd <$> F) live (snd kv)) eqn:G.
  - left. done.
  - done.
  - destruct (causal_gap h (snd kv)); [done |].
    destruct (_was_destroyed (commit_entry kv h)) eqn:D; [done |].
    right. done.
Qed.

Lemma find_rev_none {A : Type} (p : A -> bool) (l : list A) :
  List.find p (rev l) = None -> Forall (fun x => p x = false) l.
Proof.
  intros H. apply Forall_forall. intros x Hx.
  apply (find_none p (rev l) H). apply in_rev. rewrite rev_involutive.
  by apply list_elem_of_In.
Qed.

Lemma find_rev_some {A : Type} (p : A -> bool) (l : list A) (x : A) :
  List.find p (rev l) = Some x ->
  p x = true /\
  exists pre post, l = pre ++ x :: post /\ Forall (fun y => p y = false) post.
Proof.
  induction l as [| a l IH] using rev_ind; [done |].
  rewrite rev_unit. simpl. destruct (p a) eqn:Pa.
  - intros [= <-]. split; [done |]. exists l, []. done.
  - intros H. destruct (IH H) as (Hx & pre & post & -> & Hpost).
    split; [done |]. exists pre, (post ++ [a]).
    split; [by rewrite <- app_assoc |].
    apply Forall_app. split; [done |]. by apply Forall_singleton.
Qed.

Lemma fuse_without_F_stops (live : gset PeerId) (e : LogEntry) :
  entry_is_fuse e = true -> first_block None live e = Stop.
Proof. unfold first_block. by intros ->. Qed.

(** With no committable fuse, the walk never gets past the first fuse. *)
Lemma walk_stops_at_first_fuse (pre : list (MessageId * LogEntry))
    (e : MessageId * LogEntry) (post : list (MessageId * LogEntry))
    (live : gset PeerId) (h : hub) :
  entries (_log h) = pre ++ e :: post ->
  Forall (fun kv => entry_is_fuse (snd kv) = false) pre ->
  entry_is_fuse (snd e) = true ->
  exists pre',
    pre' `suffix_of` pre /\
    entries (_log (walk (pre ++ e :: post) None live h)) = pre' ++ e :: post.
Proof.
  revert h. induction pre as [| kv pre IH]; intros h Hlog Hpre He.
  - exists []. split; [done |]. simpl. unfold walk_step. simpl.
    by rewrite (fuse_without_F_stops live (snd e) He).
  - apply Forall_cons in Hpre as [Hkv Hpre]. simpl.
    pose proof (walk_step_cases None live h kv) as Hc.
    destruct (walk_step None live h kv) as [h' F' | h' | h'] eqn:Hs.
    + assert (HF' : F' = None).
      { clear Hc. unfold walk_step in Hs. simpl in Hs.
        destruct (first_block None live (snd kv)); [congruence | congruence |].
        destruct (causal_gap h (snd kv)); [congruence |].
        destruct (_was_destroyed (commit_entry kv h)); congruence. }
      subst F'.
      assert (Hlog' : entries (_log h') = pre ++ e :: post).
      { destruct Hc as [(-> & _) | (-> & _)].
        - rewrite (proj1 (drop_entry_log kv h)), Hlog. simpl.
          destruct kv as [k v]. apply (om_erase_head mid_compare mid_compare_refl).
        - rewrite (proj1 (commit_entry_log kv h)), Hlog. simpl.
          destruct kv as [k v]. apply (om_erase_head mid_compare mid_compare_refl). }
      destruct (IH h' Hlog' Hpre He) as (pre' & Hsuf & Heq).
      exists pre'. split; [| done]. by apply suffix_cons_r.
    + subst h'. exists (kv :: pre). split; [done |]. by rewrite Hlog.
    + destruct Hc as [-> _]. exists pre. split; [by apply suffix_cons_r |].
      rewrite (proj1 (commit_entry_log kv h)), Hlog. simpl.
      destruct kv as [k v]. apply (om_erase_head mid_compare mid_compare_refl).
Qed.

Lemma walk_step_F (F : option (MessageId * LogEntry)) (live : gset PeerId)
    (h : hub) (kv : MessageId * LogEntry) (h' : hub) (F' : option (MessageId * LogEntry)) :
  walk_step F live h kv = Continue h' F' -> F' = F \/ F' = None.
Proof.
  unfold walk_step. destruct (first_block (snd <$> F) live (snd kv)).
  - intros [= _ <-]. by left.
  - done.
  - destruct (causal_gap h (snd kv)); [done |].
    destruct (_was_destroyed (commit_entry kv h)); [done |].
    intros [= _ <-]. destruct F as [f |]; [| by right].
    destruct (mid_eqb (fst kv) (fst f)); [by right | by left].
Qed.

Lemma walk_step_erases (F : option (MessageId * LogEntry)) (live : gset PeerId)
    (h : hub) (kv : MessageId * LogEntry) (l : list (MessageId * LogEntry))
    (h' : hub) (F' : option (MessageId * LogEntry)) :
  entries (_log h) = kv :: l ->
  walk_step F live h kv = Continue h' F' ->
  entries (_log h') = l.
Proof.
  intros Hlog Hs. pose proof (walk_step_cases F live h kv) as Hc. rewrite Hs in Hc.
  assert (Herase : om_erase mid_compare (fst kv) (entries (_log h)) = l).
  { rewrite Hlog. destruct kv as [k v].
    apply (om_erase_head mid_compare mid_compare_refl). }
  destruct Hc as [(-> & _) | (-> & _)].
  - by rewrite (proj1 (drop_entry_log kv h)).
  - by rewrite (proj1 (commit_entry_log kv h)).
Qed.

(** The walk is its first [n] turns followed by the walk from there. *)
Lemma turns_spec (n : nat) (l : list (MessageId * LogEntry))
    (F : option (MessageId * LogEntry)) (live : gset PeerId) (h hw : hub)
    (Fw : option (MessageId * LogEntry)) (lw : list (MessageId * LogEntry)) :
  entries (_log h) = l ->
  turns n l F live h = Some (hw, Fw, lw) ->
  walk l F live h = walk lw Fw live hw /\
  entries (_log hw) = lw /\
  (Fw = F \/ Fw = None).
Proof.
  revert l F h. induction n as [| n IH]; intros l F h Hlog; cbn [turns].
  - intros [= <- <- <-]. split_and!; [done | done | by left].
  - destruct l as [| kv l]; [done |].
    destruct (walk_step F live h kv) as [h' F' | h' | h'] eqn:Hs; [| done | done].
    intros Hn.
    destruct (IH l F' h' (walk_step_erases F live h kv l h' F' Hlog Hs) Hn)
      as (Hw & Hl & HF).
    split_and!; [| done |].
    + cbn [walk]. by rewrite Hs.
    + destruct (walk_step_F F live h kv h' F' Hs) as [-> | ->]; [done |].
      right. by destruct HF.
Qed.

Lemma turns_next (n : nat) (l : list (MessageId * LogEntry))
    (F : option (MessageId * LogEntry)) (live : gset PeerId) (h hw : hub)
    (Fw : option (MessageId * LogEntry)) (kv : MessageId * LogEntry)
    (post : list (MessageId * LogEntry)) :
  turns n l F live h = Some (hw, Fw, kv :: post) ->
  turns (S n) l F live h
  = match walk_step Fw live hw kv with
    | Continue h' F' => Some (h', F', post)
    | Break _ => None
    | Return _ => None
    end.
Proof.
  revert l F h. induction n as [| n IH]; intros l F h.
  - cbn [turns]. intros [= -> -> ->].
    by destruct (walk_step Fw live hw kv) as [h' F' | h' | h'].
  - intros Hn. cbn [turns] in Hn. destruct l as [| kv0 l]; [done |].
    remember (S n) as m. cbn [turns]. subst m.
    destruct (walk_step F live h kv0) as [h' F' | h' | h']; [| done | done].
    by apply IH.
Qed.

Lemma walk_suffix (l : list (MessageId * LogEntry))
    (F : option (MessageId * LogEntry)) (live : gset PeerId) (h : hub) :
  entries (_log h) = l ->
  entries (_log (walk l F live h)) `suffix_of` l.
Proof.
  revert F h. induction l as [| kv l IH]; intros F h Hlog.
  - simpl. by rewrite Hlog.
  - cbn [walk]. pose proof (walk_step_cases F live h kv) as Hc.
    destruct (walk_step F live h kv) as [h' F' | h' | h'] eqn:Hs.
    + apply suffix_cons_r. apply IH.
      by apply (walk_step_erases F live h kv l h' F').
    + subst h'. by rewrite Hlog.
    + destruct Hc as [-> _]. rewrite (proj1 (commit_entry_log kv h)), Hlog.
      destruct kv as [k v]. rewrite (om_erase_head mid_compare mid_compare_refl).
      by apply suffix_cons_r.
Qed.

(** C1. The pass walks the log with [F], the last committable fuse of the
    tail-first scan, and [live_nodes], its quorum or else the quorum of the
    current configuration.  Let the walk, after [n] turns, meet the fuse
    entry [kv] in state [hw], with [Fw] for [F] (which is the [F] of the
    scan until that entry itself has been committed).  If [Fw] is there,
    [kv] is below it and [kv] is not acked by [live_nodes], the turn erases
    [kv] without delivery and sets [last_committed] to its id, and the
    pass goes on with the entries behind [kv], so that [kv] is erased for
    good.  If [Fw] is there and [kv] is above it, or if [Fw] is not there,
    the pass ends at [kv], in state [hw].  With no committable fuse at all,
    the first fuse entry of the log and all that follows it stay. *)
Theorem commit_pass_fuse_entries (h : hub) (n : nat) (hw : hub)
    (Fw : option (MessageId * LogEntry)) (kv : MessageId * LogEntry)
    (post : list (MessageId * LogEntry)) :
  turns n (entries (_log h)) (last_committable_fuse h) (live_nodes_of h) h
    = Some (hw, Fw, kv :: post) ->
  entry_is_fuse (snd kv) = true ->
  (* the scan *)
  (forall f, last_committable_fuse h = Some f ->
     committable_fuse f = true /\
     live_nodes_of h = quorum (snd f) /\
     exists pre post, entries (_log h) = pre ++ f :: post /\
                      Forall (fun x => committable_fuse x = false) post) /\
  (last_committable_fuse h = None ->
     live_nodes_of h = snd (current_config h) /\
     Forall (fun x => committable_fuse x = false) (entries (_log h))) /\
  (* where the walk stands when it meets [kv] *)
  entries (_log hw) = kv :: post /\
  (Fw = last_committable_fuse h \/ Fw = None) /\
  (* a fuse entry below [F] that the live nodes have not acked *)
  (forall f, Fw = Some f ->
     mid_lt (entry_message_id (snd kv)) (entry_message_id (snd f)) ->
     acked_by_quorum_of (live_nodes_of h) (snd kv) = false ->
     turns (S n) (entries (_log h)) (last_committable_fuse h) (live_nodes_of h) h
       = Some (drop_entry kv hw, Fw, post) /\
     commit_what_was_seen_by_everyone h
       = walk post Fw (live_nodes_of h) (drop_entry kv hw) /\
     drop_entry kv hw = with_log (_log (drop_entry kv hw)) hw /\
     entries (_log (drop_entry kv hw)) = post /\
     last_committed (_log (drop_entry kv hw)) = entry_message_id (snd kv) /\
     entries (_log (commit_what_was_seen_by_everyone h)) `suffix_of` post) /\
  (* a fuse entry above [F] *)
  (forall f, Fw = Some f ->
     mid_lt (entry_message_id (snd f)) (entry_message_id (snd kv)) ->
     commit_what_was_seen_by_everyone h = hw) /\
  (* no [F] *)
  (Fw = None -> commit_what_was_seen_by_everyone h = hw) /\
  (last_committable_fuse h = None -> commit_what_was_seen_by_everyone h = hw) /\
  (* the whole pass when the scan finds nothing *)
  (last_committable_fuse h = None ->
   forall pre e post',
     entries (_log h) = pre ++ e :: post' ->
     entry_is_fuse (snd e) = true ->
     Forall (fun x => entry_is_fuse (snd x) = false) pre ->
     exists pre',
       pre' `suffix_of` pre /\
       entries (_log (commit_what_was_seen_by_everyone h)) = pre' ++ e :: post').
Proof.
  intros Hturns Hfuse.
  destruct (turns_spec n _ _ _ h hw Fw (kv :: post) eq_refl Hturns) as (Hwalk & Hlog & HF).
  pose proof (turns_next n _ _ _ h hw Fw kv post Hturns) as Hnext.
  assert (Hnone : Fw = None -> commit_what_was_seen_by_everyone h = hw).
  { intros ->. unfold commit_what_was_seen_by_everyone. rewrite Hwalk.
    cbn [walk]. unfold walk_step. simpl. by rewrite fuse_without_F_stops. }
  split_and!.
  - intros f Hf. unfold live_nodes_of. rewrite Hf.
    destruct (find_rev_some _ _ _ Hf) as (Hc & pre & post0 & Hl & Hp). eauto 6.
  - intros Hn. unfold live_nodes_of. rewrite Hn. split; [done |].
    by apply find_rev_none.
  - done.
  - done.
  - intros f -> Hlt Hna.
    assert (Hs : walk_step (Some f) (live_nodes_of h) hw kv
                 = Continue (drop_entry kv hw) (Some f)).
    { unfold walk_step, first_block. simpl.
      rewrite Hfuse. unfold mid_lt in Hlt. by rewrite Hlt, Hna. }
    assert (Hpost : entries (_log (drop_entry kv hw)) = post).
    { rewrite (proj1 (drop_entry_log kv hw)), Hlog.
      destruct kv as [k v]. apply (om_erase_head mid_compare mid_compare_refl). }
    assert (Hpass : commit_what_was_seen_by_everyone h
                    = walk post (Some f) (live_nodes_of h) (drop_entry kv hw)).
    { unfold commit_what_was_seen_by_everyone. rewrite Hwalk. cbn [walk].
      by rewrite Hs. }
    split_and!; try done.
    + by rewrite Hnext, Hs.
    + rewrite Hpass. by apply walk_suffix.
  - intros f -> Hlt. unfold commit_what_was_seen_by_everyone. rewrite Hwalk.
    cbn [walk]. unfold walk_step, first_block. simpl. rewrite Hfuse.
    pose proof (mid_lt_not_le _ _ Hlt) as Hge.
    unfold mid_leb in Hge. unfold mid_ltb, mid_eqb.
    by destruct (mid_compare (entry_message_id (snd kv)) (entry_message_id (snd f))).
  - exact Hnone.
  - intros Hn. apply Hnone. rewrite Hn in HF. by destruct HF.
  - intros Hn pre e post' Hl He Hpre. unfold commit_what_was_seen_by_everyone.
    rewrite Hn, Hl. by apply walk_stops_at_first_fuse.
Qed.

(** The flag can only have been raised by a callback, and then nothing is
    journalled after that callback. *)
Lemma safe_exec_destroys {F : Type} (slot : Slot F) (call : F -> Reaction)
    (ev : AppEvent) (h : hub) :
  _was_destroyed h = false ->
  _was_destroyed (safe_exec slot call ev h) = true ->
  journal (safe_exec slot call ev h) = journal h ++ [ACall ev].
Proof.
  intros Halive. rewrite safe_exec_destroyed, safe_exec_journal, Halive.
  by destruct (func (slot_get slot (_callbacks h))).
Qed.

Lemma commit_destroys (entry : LogEntry) (h : hub) :
  _was_destroyed h = false ->
  _was_destroyed (commit entry h) = true ->
  exists j ev, journal (commit entry h) = j ++ [ACall ev].
Proof.
  intros Halive. unfold commit. destruct (message entry) as [m | m | m].
  - unfold on_commit_fuse.
    destruct (negb (acked_by_quorum entry)); [congruence |].
    destruct (install_config_fields entry h) as (_ & Hd & _ & _).
    rewrite Halive in Hd.
    set (h3 := install_config entry h) in *.
    set (added := quorum entry ∖ snd (current_config h)).
    set (removed := snd (current_config h) ∖ quorum entry).
    destruct (nonempty added); simpl.
    + destruct (_was_destroyed (on_insert added h3)) eqn:D.
      * intros _. eexists _, _. by apply safe_exec_destroys.
      * destruct (nonempty removed); [| congruence].
        intros D'. eexists _, _. by apply safe_exec_destroys.
    + destruct (nonempty removed); [| congruence].
      intros D'. eexists _, _. by apply safe_exec_destroys.
  - congruence.
  - unfold commit_user_data. destruct (find_node _ h); [| congruence].
    intros D. eexists _, _. by apply safe_exec_destroys.
Qed.

Lemma walk_destroyed (l : list (MessageId * LogEntry))
    (F : option (MessageId * LogEntry)) (live : gset PeerId) (h : hub) :
  entries (_log h) = l ->
  _was_destroyed h = false ->
  _was_destroyed (walk l F live h) = true ->
  exists pre kv post hm,
    l = pre ++ kv :: post /\
    _was_destroyed hm = false /\
    walk l F live h = commit_entry kv hm /\
    entries (_log (walk l F live h)) = post.
Proof.
  revert F h. induction l as [| kv l IH]; intros F h Hlog Halive; simpl.
  - congruence.
  - pose proof (walk_step_cases F live h kv) as Hc.
    assert (Herase : om_erase mid_compare (fst kv) (entries (_log h)) = l).
    { rewrite Hlog. destruct kv as [k v].
      apply (om_erase_head mid_compare mid_compare_refl). }
    destruct (walk_step F live h kv) as [h' F' | h' | h'].
    + assert (Hlog' : entries (_log h') = l /\ _was_destroyed h' = false).
      { destruct Hc as [(-> & _) | (-> & Hd & _)].
        - by rewrite (proj1 (drop_entry_log kv h)).
        - by rewrite (proj1 (commit_entry_log kv h)). }
      destruct Hlog' as [Hlog' Halive'].
      intros Hd.
      destruct (IH F' h' Hlog' Halive' Hd) as (pre & kv' & post & hm & -> & ? & ? & ?).
      exists (kv :: pre), kv', post, hm. done.
    + subst h'. congruence.
    + destruct Hc as [-> _]. intros _.
      exists [], kv, l, h. by rewrite (proj1 (commit_entry_log kv h)).
Qed.

(** C7. Once a callback run from the commit pass has destroyed the hub,
    the pass is over.  In [on_commit_fuse], [on_remove] is not run after a
    destroying [on_insert]; in the walk, the state in which [commit]
    returned is the state the pass returns, whatever is left in the log;
    and a pass that ends with the hub destroyed ends in the state in which
    [commit] returned for some entry, with every entry behind that one
    still in the log and the callback the last thing journalled. *)
Theorem destroyed_hub_is_left_alone (h : hub) :
  _was_destroyed h = false ->
  (forall entry,
     acked_by_quorum entry = true ->
     let added := quorum entry ∖ snd (current_config h) in
     nonempty added = true ->
     _was_destroyed (on_insert added (install_config entry h)) = true ->
     on_commit_fuse entry h = on_insert added (install_config entry h) /\
     journal (on_commit_fuse entry h) = journal h ++ [ACall (EvInsert added)]) /\
  (forall F live kv rest,
     first_block (snd <$> F) live (snd kv) = Pass ->
     causal_gap h (snd kv) = false ->
     _was_destroyed (commit_entry kv h) = true ->
     walk_step F live h kv = Return (commit_entry kv h) /\
     walk (kv :: rest) F live h = commit_entry kv h) /\
  (_was_destroyed (commit_what_was_seen_by_everyone h) = true ->
   exists pre kv post hm,
     entries (_log h) = pre ++ kv :: post /\
     _was_destroyed hm = false /\
     commit_what_was_seen_by_everyone h = commit_entry kv hm /\
     entries (_log (commit_what_was_seen_by_everyone h)) = post /\
     exists j ev, journal (commit_what_was_seen_by_everyone h) = j ++ [ACall ev]).
Proof.
  intros Halive. split; [| split].
  - intros entry Hq added Hadded Hd.
    assert (Heq : on_commit_fuse entry h = on_insert added (install_config entry h)).
    { unfold on_commit_fuse. rewrite Hq. simpl. fold added. by rewrite Hadded, Hd. }
    split; [done |]. rewrite Heq.
    destruct (install_config_fields entry h) as (_ & Hd0 & Hj & _).
    rewrite <- Hj. apply safe_exec_destroys; [congruence | done].
  - intros F live kv rest Hg Hgap Hd.
    assert (Hs : walk_step F live h kv = Return (commit_entry kv h)).
    { unfold walk_step. by rewrite Hg, Hgap, Hd. }
    split; [done |]. simpl. by rewrite Hs.
  - intros Hd. unfold commit_what_was_seen_by_everyone in *.
    destruct (walk_destroyed _ _ _ h eq_refl Halive Hd)
      as (pre & kv & post & hm & Hl & Hm & Hw & Hp).
    exists pre, kv, post, hm. repeat split; try done.
    rewrite Hw in Hd |- *. unfold commit_entry in *.
    apply commit_destroys; done.
Qed.

(** ** [last_committed] over time *)

(** C2, as stated, fails: peer 2 has committed its own message (1, 2) and
    holds peer 1's fuse (3, 1); peer 1's older fuse (1, 1) then arrives, is
    let into the log by [add_log_entry], is found committable and is
    committed, which takes [last_committed] back to (1, 1). *)
Lemma last_committed_goes_back :
  ~ (forall (h : hub) (op : HubOp),
       reachable h ->
       mid_le (last_committed (_log h)) (last_committed (_log (run_op h op)))).
Proof.
  intros H.
  assert (Hr : reachable hub_before_late_fuse).
  { exists 2, no_callbacks, [Broadcast [120]; CommitPass; Receive early_fuse].
    reflexivity. }
  specialize (H hub_before_late_fuse (Receive late_fuse) Hr).
  vm_compute in H. discriminate H.
Qed.

(** The same between honest peers: peer 3 is lost, the fuse (3, 2) that
    reports it is committable at once, and the first turn of the walk
    erases the fuse (1, 1) of peer 1 that peer 3 had forwarded, taking
    [last_committed] back from (1, 2). *)
Lemma commit_pass_steps_back_after_a_crash :
  last_committed (_log hub_at_crash) = (1, 2) /\
  map fst (entries (_log hub_at_crash)) = [(1, 1); (2, 2); (3, 2)] /\
  fst <$> last_committable_fuse hub_at_crash = Some (3, 2) /\
  match entries (_log hub_at_crash) with
  | kv :: _ =>
      walk_step (last_committable_fuse hub_at_crash) (live_nodes_of hub_at_crash)
                hub_at_crash kv
        = Continue (drop_entry kv hub_at_crash) (last_committable_fuse hub_at_crash) /\
      last_committed (_log (drop_entry kv hub_at_crash)) = (1, 1)
  | [] => False
  end.
Proof.
  split; [vm_compute; reflexivity |].
  split; [vm_compute; reflexivity |].
  split; [vm_compute; reflexivity |].
  vm_compute. split; reflexivity.
Qed.

Lemma ascending_from_entry_id (lo : MessageId) (l : list (MessageId * LogEntry))
    (k : MessageId) (e : LogEntry) :
  ascending_from lo l = true ->
  om_find mid_compare k l = Some e ->
  entry_message_id e = k.
Proof.
  revert lo. induction l as [| [k' e'] l IH]; intros lo; simpl; [done |].
  intros Hasc. apply andb_true_iff in Hasc as [Hasc Hrest].
  apply andb_true_iff in Hasc as [_ Hid]. apply mid_eqb_eq in Hid.
  destruct (mid_compare k k') eqn:E; [| done |].
  - intros [= <-]. apply mid_compare_eq in E. congruence.
  - intros Hf. exact (IH _ Hrest Hf).
Qed.

Lemma ascending_from_insert (lo k : MessageId) (e : LogEntry)
    (l : list (MessageId * LogEntry)) :
  mid_lt lo k ->
  entry_message_id e = k ->
  ascending_from lo l = true ->
  ascending_from lo (om_insert mid_compare k e l) = true.
Proof.
  intros Hlo Hid. revert lo Hlo. induction l as [| [k' e'] l IH]; intros lo Hlo; simpl.
  - intros _. unfold mid_lt in Hlo. rewrite Hlo. simpl.
    rewrite Hid. by rewrite (proj2 (mid_eqb_eq k k) eq_refl).
  - intros Hasc. destruct (mid_compare k k') eqn:E; simpl.
    + done.
    + unfold mid_lt in Hlo. rewrite Hlo, Hid.
      rewrite (proj2 (mid_eqb_eq k k) eq_refl). simpl.
      apply andb_true_iff in Hasc as [Hasc Hrest].
      apply andb_true_iff in Hasc as [_ Hid'].
      unfold mid_ltb. by rewrite E, Hid', Hrest.
    + apply andb_true_iff in Hasc as [Hasc Hrest]. rewrite Hasc. simpl.
      apply IH; [| done]. unfold mid_lt, mid_ltb.
      rewrite (mid_compare_antisym k k'), E. done.
Qed.

Lemma ascending_from_set (lo k : MessageId) (e : LogEntry)
    (l : list (MessageId * LogEntry)) :
  is_Some (om_find mid_compare k l) ->
  entry_message_id e = k ->
  ascending_from lo l = true ->
  ascending_from lo (om_set mid_compare k e l) = true.
Proof.
  intros Hin Hid. revert lo Hin. induction l as [| [k' e'] l IH]; intros lo; simpl.
  - by intros [? ?].
  - intros Hin Hasc. destruct (mid_compare k k') eqn:E; simpl.
    + apply mid_compare_eq in E. subst k'.
      apply andb_true_iff in Hasc as [Hasc Hrest].
      apply andb_true_iff in Hasc as [Hlo _].
      rewrite Hlo, Hid, Hrest. by rewrite (proj2 (mid_eqb_eq k k) eq_refl).
    + by destruct Hin.
    + apply andb_true_iff in Hasc as [Hasc Hrest]. rewrite Hasc. simpl.
      by apply IH.
Qed.

Lemma fold_acks_message (from : list (PeerId * AckData)) (e : LogEntry) :
  message (fold_acks from e) = message e.
Proof. induction from as [| kv from IH]; simpl; done. Qed.

Lemma insert_entry_ascending (e : LogEntry) (l : Log) :
  mid_lt (last_committed l) (entry_message_id e) ->
  ascending_from (last_committed l) (entries l) = true ->
  ascending_from (last_committed (insert_entry e l)) (entries (insert_entry e l)) = true.
Proof.
  intros Hlt Hasc. unfold insert_entry.
  destruct (om_find mid_compare (entry_message_id e) (entries l)) as [old |] eqn:E; simpl.
  - apply ascending_from_set; [by rewrite E | | done].
    unfold entry_message_id. rewrite fold_acks_message.
    apply (ascending_from_entry_id _ _ _ _ Hasc E).
  - apply ascending_from_insert; [done | | done].
    destruct (om_find mid_compare (entry_message_id e) (placeholders l)); [| done].
    unfold entry_message_id. by rewrite fold_acks_message.
Qed.

Lemma walk_ascending (l : list (MessageId * LogEntry))
    (F : option (MessageId * LogEntry)) (live : gset PeerId) (h : hub) :
  entries (_log h) = l ->
  ascending_from (last_committed (_log h)) l = true ->
  (walk l F live h = h \/
   mid_lt (last_committed (_log h)) (last_committed (_log (walk l F live h)))) /\
  log_above_last_committed (walk l F live h) = true.
Proof.
  revert F h. induction l as [| kv l IH]; intros F h Hlog Hasc.
  - simpl. split; [by left |]. unfold log_above_last_committed. by rewrite Hlog.
  - simpl in Hasc. apply andb_true_iff in Hasc as [Hasc Hrest].
    apply andb_true_iff in Hasc as [Hlo Hid]. apply mid_eqb_eq in Hid.
    assert (Herase : om_erase mid_compare (fst kv) (entries (_log h)) = l).
    { rewrite Hlog. destruct kv as [k v].
      apply (om_erase_head mid_compare mid_compare_refl). }
    pose proof (walk_step_cases F live h kv) as Hc. simpl.
    destruct (walk_step F live h kv) as [h' F' | h' | h'].
    + assert (Hh' : entries (_log h') = l /\ last_committed (_log h') = fst kv).
      { destruct Hc as [(-> & _) | (-> & _)].
        - destruct (drop_entry_log kv h) as (-> & -> & _). done.
        - destruct (commit_entry_log kv h) as (-> & ->). done. }
      destruct Hh' as [Hl' Hlc'].
      destruct (IH F' h' Hl') as [Hmono Hinv]; [by rewrite Hlc' |].
      split; [| done]. right.
      destruct Hmono as [-> | Hlt]; [by rewrite Hlc' |].
      apply (mid_lt_trans _ (fst kv)); [done | by rewrite <- Hlc'].
    + subst h'. split; [by left |].
      unfold log_above_last_committed. rewrite Hlog. simpl.
      by rewrite Hlo, Hrest, (proj2 (mid_eqb_eq _ _) Hid).
    + destruct Hc as [-> _].
      destruct (commit_entry_log kv h) as (Hl' & Hlc').
      split; [right; by rewrite Hlc', Hid |].
      unfold log_above_last_committed. by rewrite Hl', Hlc', Herase, Hid.
Qed.

Lemma mid_not_le_lt (a b : MessageId) : mid_leb a b = false -> mid_lt b a.
Proof.
  unfold mid_leb, mid_lt, mid_ltb. rewrite (mid_compare_antisym a b).
  by destruct (mid_compare a b).
Qed.

Lemma not_lowered_same (h h' : hub) :
  last_committed (_log h') = last_committed (_log h) -> not_lowered h h'.
Proof. intros H. by left. Qed.

Lemma not_lowered_trans (h1 h2 h3 : hub) :
  not_lowered h1 h2 -> not_lowered h2 h3 -> not_lowered h1 h3.
Proof.
  unfold not_lowered. intros [-> | H12] [-> | H23]; [by left | by right | by right |].
  right. by apply (mid_lt_trans _ (last_committed (_log h2))).
Qed.

Lemma commit_pass_above (h : hub) :
  log_above_last_committed h = true ->
  log_above_last_committed (commit_what_was_seen_by_everyone h) = true /\
  not_lowered h (commit_what_was_seen_by_everyone h).
Proof.
  intros Hinv. unfold commit_what_was_seen_by_everyone.
  destruct (walk_ascending (entries (_log h)) (last_committable_fuse h)
              (live_nodes_of h) h eq_refl Hinv) as [Hmono Hinv'].
  split; [done |]. destruct Hmono as [-> | Hlt]; [by left | by right].
Qed.

Lemma add_log_entry_above (m : LogMessage) (h : hub) :
  log_above_last_committed h = true ->
  log_type m <> fuse \/ mid_lt (last_committed (_log h)) (header_id (log_header m)) ->
  log_above_last_committed (add_log_entry m h) = true /\
  last_committed (_log (add_log_entry m h)) = last_committed (_log h).
Proof.
  intros Hinv Hm. unfold add_log_entry.
  destruct (mid_leb (header_id (log_header m)) (last_committed (_log h))) eqn:Hle;
    simpl.
  - destruct Hm as [Hty | Hlt].
    + replace (negb (is_fuse_type (log_type m))) with true; [done |].
      by destruct (log_type m).
    + by rewrite (mid_lt_not_le _ _ Hlt) in Hle.
  - split.
    + unfold log_above_last_committed. simpl.
      apply insert_entry_ascending; [| done].
      rewrite entry_message_id_new_entry. by apply mid_not_le_lt.
    + unfold insert_entry. by destruct (om_find _ _ (entries (_log h))).
Qed.

Lemma log_apply_ack_above (acker : PeerId) (ad : AckData) (l : Log) :
  ascending_from (last_committed l) (entries l) = true ->
  ascending_from (last_committed (log_apply_ack acker ad l))
                 (entries (log_apply_ack acker ad l)) = true /\
  last_committed (log_apply_ack acker ad l) = last_committed l.
Proof.
  intros Hasc. unfold log_apply_ack.
  destruct (om_find mid_compare (acked_message_id ad) (entries l)) as [e |] eqn:E;
    simpl; [| done].
  split; [| done]. apply ascending_from_set; [by rewrite E | | done].
  apply (ascending_from_entry_id _ _ _ _ Hasc E).
Qed.

Lemma broadcast_ack_above (id : MessageId) (h : hub) :
  log_above_last_committed h = true ->
  log_above_last_committed (broadcast_ack id h) = true /\
  last_committed (_log (broadcast_ack id h)) = last_committed (_log h).
Proof.
  intros Hinv. unfold broadcast_ack, construct_ack. cbv zeta.
  unfold log_above_last_committed.
  match goal with
  | |- context [broadcast ?msg ?x] =>
      destruct (broadcast_frame msg x) as (_ & _ & _ & -> & _)
  end.
  simpl. by apply log_apply_ack_above.
Qed.

Lemma process_above (op : PeerId) (msg : Message) (h : hub) :
  log_above_last_committed h = true ->
  (message_type msg = fuse -> mid_lt (last_committed (_log h)) (message_id msg)) ->
  log_above_last_committed (process op msg h) = true /\
  not_lowered h (process op msg h).
Proof.
  intros Hinv Hfresh. destruct msg as [[m | m | m] | m]; simpl.
  - unfold process_fuse.
    destruct (add_log_entry_above (LFuse m) h Hinv) as [H1 Hlc1];
      [right; by apply Hfresh |].
    set (h1 := add_log_entry (LFuse m) h) in *.
    assert (Hack : log_above_last_committed
                     (commit_what_was_seen_by_everyone
                        (broadcast_ack (header_id (fuse_header m)) h1)) = true
                   /\ not_lowered h
                        (commit_what_was_seen_by_everyone
                           (broadcast_ack (header_id (fuse_header m)) h1))).
    { destruct (broadcast_ack_above (header_id (fuse_header m)) h1 H1) as [H2 Hlc2].
      destruct (commit_pass_above _ H2) as [H3 Hlow].
      split; [done |].
      apply (not_lowered_trans _ (broadcast_ack (header_id (fuse_header m)) h1));
        [| done].
      apply not_lowered_same. by rewrite Hlc2. }
    destruct (find_highest_fuse_entry _) as [fe |]; [| done].
    destruct (mid_leb _ _); [done |]. split; [done | by apply not_lowered_same].
  - split; [| apply not_lowered_same].
    + unfold process_port_offer, log_above_last_committed.
      destruct (negb _); [done |]. by destruct (find_node op h).
    + unfold process_port_offer. destruct (negb _); [done |].
      by destruct (find_node op h).
  - unfold process_user_data.
    destruct (broadcast_ack_above (header_id (ud_header m)) h Hinv) as [H1 Hlc1].
    destruct (add_log_entry_above (LUserData m) _ H1) as [H2 Hlc2];
      [left; discriminate |].
    split; [done |]. apply not_lowered_same. by rewrite Hlc2.
  - unfold process_ack, log_above_last_committed. simpl.
    destruct (log_apply_ack_above (original_poster (ack_header m)) (ack_data m)
                (_log h) Hinv) as [H1 Hlc1].
    split; [done | by apply not_lowered_same].
Qed.

Lemma message_type_mark_visited (p : PeerId) (m : Message) :
  message_type (mark_visited p m) = message_type m.
Proof. by destruct m as [[| |]|]. Qed.

Lemma stale_fuse_receive (h : hub) (msg : Message) :
  stale_fuse h (Receive msg) = false ->
  message_type msg = fuse ->
  mid_lt (last_committed (_log h)) (message_id msg).
Proof.
  destruct msg as [[m | m | m] | m]; simpl; try done.
  intros Hle _. by apply mid_not_le_lt.
Qed.

Lemma on_recv_above (msg : Message) (h : hub) :
  log_above_last_committed h = true ->
  stale_fuse h (Receive msg) = false ->
  log_above_last_committed (on_recv msg h) = true /\
  not_lowered h (on_recv msg h).
Proof.
  intros Hinv Hfresh. unfold on_recv.
  destruct (seen_is_in _ _); [split; [done | by left] |].
  set (m := mark_visited (_id h) msg).
  destruct (note_received_fields m h) as (_ & _ & Hl3 & _).
  set (h3 := note_received m h) in *.
  assert (H3 : log_above_last_committed h3 = true).
  { unfold log_above_last_committed. by rewrite Hl3. }
  destruct (_ =? _); [split; [done | apply not_lowered_same; by rewrite Hl3] |].
  destruct (broadcast_frame m h3) as (_ & _ & _ & Hl4 & _).
  set (h4 := broadcast m h3) in *.
  assert (H4 : log_above_last_committed h4 = true).
  { unfold log_above_last_committed. by rewrite Hl4. }
  destruct (process_above (original_poster (header m)) m h4 H4) as [H5 Hlow5].
  { intros Hty. rewrite Hl4, Hl3. unfold m in *.
    rewrite message_type_mark_visited in Hty. rewrite message_id_mark_visited.
    by apply stale_fuse_receive. }
  set (h5 := process (original_poster (header m)) m h4) in *.
  assert (Hlow : not_lowered h h5).
  { apply (not_lowered_trans _ h4); [| done].
    apply not_lowered_same. by rewrite Hl4, Hl3. }
  destruct (_was_destroyed h5); [done |].
  destruct (commit_pass_above h5 H5) as [H6 Hlow6].
  split; [done |]. by apply (not_lowered_trans _ h5).
Qed.

Lemma run_op_above (h : hub) (op : HubOp) :
  log_above_last_committed h = true ->
  stale_fuse h op = false ->
  log_above_last_committed (run_op h op) = true /\
  not_lowered h (run_op h op).
Proof.
  intros Hinv Hfresh. destruct op as [msg | data | | reg]; cbn [run_op].
  - by apply on_recv_above.
  - unfold total_order_broadcast, construct_ackable. cbv zeta.
    match goal with
    | |- context [add_log_entry ?m (broadcast ?msg ?x)] =>
        destruct (broadcast_frame msg x) as (_ & _ & _ & Hl & _);
        destruct (add_log_entry_above m (broadcast msg x)) as [H1 Hlc]
    end.
    + unfold log_above_last_committed. by rewrite Hl.
    + left. discriminate.
    + split; [done |]. apply not_lowered_same. by rewrite Hlc, Hl.
  - unfold posted_commit. destruct (_was_destroyed h); [split; [done | by left] |].
    by apply commit_pass_above.
  - split; [| apply not_lowered_same]; unfold log_above_last_committed;
      by rewrite (proj1 (proj2 (proj2 (proj2 (register_frame reg h))))).
Qed.

Lemma run_ops_above (ops : list HubOp) (h : hub) :
  log_above_last_committed h = true ->
  no_stale_fuse ops h = true ->
  log_above_last_committed (run_ops ops h) = true /\
  (forall before op after,
     ops = before ++ op :: after ->
     not_lowered (run_ops before h) (run_op (run_ops before h) op)).
Proof.
  revert h. induction ops as [| op0 ops IH]; intros h Hinv Hfresh.
  - split; [done |]. intros before op after Habs. by destruct before.
  - cbn [no_stale_fuse] in Hfresh. apply andb_true_iff in Hfresh as [H0 Hrest].
    apply negb_true_iff in H0.
    destruct (run_op_above h op0 Hinv H0) as [Hinv' Hlow].
    destruct (IH (run_op h op0) Hinv' Hrest) as [Hend Hsteps].
    split; [done |]. intros before op after Heq.
    destruct before as [| b before]; simpl in Heq.
    + injection Heq as <- _. done.
    + injection Heq as <- Heq. unfold run_ops in *. cbn [foldl].
      by apply (Hsteps before op after).
Qed.

(** C2, as the code has it.  [last_committed] never goes down, and the
    pending entries stay in ascending order above it, over every run of
    receptions, broadcasts, commit passes and registrations that begins
    with a new hub and in which no Fuse is received whose id is not above
    [last_committed] at the time.  In every state with the pending entries
    above [last_committed], a commit pass leaves the hub as it was or
    moves [last_committed] strictly up; each turn of the walk that writes
    [last_committed] writes the id of the entry it removes;
    [add_log_entry] keeps the entries above [last_committed] for every
    message that is not a Fuse, and for a Fuse above [last_committed]; and
    every operation but the reception of such a Fuse keeps them so and
    does not lower [last_committed]. *)
Theorem last_committed_over_time (id : PeerId) (cbs : Callbacks) (ops : list HubOp) :
  no_stale_fuse ops (hub_init id cbs) = true ->
  log_above_last_committed (run_ops ops (hub_init id cbs)) = true /\
  (forall before op after,
     ops = before ++ op :: after ->
     not_lowered (run_ops before (hub_init id cbs))
                 (run_op (run_ops before (hub_init id cbs)) op)) /\
  (forall h,
     log_above_last_committed h = true ->
     (commit_what_was_seen_by_everyone h = h \/
      mid_lt (last_committed (_log h))
             (last_committed (_log (commit_what_was_seen_by_everyone h)))) /\
     log_above_last_committed (commit_what_was_seen_by_everyone h) = true /\
     (forall F live kv,
        match walk_step F live h kv with
        | Continue h' _ | Return h' =>
            last_committed (_log h') = entry_message_id (snd kv)
        | Break h' => h' = h
        end) /\
     (forall m,
        log_type m <> fuse \/
        mid_lt (last_committed (_log h)) (header_id (log_header m)) ->
        log_above_last_committed (add_log_entry m h) = true) /\
     (forall op,
        stale_fuse h op = false ->
        log_above_last_committed (run_op h op) = true /\
        not_lowered h (run_op h op))).
Proof.
  intros Hfresh.
  destruct (run_ops_above ops (hub_init id cbs) eq_refl Hfresh) as [Hend Hsteps].
  split; [done |]. split; [done |].
  intros h Hinv.
  destruct (walk_ascending (entries (_log h)) (last_committable_fuse h)
              (live_nodes_of h) h eq_refl Hinv) as [Hmono Hinv'].
  split; [done |]. split; [done |]. split_and!.
  - intros F live kv. pose proof (walk_step_cases F live h kv) as Hc.
    destruct (walk_step F live h kv) as [h' F' | h' | h'].
    + destruct Hc as [(-> & _) | (-> & _)].
      * apply drop_entry_log.
      * apply commit_entry_log.
    + done.
    + destruct Hc as [-> _]. apply commit_entry_log.
  - intros m Hm. by apply add_log_entry_above.
  - intros op Hop. by apply run_op_above.
Qed.

(** * The theorems at work on the sample states *)

Lemma commit_pass_fuse_entries_witness :
  turns 1 (entries (_log hub_at_crash)) (last_committable_fuse hub_at_crash)
    (live_nodes_of hub_at_crash) hub_at_crash
    = Some (hub_after_first_turn, Some loss_fuse,
            first_pending hub_after_first_turn
              :: behind_first_pending hub_after_first_turn) /\
  entry_is_fuse (snd (first_pending hub_after_first_turn)) = true /\
  commit_what_was_seen_by_everyone hub_at_crash
    = walk (behind_first_pending hub_after_first_turn) (Some loss_fuse)
        (live_nodes_of hub_at_crash)
        (drop_entry (first_pending hub_after_first_turn) hub_after_first_turn) /\
  last_committed
    (_log (drop_entry (first_pending hub_after_first_turn) hub_after_first_turn))
    = entry_message_id (snd (first_pending hub_after_first_turn)).
Proof.
  assert (Ht : turns 1 (entries (_log hub_at_crash)) (last_committable_fuse hub_at_crash)
                 (live_nodes_of hub_at_crash) hub_at_crash
               = Some (hub_after_first_turn, Some loss_fuse,
                       first_pending hub_after_first_turn
                         :: behind_first_pending hub_after_first_turn))
    by (vm_compute; reflexivity).
  assert (Hf : entry_is_fuse (snd (first_pending hub_after_first_turn)) = true)
    by (vm_compute; reflexivity).
  split; [exact Ht |]. split; [exact Hf |].
  destruct (commit_pass_fuse_entries hub_at_crash 1 _ _ _ _ Ht Hf)
    as (_ & _ & _ & _ & Hdrop & _).
  destruct (Hdrop loss_fuse eq_refl) as (_ & Hpass & _ & _ & Hlc & _).
  - vm_compute. reflexivity.
  - vm_compute. reflexivity.
  - split; [exact Hpass | exact Hlc].
Defined.

Lemma last_committed_over_time_witness :
  no_stale_fuse [Broadcast [120]; CommitPass; Receive early_fuse] (hub_init 2 no_callbacks)
    = true /\
  log_above_last_committed hub_before_late_fuse = true /\
  not_lowered (run_ops [Broadcast [120]] (hub_init 2 no_callbacks))
    (run_op (run_ops [Broadcast [120]] (hub_init 2 no_callbacks)) CommitPass).
Proof.
  assert (Hfresh : no_stale_fuse [Broadcast [120]; CommitPass; Receive early_fuse]
                     (hub_init 2 no_callbacks) = true)
    by (vm_compute; reflexivity).
  split; [exact Hfresh |].
  destruct (last_committed_over_time 2 no_callbacks
              [Broadcast [120]; CommitPass; Receive early_fuse] Hfresh)
    as (Hend & Hsteps & _).
  split; [exact Hend |].
  exact (Hsteps [Broadcast [120]] CommitPass [Receive early_fuse] eq_refl).
Defined.

Lemma on_recv_own_message_witness :
  original_poster (header returned_message) = _id (total_order_broadcast [120] hub_alone) /\
  seen_is_in (message_id returned_message)
    (_seen (on_recv returned_message (total_order_broadcast [120] hub_alone))) = true.
Proof.
  split; [reflexivity |].
  apply (on_recv_own_message returned_message (total_order_broadcast [120] hub_alone)).
  - reflexivity.
  - vm_compute. reflexivity.
Defined.

Lemma on_recv_rebroadcast_witness :
  _id hub_linked ∈ visited (header (mark_visited (_id hub_linked) late_fuse)) /\
  forall p,
    p ∈ broadcast_targets (header (mark_visited (_id hub_linked) late_fuse))
          (note_received (mark_visited (_id hub_linked) late_fuse) hub_linked) ->
    p <> _id hub_linked /\ (p ∉ visited (header late_fuse)).
Proof.
  destruct (on_recv_rebroadcast late_fuse hub_linked) as (Hv & _ & _ & _ & Hp).
  split; [exact Hv | exact Hp].
Defined.

Lemma on_recv_seen_is_dropped_witness :
  seen_is_in (message_id early_fuse) (_seen hub_before_late_fuse) = true /\
  on_recv early_fuse hub_before_late_fuse = hub_before_late_fuse.
Proof.
  assert (Hseen : seen_is_in (message_id early_fuse) (_seen hub_before_late_fuse) = true)
    by (vm_compute; reflexivity).
  split; [exact Hseen |].
  exact (on_recv_seen_is_dropped early_fuse hub_before_late_fuse Hseen).
Defined.

Lemma fuse_refuses_bad_reply_witness :
  _was_destroyed hub_alone = false /\
  (exists h',
     fuse_exchanged (decode_be 4) (decode_be 16) 1 7 quiet_on_fused success [] hub_alone
       = Some h' /\
     refused 7 connection_refused hub_alone h') /\
  (exists h',
     fuse_exchanged (decode_be 4) (decode_be 16) 1 7 quiet_on_fused success
       (sample_reply 2 3) hub_alone = Some h' /\
     refused 7 no_protocol_option hub_alone h') /\
  (exists h',
     fuse_exchanged (decode_be 4) (decode_be 16) 1 7 quiet_on_fused success
       (sample_reply 1 2) hub_alone = Some h' /\
     refused 7 already_connected hub_alone h').
Proof.
  split; [reflexivity |]. split; [| split].
  - apply (fuse_refuses_bad_reply (decode_be 4) (decode_be 16) 1 7 quiet_on_fused []
             hub_alone eq_refl).
    reflexivity.
  - apply (proj1 (proj2 (fuse_refuses_bad_reply (decode_be 4) (decode_be 16) 1 7
                           quiet_on_fused (sample_reply 2 3) hub_alone eq_refl))
             2 3).
    + vm_compute. reflexivity.
    + discriminate.
  - apply (fuse_refuses_bad_reply (decode_be 4) (decode_be 16) 1 7 quiet_on_fused
             (sample_reply 1 2) hub_alone eq_refl).
    vm_compute. reflexivity.
Defined.

Lemma destroyed_hub_is_left_alone_witness :
  _was_destroyed hub_two_pending = false /\
  exists pre kv post hm,
    entries (_log hub_two_pending) = pre ++ kv :: post /\
    _was_destroyed hm = false /\
    commit_what_was_seen_by_everyone hub_two_pending = commit_entry kv hm /\
    entries (_log (commit_what_was_seen_by_everyone hub_two_pending)) = post /\
    exists j ev,
      journal (commit_what_was_seen_by_everyone hub_two_pending) = j ++ [ACall ev].
Proof.
  split; [reflexivity |].
  apply (destroyed_hub_is_left_alone hub_two_pending eq_refl).
  vm_compute. reflexivity.
Defined.

Lemma add_log_entry_not_above_last_committed_witness :
  mid_le (1, 2) (last_committed (_log hub_after_broadcast)) /\
  add_log_entry (LUserData (sample_user_data 1 2 (0, 0) [2] [120])) hub_after_broadcast
    = hub_after_broadcast /\
  is_Some (om_find mid_compare (1, 1)
             (entries (_log (add_log_entry (LFuse (sample_fuse 1 1 (0, 1) [1] 8))
                                           hub_after_broadcast)))).
Proof.
  split; [vm_compute; reflexivity |]. split.
  - apply (add_log_entry_not_above_last_committed
             (LUserData (sample_user_data 1 2 (0, 0) [2] [120])) hub_after_broadcast).
    + vm_compute. reflexivity.
    + discriminate.
  - apply (add_log_entry_not_above_last_committed
             (LFuse (sample_fuse 1 1 (0, 1) [1] 8)) hub_after_broadcast).
    + vm_compute. reflexivity.
    + reflexivity.
Defined.

Lemma callback_invoke_witness :
  CallbackSlot.invoke {| CallbackSlot.func := Some quiet_fn; CallbackSlot.was_reset := true |}
    = Some {| CallbackSlot.func := Some quiet_fn; CallbackSlot.was_reset := false |} /\
  CallbackSlot.invoke {| CallbackSlot.func := Some resetting_fn; CallbackSlot.was_reset := false |}
    = Some {| CallbackSlot.func := None; CallbackSlot.was_reset := true |}.
Proof.
  split.
  - apply (callback_invoke quiet_fn
             {| CallbackSlot.func := Some quiet_fn; CallbackSlot.was_reset := true |}
             eq_refl).
    reflexivity.
  - apply (proj1 (proj2 (callback_invoke resetting_fn
                           {| CallbackSlot.func := Some resetting_fn;
                              CallbackSlot.was_reset := false |}
                           eq_refl))
             [Some quiet_fn] None).
    reflexivity.
Defined.

Lemma unreliable_from_unknown_source_is_dropped_witness :
  node_received_unreliable_broadcast (decode_be 16) (fun _ _ _ => [3]) [1; 2; 3] hub_linked
    = hub_linked /\
  node_received_unreliable_broadcast (decode_be 16) (fun _ _ _ => [3])
    [0; 0; 0; 0; 0; 0; 0; 0; 0; 0; 0; 0; 0; 0; 0; 9; 0; 0; 0; 1; 65] hub_linked
    = hub_linked.
Proof.
  split.
  - apply (unreliable_from_unknown_source_is_dropped (decode_be 16) (fun _ _ _ => [3])).
    left. reflexivity.
  - apply (unreliable_from_unknown_source_is_dropped (decode_be 16) (fun _ _ _ => [3])).
    right. exists 9, [0; 0; 0; 1; 65]. split; vm_compute; reflexivity.
Defined.

(** * More of the hub *)

#[local] Set Warnings "-clear-no-such-hyp".

(** ** Ordered maps, when the keys are in order *)

Section OrderedMapOrder.
Context {K V : Type} (cmp : K -> K -> comparison).
Hypothesis cmp_refl : forall k, cmp k k = Eq.
Hypothesis cmp_eq : forall a b, cmp a b = Eq -> a = b.
Hypothesis cmp_antisym : forall a b, cmp b a = CompOpp (cmp a b).
Hypothesis cmp_trans : forall a b c, cmp a b = Lt -> cmp b c = Lt -> cmp a c = Lt.

Lemma om_find_insert_same (k : K) (v : V) (m : list (K * V)) :
  om_find cmp k (om_insert cmp k v m) = Some (default v (om_find cmp k m)).
Proof.
  induction m as [| [k' v'] m IH]; simpl.
  - by rewrite cmp_refl.
  - destruct (cmp k k') eqn:E; simpl; rewrite ?cmp_refl, ?E; done.
Qed.

Lemma om_find_insert_other (k k' : K) (v : V) (m : list (K * V)) :
  k <> k' -> om_find cmp k' (om_insert cmp k v m) = om_find cmp k' m.
Proof.
  intros Hne. induction m as [| [k0 v0] m IH]; simpl.
  - destruct (cmp k' k) eqn:E; try done. apply cmp_eq in E. congruence.
  - destruct (cmp k k0) eqn:E; simpl.
    + done.
    + destruct (cmp k' k) eqn:E'.
      * apply cmp_eq in E'. congruence.
      * by rewrite (cmp_trans _ _ _ E' E).
      * done.
    + destruct (cmp k' k0); try done.
Qed.

Lemma om_find_set_other (k k' : K) (v : V) (m : list (K * V)) :
  k <> k' -> om_find cmp k' (om_set cmp k v m) = om_find cmp k' m.
Proof.
  intros Hne. induction m as [| [k0 v0] m IH]; simpl.
  - destruct (cmp k' k) eqn:E; try done. apply cmp_eq in E. congruence.
  - destruct (cmp k k0) eqn:E; simpl.
    + apply cmp_eq in E. subst k0.
      destruct (cmp k' k) eqn:E'; try done. apply cmp_eq in E'. congruence.
    + destruct (cmp k' k) eqn:E'.
      * apply cmp_eq in E'. congruence.
      * by rewrite (cmp_trans _ _ _ E' E).
      * done.
    + destruct (cmp k' k0); try done.
Qed.

Lemma om_above_find_below (lo k : K) (m : list (K * V)) :
  om_above cmp lo m = true ->
  cmp k lo = Lt \/ cmp k lo = Eq ->
  om_find cmp k m = None.
Proof.
  destruct m as [| [k0 v0] m]; [done |]. simpl.
  intros Hab Hk. apply andb_true_iff in Hab as [Hlo _].
  destruct (cmp lo k0) eqn:E; try done.
  destruct Hk as [Hk | Hk].
  - by rewrite (cmp_trans _ _ _ Hk E).
  - apply cmp_eq in Hk. subst k. by rewrite E.
Qed.

Lemma om_above_weaken (lo lo' : K) (m : list (K * V)) :
  cmp lo' lo = Lt -> om_above cmp lo m = true -> om_above cmp lo' m = true.
Proof.
  destruct m as [| [k0 v0] m]; [done |]. simpl. intros Hlt Hab.
  apply andb_true_iff in Hab as [Hlo Hrest]. rewrite Hrest.
  destruct (cmp lo k0) eqn:E; try done. by rewrite (cmp_trans _ _ _ Hlt E).
Qed.

Lemma om_find_erase_same (k : K) (m : list (K * V)) :
  om_sorted cmp m = true -> om_find cmp k (om_erase cmp k m) = None.
Proof.
  induction m as [| [k0 v0] m IH]; [done |]. simpl. intros Hs.
  destruct (cmp k k0) eqn:E; simpl.
  - apply (om_above_find_below k0); [done |]. by right.
  - by rewrite E.
  - rewrite E. apply IH. destruct m as [| [k1 v1] m]; [done |].
    simpl in Hs. by apply andb_true_iff in Hs as [_ ?].
Qed.

Lemma om_find_erase_other (k k' : K) (m : list (K * V)) :
  om_sorted cmp m = true ->
  k <> k' -> om_find cmp k' (om_erase cmp k m) = om_find cmp k' m.
Proof.
  intros Hs Hne. induction m as [| [k0 v0] m IH]; [done |]. simpl.
  assert (Hs' : om_sorted cmp m = true).
  { destruct m as [| [k1 v1] m]; [done |].
    simpl in Hs. by apply andb_true_iff in Hs as [_ ?]. }
  destruct (cmp k k0) eqn:E; simpl.
  - apply cmp_eq in E. subst k0.
    destruct (cmp k' k) eqn:E'.
    + apply cmp_eq in E'. congruence.
    + apply (om_above_find_below k); [done |]. by left.
    + done.
  - done.
  - destruct (cmp k' k0); try done. by apply IH.
Qed.

Lemma om_above_insert (lo k : K) (v : V) (m : list (K * V)) :
  cmp lo k = Lt -> om_above cmp lo m = true ->
  om_above cmp lo (om_insert cmp k v m) = true.
Proof.
  revert lo. induction m as [| [k0 v0] m IH]; intros lo Hlo; simpl.
  - by rewrite Hlo.
  - intros Hab. destruct (cmp k k0) eqn:E; simpl.
    + done.
    + rewrite Hlo, E. simpl. by apply andb_true_iff in Hab as [_ ?].
    + apply andb_true_iff in Hab as [Hl Hrest]. rewrite Hl. simpl.
      apply IH; [| done]. by rewrite (cmp_antisym k k0), E.
Qed.

Lemma om_sorted_insert (k : K) (v : V) (m : list (K * V)) :
  om_sorted cmp m = true -> om_sorted cmp (om_insert cmp k v m) = true.
Proof.
  destruct m as [| [k0 v0] m]; [done |]. simpl. intros Hs.
  destruct (cmp k k0) eqn:E; simpl.
  - done.
  - by rewrite E.
  - apply om_above_insert; [| done]. by rewrite (cmp_antisym k k0), E.
Qed.

Lemma om_above_set (lo k : K) (v : V) (m : list (K * V)) :
  cmp lo k = Lt -> om_above cmp lo m = true ->
  om_above cmp lo (om_set cmp k v m) = true.
Proof.
  revert lo. induction m as [| [k0 v0] m IH]; intros lo Hlo; simpl.
  - by rewrite Hlo.
  - intros Hab. destruct (cmp k k0) eqn:E; simpl.
    + done.
    + rewrite Hlo, E. simpl. by apply andb_true_iff in Hab as [_ ?].
    + apply andb_true_iff in Hab as [Hl Hrest]. rewrite Hl. simpl.
      apply IH; [| done]. by rewrite (cmp_antisym k k0), E.
Qed.

Lemma om_sorted_set (k : K) (v : V) (m : list (K * V)) :
  om_sorted cmp m = true -> om_sorted cmp (om_set cmp k v m) = true.
Proof.
  destruct m as [| [k0 v0] m]; [done |]. simpl. intros Hs.
  destruct (cmp k k0) eqn:E; simpl.
  - done.
  - by rewrite E.
  - apply om_above_set; [| done]. by rewrite (cmp_antisym k k0), E.
Qed.

Lemma om_above_erase (lo k : K) (m : list (K * V)) :
  om_above cmp lo m = true -> om_above cmp lo (om_erase cmp k m) = true.
Proof.
  revert lo. induction m as [| [k0 v0] m IH]; intros lo; simpl; [done |].
  intros Hab. apply andb_true_iff in Hab as [Hl Hrest].
  destruct (cmp k k0) eqn:E; simpl.
  - destruct (cmp lo k0) eqn:E'; try done. by apply (om_above_weaken k0).
  - by rewrite Hl.
  - rewrite Hl. simpl. by apply IH.
Qed.

Lemma om_sorted_erase (k : K) (m : list (K * V)) :
  om_sorted cmp m = true -> om_sorted cmp (om_erase cmp k m) = true.
Proof.
  destruct m as [| [k0 v0] m]; [done |]. simpl. intros Hs.
  destruct (cmp k k0) eqn:E; simpl; try done.
  - destruct m as [| [k1 v1] m]; [done |].
    simpl in Hs. by apply andb_true_iff in Hs as [_ ?].
  - by apply om_above_erase.
Qed.

Lemma om_erase_elem (k : K) (m : list (K * V)) (x : K * V) :
  x ∈ om_erase cmp k m -> x ∈ m.
Proof.
  induction m as [| [k0 v0] m IH]; simpl; [done |].
  destruct (cmp k k0).
  - intros Hx. apply elem_of_cons. by right.
  - done.
  - intros Hx. apply elem_of_cons in Hx as [-> | Hx]; apply elem_of_cons; [by left | right; by apply IH].
Qed.

Lemma om_insert_elem (k : K) (v : V) (m : list (K * V)) (x : K * V) :
  x ∈ om_insert cmp k v m -> x = (k, v) \/ x ∈ m.
Proof.
  induction m as [| [k0 v0] m IH]; simpl.
  - intros Hx. apply list_elem_of_singleton in Hx. by left.
  - destruct (cmp k k0).
    + by right.
    + intros Hx. apply elem_of_cons in Hx as [-> | Hx]; [by left | by right].
    + intros Hx. apply elem_of_cons in Hx as [-> | Hx].
      * right. apply elem_of_cons. by left.
      * destruct (IH Hx) as [-> | ?]; [by left |]. right. apply elem_of_cons. by right.
Qed.

Lemma om_set_elem (k : K) (v : V) (m : list (K * V)) (x : K * V) :
  x ∈ om_set cmp k v m -> snd x = v \/ x ∈ m.
Proof.
  induction m as [| [k0 v0] m IH]; simpl.
  - intros Hx. apply list_elem_of_singleton in Hx. subst x. by left.
  - destruct (cmp k k0) eqn:E.
    + intros Hx. apply elem_of_cons in Hx as [-> | Hx]; [by left |].
      right. apply elem_of_cons. by right.
    + intros Hx. apply elem_of_cons in Hx as [-> | Hx]; [by left | by right].
    + intros Hx. apply elem_of_cons in Hx as [-> | Hx].
      * right. apply elem_of_cons. by left.
      * destruct (IH Hx) as [? | ?]; [by left |]. right. apply elem_of_cons. by right.
Qed.
End OrderedMapOrder.

Lemma N_compare_trans (a b c : N) :
  N.compare a b = Lt -> N.compare b c = Lt -> N.compare a c = Lt.
Proof. rewrite !N.compare_lt_iff. lia. Qed.

Lemma mid_compare_trans (a b c : MessageId) :
  mid_compare a b = Lt -> mid_compare b c = Lt -> mid_compare a c = Lt.
Proof.
  intros H1 H2.
  assert (H : mid_lt a c).
  { apply (mid_lt_trans a b c); unfold mid_lt, mid_ltb; by rewrite ?H1, ?H2. }
  unfold mid_lt, mid_ltb in H. by destruct (mid_compare a c).
Qed.

(** The side conditions of the lemmas above, for the two orders in use. *)
Ltac om_order :=
  first [ exact N.compare_refl | exact N.compare_eq | exact N.compare_antisym
        | exact N_compare_trans | exact mid_compare_refl | exact mid_compare_eq
        | exact mid_compare_antisym | exact mid_compare_trans | done ].

(** ** Slots that are rewritten while they run *)

(** X19. Running a slot that holds [f] journals the call, raises the
    liveness flag if [f] destroyed the hub, and leaves in the slot [f]
    itself, with [was_reset] down, unless [f] registered a function for
    this very slot while it ran: then the slot holds the function of its
    last such registration, the empty one included, with [was_reset] up.
    An empty slot is not run and nothing changes.  The four slots of the
    hub all behave so. *)
Theorem safe_exec_keeps_or_replaces {F : Type} (slot : Slot F)
    (call : F -> Reaction) (ev : AppEvent) (h : hub) (f : F) :
  slot_laws slot ->
  func (slot_get slot (_callbacks h)) = Some f ->
  slot_get slot (_callbacks (safe_exec slot call ev h))
  = match registered_last slot (registers (call f)) with
    | Some g => {| func := g; was_reset := true |}
    | None => {| func := Some f; was_reset := false |}
    end /\
  journal (safe_exec slot call ev h) = journal h ++ [ACall ev] /\
  _was_destroyed (safe_exec slot call ev h) = _was_destroyed h || destroys (call f) /\
  (forall h0, func (slot_get slot (_callbacks h0)) = None ->
              safe_exec slot call ev h0 = h0) /\
  slot_laws insert_slot /\ slot_laws remove_slot /\
  slot_laws receive_slot /\ slot_laws receive_unreliable_slot.
Proof.
  intros Hlaws Hf. split_and!.
  - by apply safe_exec_slot.
  - by rewrite safe_exec_journal, Hf.
  - by rewrite safe_exec_destroyed, Hf.
  - intros h0 Hnone. unfold safe_exec. by rewrite Hnone.
  - apply insert_slot_laws.
  - apply remove_slot_laws.
  - apply receive_slot_laws.
  - apply receive_unreliable_slot_laws.
Qed.

(** ** Small pieces of hub.cpp *)

(** X1. [Diff]: taking [removed] out of the old set and putting [added] in
    gives the new set; the two are disjoint, [removed] comes from the old
    set and [added] is new to it, and both are empty exactly when the two
    sets are equal. *)
Theorem Diff_leads_from_old_to_new (from to : gset PeerId) :
  (from ∖ Diff.removed (Diff.make from to)) ∪ Diff.added (Diff.make from to) = to /\
  Diff.removed (Diff.make from to) ## Diff.added (Diff.make from to) /\
  Diff.removed (Diff.make from to) ⊆ from /\
  Diff.added (Diff.make from to) ## from /\
  (Diff.removed (Diff.make from to) = ∅ /\ Diff.added (Diff.make from to) = ∅
   <-> from = to).
Proof.
  unfold Diff.make, Diff.set_difference. simpl.
  split; [| split; [| split; [| split]]].
  - apply set_eq. intros x.
    destruct (decide (x ∈ from)), (decide (x ∈ to)); set_solver.
  - set_solver.
  - set_solver.
  - set_solver.
  - split.
    + intros [Hr Ha]. apply set_eq. intros x.
      destruct (decide (x ∈ from)), (decide (x ∈ to)); set_solver.
    + intros ->. set_solver.
Qed.

Lemma find_node_elem (id : PeerId) (n : Node) (h : hub) :
  find_node id h = Some n -> n ∈ map snd (_nodes h).
Proof.
  unfold find_node. induction (_nodes h) as [| [k v] m IH]; simpl; [done |].
  destruct (N.compare id k).
  - intros [= ->]. apply elem_of_cons. by left.
  - done.
  - intros Hf. apply elem_of_cons. right. by apply IH.
Qed.

Lemma hub_neighbors_spec (h : hub) (p : PeerId) :
  p ∈ hub_neighbors h <->
  p = _id h \/
  exists n, n ∈ map snd (_nodes h) /\ node_id n = p /\ is_connected n = true.
Proof.
  unfold hub_neighbors. rewrite elem_of_union, elem_of_singleton.
  rewrite elem_of_list_to_set, list_elem_of_In, in_map_iff.
  split.
  - intros [-> | (n & <- & Hin)]; [by left |].
    apply filter_In in Hin as [Hin Hf]. apply andb_true_iff in Hf as [_ Hc].
    right. exists n. by rewrite list_elem_of_In.
  - intros [-> | (n & Hin & <- & Hc)]; [by left |].
    destruct (N.eqb_spec (node_id n) (_id h)) as [-> | Hne]; [by left |].
    right. exists n. split; [done |]. apply filter_In.
    split; [by apply list_elem_of_In |].
    rewrite Hc. apply N.eqb_neq in Hne. by rewrite Hne.
Qed.

(** X2. [hub::neighbors] holds the hub's own id and, besides it, exactly
    the ids of the nodes of the peer table that are connected. *)
Theorem neighbors_are_self_and_connected (h : hub) (p : PeerId) :
  p ∈ hub_neighbors h <->
  p = _id h \/
  exists n, n ∈ map snd (_nodes h) /\ node_id n = p /\ is_connected n = true.
Proof. apply hub_neighbors_spec. Qed.

(** X3. A message whose originator is in its visited set, as in every
    message this hub constructs, is never sent back to its originator by
    [broadcast] (the assertion in its loop holds); [broadcast] hands the
    same message to each target and changes no member of the hub. *)
Theorem broadcast_spares_the_originator (msg : Message) (h : hub) :
  original_poster (header msg) ∈ visited (header msg) ->
  Forall (fun p => p <> original_poster (header msg))
         (broadcast_targets (header msg) h) /\
  journal (broadcast msg h)
    = journal h ++ map (fun p => ASend p msg) (broadcast_targets (header msg) h) /\
  _nodes (broadcast msg h) = _nodes h /\
  _log (broadcast msg h) = _log h /\
  _seen (broadcast msg h) = _seen h /\
  _time_stamp (broadcast msg h) = _time_stamp h /\
  (forall t h0, original_poster (fresh_header t h0) ∈ visited (fresh_header t h0)).
Proof.
  intros Hop.
  destruct (broadcast_frame msg h) as (_ & Ht & Hn & Hl & _ & Hs & _).
  split; [| split; [apply broadcast_journal |]].
  - apply Forall_forall. intros p Hp.
    apply broadcast_targets_spec in Hp as (_ & Hv & _). intros ->. done.
  - repeat split; try done. intros t h0. simpl. set_solver.
Qed.

Lemma acks_fold_nodes (l : list (PeerId * AckData)) (x : PeerId) :
  x ∈ g_nodes
        (foldr (fun kv g =>
                  {| g_nodes := {[ fst kv ]} ∪ g_nodes g;
                     g_edges := set_map (fun peer => (fst kv, peer)) (neighbors (snd kv))
                                  ∪ g_edges g |})
               {| g_nodes := ∅; g_edges := ∅ |} l)
  <-> exists ad, (x, ad) ∈ l.
Proof.
  induction l as [| [a ad] l IH]; simpl.
  - split; [set_solver |]. intros [? H]. by apply elem_of_nil in H.
  - rewrite elem_of_union, elem_of_singleton, IH. split.
    + intros [-> | (ad' & H)].
      * exists ad. apply elem_of_cons. by left.
      * exists ad'. apply elem_of_cons. by right.
    + intros (ad' & H). apply elem_of_cons in H as [[= -> ->] | H]; [by left |].
      right. by exists ad'.
Qed.

Lemma acks_fold_edges (l : list (PeerId * AckData)) (x y : PeerId) :
  (x, y) ∈ g_edges
        (foldr (fun kv g =>
                  {| g_nodes := {[ fst kv ]} ∪ g_nodes g;
                     g_edges := set_map (fun peer => (fst kv, peer)) (neighbors (snd kv))
                                  ∪ g_edges g |})
               {| g_nodes := ∅; g_edges := ∅ |} l)
  <-> exists ad, (x, ad) ∈ l /\ y ∈ neighbors ad.
Proof.
  induction l as [| [a ad] l IH]; simpl.
  - split; [set_solver |]. intros (? & H & _). by apply elem_of_nil in H.
  - rewrite elem_of_union, elem_of_map, IH. split.
    + intros [(peer & [= -> ->] & Hp) | (ad' & H & Hy)].
      * exists ad. split; [| done]. apply elem_of_cons. by left.
      * exists ad'. split; [| done]. apply elem_of_cons. by right.
    + intros (ad' & H & Hy). apply elem_of_cons in H as [[= -> ->] | H].
      * left. by exists y.
      * right. by exists ad'.
Qed.

(** X4. [acks_to_graph]: the nodes of the graph are exactly the ackers,
    and there is an edge from [a] to [b] exactly when [a] acked and named
    [b] among its neighbours; a neighbour that did not ack is the end of an
    edge without being a node. *)
Theorem acks_to_graph_nodes_and_edges (a : gmap PeerId AckData) :
  g_nodes (acks_to_graph a) = dom a /\
  (forall x y, (x, y) ∈ g_edges (acks_to_graph a) <->
               exists ad, a !! x = Some ad /\ y ∈ neighbors ad).
Proof.
  unfold acks_to_graph. split.
  - apply set_eq. intros x. rewrite acks_fold_nodes, elem_of_dom.
    split; intros [ad H]; exists ad; by apply elem_of_map_to_list.
  - intros x y. rewrite acks_fold_edges.
    split; intros (ad & H & Hy); exists ad; (split; [| done]);
      by apply elem_of_map_to_list.
Qed.

Lemma nodes_in_order_insert (id : PeerId) (sock : option Socket) (h : hub) :
  nodes_in_order h = true -> nodes_in_order (insert_node id sock h) = true.
Proof.
  unfold nodes_in_order, insert_node. simpl. intros H.
  apply andb_true_iff in H as [Hs Hk]. apply andb_true_iff. split.
  - apply om_sorted_insert; om_order.
  - apply forallb_forall. intros x Hx. apply list_elem_of_In in Hx.
    apply om_insert_elem in Hx as [-> | Hx]; [apply N.eqb_refl |].
    rewrite forallb_forall in Hk. apply Hk. by apply list_elem_of_In.
Qed.

(** X5. [insert_node] on an id the table already holds keeps the record
    that is there, the socket handed in being dropped; on a new id it adds
    a record for that id with that socket.  No other id's record changes,
    and the table stays in order with each node under its own id. *)
Theorem insert_node_keeps_what_is_there (id : PeerId) (sock : option Socket) (h : hub) :
  find_node id (insert_node id sock h)
    = Some (default (new_node id sock) (find_node id h)) /\
  (forall id', id' <> id -> find_node id' (insert_node id sock h) = find_node id' h) /\
  (nodes_in_order h = true -> nodes_in_order (insert_node id sock h) = true).
Proof.
  split; [| split].
  - unfold find_node, insert_node. simpl.
    apply om_find_insert_same, N.compare_refl.
  - intros id' Hne. unfold find_node, insert_node. simpl.
    apply om_find_insert_other; om_order.
  - apply nodes_in_order_insert.
Qed.

(** ** More on the commit pass *)

Lemma forget_nodes_frame (ids : list PeerId) (h : hub) :
  let h' := foldl (fun acc id => forget_node id acc) h ids in
  _id h' = _id h /\ _time_stamp h' = _time_stamp h /\
  _broadcast_routing_table h' = _broadcast_routing_table h.
Proof.
  revert h. induction ids as [| id ids IH]; intros h; simpl; [done |].
  destruct (IH (forget_node id h)) as (-> & -> & ->). done.
Qed.

Lemma install_config_frame (entry : LogEntry) (h : hub) :
  _id (install_config entry h) = _id h /\
  _time_stamp (install_config entry h) = _time_stamp h /\
  _broadcast_routing_table (install_config entry h) = acks_to_graph (acks entry).
Proof.
  unfold install_config.
  match goal with
  | |- context [foldl _ ?h0 ?ids] =>
      destruct (forget_nodes_frame ids h0) as (-> & -> & ->)
  end.
  done.
Qed.

(** What [commit] leaves alone, and what it journals. *)
Lemma commit_frame (entry : LogEntry) (h : hub) :
  _id (commit entry h) = _id h /\
  _time_stamp (commit entry h) = _time_stamp h.
Proof.
  unfold commit. destruct (message entry) as [m | m | m]; [| done |].
  - unfold on_commit_fuse. destruct (negb (acked_by_quorum entry)); [done |].
    destruct (install_config_frame entry h) as (Hi & Ht & _).
    repeat match goal with
           | |- context [if ?b then _ else _] => destruct b
           end; unfold on_insert, on_remove;
      repeat match goal with
             | |- context [safe_exec ?s ?c ?e ?x] =>
                 destruct (safe_exec_frame s c e x) as (-> & -> & _)
             end; done.
  - unfold commit_user_data. destruct (find_node _ h); [| done].
    unfold on_receive.
    match goal with
    | |- context [safe_exec ?s ?c ?e ?x] =>
        destruct (safe_exec_frame s c e x) as (-> & -> & _)
    end.
    done.
Qed.

Lemma commit_journal (kv : MessageId * LogEntry) (h : hub) :
  exists calls,
    journal (commit (snd kv) h) = journal h ++ calls /\
    forallb is_call calls = true /\
    deliveries calls `sublist_of` option_list (payload kv).
Proof.
  unfold commit, payload. destruct (message (snd kv)) as [m | m | m].
  - unfold on_commit_fuse. destruct (negb (acked_by_quorum (snd kv))).
    { exists []. by rewrite app_nil_r. }
    destruct (install_config_fields (snd kv) h) as (_ & _ & Hj & _).
    set (h3 := install_config (snd kv) h) in *.
    set (added := quorum (snd kv) ∖ snd (current_config h)).
    set (removed := snd (current_config h) ∖ quorum (snd kv)).
    unfold on_insert, on_remove.
    destruct (nonempty added); simpl.
    + match goal with
      | |- context [if _was_destroyed ?x then _ else _] => destruct (_was_destroyed x)
      end.
      * rewrite safe_exec_journal, Hj. eexists. split; [done |].
        destruct (func _); done.
      * destruct (nonempty removed).
        -- rewrite !safe_exec_journal, Hj, <- app_assoc. eexists. split; [done |].
           destruct (func (slot_get insert_slot _));
             destruct (func (slot_get remove_slot _)); done.
        -- rewrite safe_exec_journal, Hj. eexists. split; [done |].
           destruct (func _); done.
    + destruct (nonempty removed).
      * rewrite safe_exec_journal, Hj. eexists. split; [done |].
        destruct (func _); done.
      * exists []. by rewrite app_nil_r, Hj.
  - exists []. by rewrite app_nil_r.
  - unfold commit_user_data. destruct (find_node _ h).
    + unfold on_receive. rewrite safe_exec_journal. eexists. split; [done |].
      destruct (func _); simpl; [done |].
      split; [done |]. apply sublist_nil_l.
    + exists []. rewrite app_nil_r. split; [done |]. split; [done |].
      apply sublist_nil_l.
Qed.

Lemma walk_frame (l : list (MessageId * LogEntry))
    (F : option (MessageId * LogEntry)) (live : gset PeerId) (h : hub) :
  entries (_log h) = l ->
  _id (walk l F live h) = _id h /\
  _time_stamp (walk l F live h) = _time_stamp h /\
  placeholders (_log (walk l F live h)) = placeholders (_log h) /\
  exists pre calls,
    l = pre ++ entries (_log (walk l F live h)) /\
    journal (walk l F live h) = journal h ++ calls /\
    forallb is_call calls = true /\
    deliveries calls `sublist_of` omap payload pre.
Proof.
  revert F h. induction l as [| kv l IH]; intros F h Hlog.
  - simpl. split_and!; try done. exists [], []. rewrite Hlog. simpl.
    rewrite app_nil_r. split_and!; try done.
  - assert (Herase : om_erase mid_compare (fst kv) (entries (_log h)) = l).
    { rewrite Hlog. destruct kv as [k v].
      apply (om_erase_head mid_compare mid_compare_refl). }
    assert (Hcommit :
      _id (commit_entry kv h) = _id h /\
      _time_stamp (commit_entry kv h) = _time_stamp h /\
      placeholders (_log (commit_entry kv h)) = placeholders (_log h) /\
      entries (_log (commit_entry kv h)) = l /\
      exists calls,
        journal (commit_entry kv h) = journal h ++ calls /\
        forallb is_call calls = true /\
        deliveries calls `sublist_of` option_list (payload kv)).
    { destruct (commit_entry_log kv h) as (He & _). rewrite He, Herase.
      unfold commit_entry.
      match goal with
      | |- context [commit (snd kv) ?x] =>
          destruct (commit_frame (snd kv) x) as (-> & ->);
          destruct (commit_journal kv x) as (calls & Hj & Hc & Hd);
          rewrite (commit_log (snd kv) x)
      end.
      simpl. split_and!; try done.
      - by destruct (entry_is_fuse (snd kv)).
      - exists calls. done. }
    pose proof (walk_step_cases F live h kv) as Hc. simpl.
    destruct (walk_step F live h kv) as [h' F' | h' | h'].
    + assert (Hh' :
        _id h' = _id h /\ _time_stamp h' = _time_stamp h /\
        placeholders (_log h') = placeholders (_log h) /\
        entries (_log h') = l /\
        exists calls,
          journal h' = journal h ++ calls /\
          forallb is_call calls = true /\
          deliveries calls `sublist_of` option_list (payload kv)).
      { destruct Hc as [(-> & _) | (-> & _)]; [| done].
        split_and!; try done. exists []. rewrite app_nil_r.
        split; [done |]. split; [done |]. apply sublist_nil_l. }
      destruct Hh' as (Hi & Ht & Hp & Hl & calls & Hj & Hcalls & Hd).
      destruct (IH F' h' Hl) as (-> & -> & -> & pre & calls' & Hpre & Hj' & Hc' & Hd').
      split_and!; try done.
      exists (kv :: pre), (calls ++ calls'). split; [by rewrite Hpre at 1 |].
      split; [by rewrite Hj', Hj, <- app_assoc |].
      split; [by rewrite forallb_app, Hcalls, Hc' |].
      unfold deliveries in *. rewrite omap_app.
      replace (omap payload (kv :: pre))
        with (option_list (payload kv) ++ omap payload pre)
        by (simpl; by destruct (payload kv)).
      by apply sublist_app.
    + subst h'. split_and!; try done. exists [], []. rewrite Hlog, app_nil_r.
      split; [done |]. split; [done |]. split; [done |]. apply sublist_nil_l.
    + destruct Hc as [-> _].
      destruct Hcommit as (Hi & Ht & Hp & Hl & calls & Hj & Hcalls & Hd).
      split_and!; try done.
      exists [kv], calls. rewrite Hl. split; [done |]. split; [done |].
      split; [done |]. simpl. by destruct (payload kv).
Qed.

(** A pass that takes nothing off the log does nothing at all. *)
Lemma walk_idle (l : list (MessageId * LogEntry))
    (F : option (MessageId * LogEntry)) (live : gset PeerId) (h : hub) :
  entries (_log h) = l ->
  entries (_log (walk l F live h)) = l ->
  walk l F live h = h.
Proof.
  destruct l as [| kv l]; [done |]. intros Hlog. simpl.
  assert (Herase : om_erase mid_compare (fst kv) (entries (_log h)) = l).
  { rewrite Hlog. destruct kv as [k v].
    apply (om_erase_head mid_compare mid_compare_refl). }
  pose proof (walk_step_cases F live h kv) as Hc.
  destruct (walk_step F live h kv) as [h' F' | h' | h'].
  - assert (Hl' : entries (_log h') = l).
    { destruct Hc as [(-> & _) | (-> & _)].
      - by rewrite (proj1 (drop_entry_log kv h)).
      - by rewrite (proj1 (commit_entry_log kv h)). }
    destruct (walk_frame l F' live h' Hl') as (_ & _ & _ & pre & calls & Hpre & _).
    intros Hsame. rewrite Hsame in Hpre.
    apply (f_equal length) in Hpre. rewrite length_app in Hpre. simpl in Hpre. lia.
  - by subst h'.
  - destruct Hc as [-> _]. rewrite (proj1 (commit_entry_log kv h)), Herase.
    intros Hsame. apply (f_equal length) in Hsame. simpl in Hsame. lia.
Qed.

(** X6. A commit pass sends nothing: whatever it adds to the journal is
    the run of a callback.  It changes neither the hub's id, nor its
    clock, nor the acks parked for messages that have not arrived, and of
    the peer table, the configurations, the seen filter and the routing
    table it changes nothing unless it takes an entry off the log. *)
Theorem commit_pass_only_runs_callbacks (h : hub) :
  _id (commit_what_was_seen_by_everyone h) = _id h /\
  _time_stamp (commit_what_was_seen_by_everyone h) = _time_stamp h /\
  placeholders (_log (commit_what_was_seen_by_everyone h)) = placeholders (_log h) /\
  (exists calls,
     journal (commit_what_was_seen_by_everyone h) = journal h ++ calls /\
     forallb is_call calls = true) /\
  (entries (_log (commit_what_was_seen_by_everyone h)) = entries (_log h) ->
   commit_what_was_seen_by_everyone h = h).
Proof.
  unfold commit_what_was_seen_by_everyone.
  destruct (walk_frame (entries (_log h)) (last_committable_fuse h) (live_nodes_of h)
              h eq_refl) as (Hi & Ht & Hp & pre & calls & _ & Hj & Hcalls & _).
  split_and!; try done; [by exists calls |].
  apply walk_idle. done.
Qed.

Lemma commit_pass_delivers_in_log_order_aux (h : hub) :
  exists pre calls,
    entries (_log h) = pre ++ entries (_log (commit_what_was_seen_by_everyone h)) /\
    journal (commit_what_was_seen_by_everyone h) = journal h ++ calls /\
    deliveries calls `sublist_of` omap payload pre.
Proof.
  unfold commit_what_was_seen_by_everyone.
  destruct (walk_frame (entries (_log h)) (last_committable_fuse h) (live_nodes_of h)
              h eq_refl) as (_ & _ & _ & pre & calls & Hpre & Hj & _ & Hd).
  by exists pre, calls.
Qed.

(** X7. A commit pass takes entries off the head of the log only, and the
    payloads it hands to [on_receive] are payloads of the entries it took
    off, in the order of the log, each at most once. *)
Theorem commit_pass_delivers_in_log_order (h : hub) :
  exists pre calls,
    entries (_log h) = pre ++ entries (_log (commit_what_was_seen_by_everyone h)) /\
    journal (commit_what_was_seen_by_everyone h) = journal h ++ calls /\
    deliveries calls `sublist_of` omap payload pre.
Proof. apply commit_pass_delivers_in_log_order_aux. Qed.

Lemma walk_stops_at_blocked (pre : list (MessageId * LogEntry))
    (e : MessageId * LogEntry) (post : list (MessageId * LogEntry))
    (F : option (MessageId * LogEntry)) (live : gset PeerId) (h : hub) :
  entries (_log h) = pre ++ e :: post ->
  (forall F', first_block F' live (snd e) = Stop) ->
  exists pre',
    pre' `suffix_of` pre /\
    entries (_log (walk (pre ++ e :: post) F live h)) = pre' ++ e :: post.
Proof.
  intros Hlog Hstop. revert F h Hlog.
  induction pre as [| kv pre IH]; intros F h Hlog.
  - exists []. split; [done |]. simpl. unfold walk_step. by rewrite Hstop.
  - simpl. pose proof (walk_step_cases F live h kv) as Hc.
    assert (Herase : om_erase mid_compare (fst kv) (entries (_log h)) = pre ++ e :: post).
    { rewrite Hlog. destruct kv as [k v]. simpl.
      apply (om_erase_head mid_compare mid_compare_refl). }
    destruct (walk_step F live h kv) as [h' F' | h' | h'].
    + assert (Hlog' : entries (_log h') = pre ++ e :: post).
      { destruct Hc as [(-> & _) | (-> & _)].
        - by rewrite (proj1 (drop_entry_log kv h)).
        - by rewrite (proj1 (commit_entry_log kv h)). }
      destruct (IH F' h' Hlog') as (pre' & Hsuf & Heq).
      exists pre'. split; [by apply suffix_cons_r | done].
    + subst h'. exists (kv :: pre). by rewrite Hlog.
    + destruct Hc as [-> _]. exists pre. split; [by apply suffix_cons_r |].
      by rewrite (proj1 (commit_entry_log kv h)).
Qed.

(** X8. An entry that is not a fuse and is not acked by the live nodes
    holds back everything behind it: after the pass it is still in the
    log with all that followed it, and whatever was delivered came from
    entries ahead of it. *)
Theorem commit_pass_waits_for_acks (h : hub) (pre : list (MessageId * LogEntry))
    (e : MessageId * LogEntry) (post : list (MessageId * LogEntry)) :
  entries (_log h) = pre ++ e :: post ->
  entry_is_fuse (snd e) = false ->
  acked_by_quorum_of (live_nodes_of h) (snd e) = false ->
  exists taken left calls,
    pre = taken ++ left /\
    entries (_log (commit_what_was_seen_by_everyone h)) = left ++ e :: post /\
    journal (commit_what_was_seen_by_everyone h) = journal h ++ calls /\
    deliveries calls `sublist_of` omap payload taken.
Proof.
  intros Hlog Hfuse Hack.
  destruct (commit_pass_delivers_in_log_order_aux h) as (taken & calls & Hpre & Hj & Hd).
  destruct (walk_stops_at_blocked pre e post (last_committable_fuse h) (live_nodes_of h) h
              Hlog) as (left & _ & Hleft).
  { intros F'. unfold first_block. by rewrite Hfuse, Hack. }
  unfold commit_what_was_seen_by_everyone in *. rewrite Hlog in Hpre, Hj |- *.
  rewrite Hleft in Hpre |- *.
  exists taken, left, calls. split_and!; try done.
  rewrite app_assoc in Hpre. by apply app_inv_tail in Hpre.
Qed.

(** ** Committing a fuse *)

Lemma nodes_in_order_sorted (h : hub) :
  nodes_in_order h = true -> om_sorted N.compare (_nodes h) = true.
Proof. unfold nodes_in_order. intros H. by apply andb_true_iff in H as [? _]. Qed.

Lemma nodes_in_order_forget (id : PeerId) (h : hub) :
  nodes_in_order h = true -> nodes_in_order (forget_node id h) = true.
Proof.
  unfold nodes_in_order, forget_node. simpl. intros H.
  apply andb_true_iff in H as [Hs Hk]. apply andb_true_iff. split.
  - apply om_sorted_erase; om_order.
  - apply forallb_forall. intros x Hx. apply list_elem_of_In in Hx.
    apply om_erase_elem in Hx.
    rewrite forallb_forall in Hk. apply Hk. by apply list_elem_of_In.
Qed.

Lemma forget_nodes_find (ids : list PeerId) (h : hub) (p : PeerId) :
  nodes_in_order h = true ->
  let h' := foldl (fun acc id => forget_node id acc) h ids in
  nodes_in_order h' = true /\
  find_node p h' = if bool_decide (p ∈ ids) then None else find_node p h.
Proof.
  revert h. induction ids as [| id ids IH]; intros h Hok; cbn [foldl].
  - split; [done |]. rewrite bool_decide_eq_false_2; [done |]. apply not_elem_of_nil.
  - destruct (IH (forget_node id h) (nodes_in_order_forget id h Hok)) as [Hok' Hfind].
    split; [done |]. rewrite Hfind.
    pose proof (nodes_in_order_sorted h Hok) as Hs.
    destruct (decide (p = id)) as [-> | Hne].
    + rewrite (bool_decide_eq_true_2 (id ∈ id :: ids)); [| apply elem_of_cons; by left].
      case_bool_decide; [done |].
      unfold find_node, forget_node. simpl. apply om_find_erase_same; om_order.
    + assert (Hother : find_node p (forget_node id h) = find_node p h).
      { unfold find_node, forget_node. simpl.
        apply om_find_erase_other; try om_order. }
      rewrite Hother.
      destruct (decide (p ∈ ids)) as [Hin | Hnin].
      * rewrite !bool_decide_eq_true_2; [done | | done]. apply elem_of_cons. by right.
      * rewrite !bool_decide_eq_false_2; [done | | done].
        intros Hc. apply elem_of_cons in Hc as [? | ?]; done.
Qed.

Lemma install_config_table (entry : LogEntry) (h : hub) (p : PeerId) :
  nodes_in_order h = true ->
  nodes_in_order (install_config entry h) = true /\
  find_node p (install_config entry h)
    = if bool_decide (p ∈ snd (current_config h) ∖ quorum entry) then None
      else find_node p h.
Proof.
  intros Hok. unfold install_config.
  match goal with
  | |- context [foldl _ ?h0 ?ids] =>
      destruct (forget_nodes_find ids h0 p Hok) as [Hok' Hfind]
  end.
  split; [done |]. rewrite Hfind.
  assert (Heq : bool_decide (p ∈ elements (snd (current_config h) ∖ quorum entry))
                = bool_decide (p ∈ snd (current_config h) ∖ quorum entry)).
  { apply bool_decide_ext. apply elem_of_elements. }
  change (current_config (with_routing (acks_to_graph (acks entry)) h))
    with (current_config h).
  rewrite Heq. done.
Qed.

Lemma last_cons_nonempty {A : Type} (x : A) (l : list A) (d : A) :
  l <> [] -> List.last (x :: l) d = List.last l d.
Proof. by destruct l. Qed.

Lemma om_insert_nonempty {K V : Type} (cmp : K -> K -> comparison) (k : K) (v : V)
    (m : list (K * V)) :
  om_insert cmp k v m <> [].
Proof. destruct m as [| [k0 v0] m]; simpl; [done |]. by destruct (cmp k k0). Qed.

Lemma om_above_last (lo : MessageId) (m : list (MessageId * gset PeerId))
    (d : MessageId * gset PeerId) :
  m <> [] -> om_above mid_compare lo m = true ->
  mid_compare lo (fst (List.last m d)) = Lt.
Proof.
  revert lo. induction m as [| [k v] m IH]; intros lo Hne; [done |].
  simpl. intros Hab. apply andb_true_iff in Hab as [Hlo Hrest].
  destruct (mid_compare lo k) eqn:E; try done.
  destruct m as [| x m]; [done |].
  apply (mid_compare_trans _ k); [done |]. by apply IH.
Qed.

Lemma om_insert_cons {K V : Type} (cmp : K -> K -> comparison) (k k0 : K) (v v0 : V)
    (m : list (K * V)) :
  om_insert cmp k v ((k0, v0) :: m)
  = match cmp k k0 with
    | Eq => (k0, v0) :: m
    | Lt => (k, v) :: (k0, v0) :: m
    | Gt => (k0, v0) :: om_insert cmp k v m
    end.
Proof. done. Qed.

Lemma last_insert_above (k : MessageId) (v : gset PeerId)
    (m : list (MessageId * gset PeerId)) (d : MessageId * gset PeerId) :
  om_sorted mid_compare m = true -> m <> [] ->
  mid_compare (fst (List.last m d)) k = Lt ->
  List.last (om_insert mid_compare k v m) d = (k, v).
Proof.
  induction m as [| [k0 v0] m IH]; [done |]. intros Hs _ Hlast.
  destruct m as [| x m].
  - simpl in *. rewrite (mid_compare_antisym k0 k), Hlast. done.
  - assert (Hk0 : mid_compare k0 k = Lt).
    { apply (mid_compare_trans _ (fst (List.last (x :: m) d))); [| done].
      by apply om_above_last. }
    rewrite om_insert_cons, (mid_compare_antisym k0 k), Hk0. cbn [CompOpp].
    rewrite last_cons_nonempty; [| apply om_insert_nonempty].
    apply IH; [| done | done].
    destruct x as [k1 v1]. simpl in Hs. by apply andb_true_iff in Hs as [_ ?].
Qed.

Lemma last_insert_below (k : MessageId) (v : gset PeerId)
    (m : list (MessageId * gset PeerId)) (d : MessageId * gset PeerId) :
  m <> [] ->
  mid_leb k (fst (List.last m d)) = true ->
  List.last (om_insert mid_compare k v m) d = List.last m d.
Proof.
  induction m as [| [k0 v0] m IH]; [done |]. intros _ Hle.
  destruct m as [| x m].
  - simpl in *. unfold mid_leb in Hle. by destruct (mid_compare k k0).
  - rewrite om_insert_cons. destruct (mid_compare k k0); [done | done |].
    rewrite (last_cons_nonempty (k0, v0) (om_insert mid_compare k v (x :: m)));
      [| apply om_insert_nonempty].
    rewrite (last_cons_nonempty (k0, v0) (x :: m)) in Hle |- *; [| done | done].
    by apply IH.
Qed.

Lemma on_commit_fuse_members (entry : LogEntry) (h : hub) :
  acked_by_quorum entry = true ->
  _nodes (on_commit_fuse entry h) = _nodes (install_config entry h) /\
  _configs (on_commit_fuse entry h)
    = om_insert mid_compare (entry_message_id entry) (quorum entry) (_configs h) /\
  _broadcast_routing_table (on_commit_fuse entry h) = acks_to_graph (acks entry) /\
  _id (on_commit_fuse entry h) = _id h.
Proof.
  intros Hq. unfold on_commit_fuse. rewrite Hq. simpl.
  destruct (install_config_frame entry h) as (Hi & _ & Hr).
  assert (Hc : _configs (install_config entry h)
               = om_insert mid_compare (entry_message_id entry) (quorum entry) (_configs h)).
  { unfold install_config.
    match goal with
    | |- context [foldl _ ?h0 ?ids] =>
        destruct (forget_nodes_fields ids h0) as (_ & _ & _ & _ & ->)
    end.
    done. }
  unfold on_insert, on_remove.
  repeat match goal with
         | |- context [if ?b then _ else _] => destruct b
         end;
    repeat match goal with
           | |- context [safe_exec ?s ?c ?e ?x] =>
               destruct (safe_exec_frame s c e x) as (-> & _ & -> & _ & -> & _ & ->)
           end; done.
Qed.

(** X9. Committing an acked fuse takes out of the peer table exactly the
    peers of the previous quorum that are not in the new one, the hub's
    own record included if the hub is one of them, and leaves every other
    record as it was; the routing table is recalculated from the acks. *)
Theorem on_commit_fuse_forgets_the_lost (entry : LogEntry) (h : hub) :
  acked_by_quorum entry = true ->
  nodes_in_order h = true ->
  (forall p,
     p ∈ Diff.removed (Diff.make (snd (current_config h)) (quorum entry)) ->
     find_node p (on_commit_fuse entry h) = None) /\
  (forall p,
     p ∉ Diff.removed (Diff.make (snd (current_config h)) (quorum entry)) ->
     find_node p (on_commit_fuse entry h) = find_node p h) /\
  nodes_in_order (on_commit_fuse entry h) = true /\
  _broadcast_routing_table (on_commit_fuse entry h) = acks_to_graph (acks entry).
Proof.
  intros Hq Hok.
  destruct (on_commit_fuse_members entry h Hq) as (Hn & _ & Hr & _).
  unfold find_node, nodes_in_order. rewrite Hn.
  fold (nodes_in_order (install_config entry h)).
  split_and!; try done.
  - intros p Hp. destruct (install_config_table entry h p Hok) as [_ Hf].
    unfold find_node in Hf. rewrite Hf. by rewrite bool_decide_eq_true_2.
  - intros p Hp. destruct (install_config_table entry h p Hok) as [_ Hf].
    unfold find_node in Hf. rewrite Hf. by rewrite bool_decide_eq_false_2.
  - by apply (install_config_table entry h 0 Hok).
Qed.

(** X10. Committing an acked fuse files its quorum under its id unless a
    configuration is filed there already.  The new configuration becomes
    the current one only if the fuse's id is above the id of the current
    one; a fuse at or below it leaves the current configuration as it
    was. *)
Theorem on_commit_fuse_current_config (entry : LogEntry) (h : hub) :
  acked_by_quorum entry = true ->
  om_sorted mid_compare (_configs h) = true ->
  _configs h <> [] ->
  om_find mid_compare (entry_message_id entry) (_configs (on_commit_fuse entry h))
    = Some (default (quorum entry)
              (om_find mid_compare (entry_message_id entry) (_configs h))) /\
  (mid_lt (fst (current_config h)) (entry_message_id entry) ->
   current_config (on_commit_fuse entry h) = (entry_message_id entry, quorum entry)) /\
  (mid_le (entry_message_id entry) (fst (current_config h)) ->
   current_config (on_commit_fuse entry h) = current_config h) /\
  om_sorted mid_compare (_configs (on_commit_fuse entry h)) = true.
Proof.
  intros Hq Hs Hne.
  destruct (on_commit_fuse_members entry h Hq) as (_ & Hc & _ & Hi).
  rewrite Hc. split_and!.
  - apply om_find_insert_same. om_order.
  - intros Hlt. unfold current_config. rewrite Hc, Hi.
    unfold mid_lt, mid_ltb in Hlt. unfold current_config in Hlt.
    apply last_insert_above; try done.
    by destruct (mid_compare _ (entry_message_id entry)).
  - intros Hle. unfold current_config. rewrite Hc, Hi.
    by apply last_insert_below.
  - apply om_sorted_insert; om_order.
Qed.

(** X11. Committing an acked fuse reports the change to the application
    in a fixed order: [on_insert] with the peers that joined, if any, then
    [on_remove] with the peers that left, if any; an empty set is never
    reported, and [on_remove] is skipped when [on_insert] destroyed the
    hub.  The function [on_remove] runs is the one in its slot once
    [on_insert] has returned: the one the function of [on_insert]
    registered last, if it registered any. *)
Theorem on_commit_fuse_reports_the_change (entry : LogEntry) (h : hub) :
  acked_by_quorum entry = true ->
  _was_destroyed h = false ->
  let d := Diff.make (snd (current_config h)) (quorum entry) in
  let ran :=
    if nonempty (Diff.added d) then func (_on_insert (_callbacks h)) else None in
  let insert_destroys :=
    from_option (fun f => destroys (f (Diff.added d))) false ran in
  let to_remove :=
    default (func (_on_remove (_callbacks h)))
            (ran ≫= fun f => registered_last remove_slot (registers (f (Diff.added d)))) in
  journal (on_commit_fuse entry h)
  = journal h
    ++ (if bool_decide (is_Some ran) then [ACall (EvInsert (Diff.added d))] else [])
    ++ (if nonempty (Diff.removed d) && negb insert_destroys
           && bool_decide (is_Some to_remove)
        then [ACall (EvRemove (Diff.removed d))] else []).
Proof.
  intros Hq Halive d ran insert_destroys to_remove. unfold on_commit_fuse.
  rewrite Hq. cbn [negb]. cbv zeta.
  destruct (install_config_fields entry h) as (_ & Hd & Hj & Hc).
  rewrite Halive in Hd.
  subst to_remove insert_destroys ran d. unfold Diff.make, Diff.set_difference.
  cbn [Diff.added Diff.removed].
  set (h3 := install_config entry h) in *.
  set (added := quorum entry ∖ snd (current_config h)).
  set (removed := snd (current_config h) ∖ quorum entry).
  assert (Hrem : forall x : hub,
            journal (on_remove removed x)
            = journal x ++ (if bool_decide (is_Some (func (_on_remove (_callbacks x))))
                            then [ACall (EvRemove removed)] else [])).
  { intros x. unfold on_remove. rewrite safe_exec_journal. cbn [slot_get remove_slot].
    by destruct (func (_on_remove (_callbacks x))). }
  destruct (nonempty added); cbn [andb].
  - assert (Hd4 : _was_destroyed (on_insert added h3)
                  = from_option (fun f => destroys (f added)) false
                      (func (_on_insert (_callbacks h)))).
    { unfold on_insert. rewrite safe_exec_destroyed, Hd, Hc. done. }
    assert (Hj4 : journal (on_insert added h3)
                  = journal h ++ (if bool_decide (is_Some (func (_on_insert (_callbacks h))))
                                  then [ACall (EvInsert added)] else [])).
    { unfold on_insert. rewrite safe_exec_journal, Hj, Hc. cbn [slot_get insert_slot].
      by destruct (func (_on_insert (_callbacks h))). }
    assert (Hs4 : func (_on_remove (_callbacks (on_insert added h3)))
                  = default (func (_on_remove (_callbacks h)))
                      (func (_on_insert (_callbacks h))
                         ≫= fun f => registered_last remove_slot (registers (f added)))).
    { unfold on_insert.
      rewrite (safe_exec_other_slot insert_slot remove_slot _ _ _ remove_slot_laws)
        by done.
      rewrite Hc. cbn [slot_get insert_slot remove_slot].
      destruct (func (_on_insert (_callbacks h))) as [f |]; [| done]. cbn.
      by destruct (registered_last remove_slot (registers (f added))). }
    rewrite <- Hd4. destruct (_was_destroyed (on_insert added h3)).
    + rewrite Hj4. cbn [negb]. rewrite andb_false_r. cbn [andb].
      by rewrite app_nil_r.
    + cbn [negb]. rewrite andb_true_r. destruct (nonempty removed); cbn [andb].
      * rewrite Hrem, Hj4, Hs4, <- app_assoc. done.
      * by rewrite Hj4, app_nil_r.
  - cbn [negb from_option mbind option_bind default].
    rewrite andb_true_r. rewrite bool_decide_eq_false_2 by (by intros [? ?]).
    cbn [app]. destruct (nonempty removed); cbn [andb].
    + by rewrite Hrem, Hj, Hc.
    + by rewrite Hj, app_nil_r.
Qed.

(** ** What every entry point keeps *)

Lemma hub_ok_ext (h h' : hub) :
  _nodes h' = _nodes h -> _configs h' = _configs h -> hub_ok h' = hub_ok h.
Proof. unfold hub_ok, nodes_in_order. by intros -> ->. Qed.

Lemma om_find_elem {V : Type} (k : PeerId) (v : V) (m : list (PeerId * V)) :
  om_find N.compare k m = Some v -> (k, v) ∈ m.
Proof.
  induction m as [| [k0 v0] m IH]; simpl; [done |].
  destruct (N.compare k k0) eqn:E.
  - intros [= ->]. apply N.compare_eq in E. subst. apply elem_of_cons. by left.
  - done.
  - intros H. apply elem_of_cons. right. by apply IH.
Qed.

Lemma nodes_in_order_set (id : PeerId) (n : Node) (h : hub) :
  node_id n = id ->
  nodes_in_order h = true ->
  nodes_in_order (with_nodes (om_set N.compare id n (_nodes h)) h) = true.
Proof.
  unfold nodes_in_order. simpl. intros Hid H.
  apply andb_true_iff in H as [Hs Hk]. apply andb_true_iff. split.
  - apply om_sorted_set; om_order.
  - apply forallb_forall. intros x Hx. apply list_elem_of_In in Hx.
    assert (Hcases : x = (id, n) \/ x ∈ _nodes h).
    { clear Hs Hk. induction (_nodes h) as [| [k0 v0] m IH]; simpl in Hx.
      - apply list_elem_of_singleton in Hx. by left.
      - destruct (N.compare id k0) eqn:E.
        + apply N.compare_eq in E. subst k0.
          apply elem_of_cons in Hx as [-> | Hx]; [by left |].
          right. apply elem_of_cons. by right.
        + apply elem_of_cons in Hx as [-> | Hx]; [by left | by right].
        + apply elem_of_cons in Hx as [-> | Hx].
          * right. apply elem_of_cons. by left.
          * destruct (IH Hx) as [? | ?]; [by left |]. right. apply elem_of_cons. by right. }
    destruct Hcases as [-> | Hin]; [simpl; rewrite Hid; apply N.eqb_refl |].
    rewrite forallb_forall in Hk. apply Hk. by apply list_elem_of_In.
Qed.

Lemma find_node_id (id : PeerId) (n : Node) (h : hub) :
  nodes_in_order h = true -> find_node id h = Some n -> node_id n = id.
Proof.
  unfold nodes_in_order, find_node. intros H Hf.
  apply andb_true_iff in H as [_ Hk]. apply om_find_elem in Hf.
  rewrite forallb_forall in Hk. apply list_elem_of_In in Hf.
  apply Hk in Hf. simpl in Hf. by apply N.eqb_eq.
Qed.

Lemma hub_ok_nodes (h h' : hub) :
  hub_ok h = true -> nodes_in_order h' = true -> _configs h' = _configs h ->
  hub_ok h' = true.
Proof.
  unfold hub_ok. intros H Hn ->. rewrite Hn.
  apply andb_true_iff in H as [H ?]. apply andb_true_iff in H as [_ ?].
  by apply andb_true_iff.
Qed.

Lemma hub_ok_nodes_in_order (h : hub) : hub_ok h = true -> nodes_in_order h = true.
Proof.
  unfold hub_ok. intros H. apply andb_true_iff in H as [H _].
  by apply andb_true_iff in H as [? _].
Qed.

Lemma on_commit_fuse_ok (entry : LogEntry) (h : hub) :
  hub_ok h = true -> hub_ok (on_commit_fuse entry h) = true.
Proof.
  intros Hok. destruct (acked_by_quorum entry) eqn:Hq.
  - destruct (on_commit_fuse_members entry h Hq) as (Hn & Hc & _ & _).
    pose proof (hub_ok_nodes_in_order h Hok) as Hno.
    unfold hub_ok in *. rewrite Hc.
    apply andb_true_iff in Hok as [Hok Hne]. apply andb_true_iff in Hok as [_ Hs].
    apply andb_true_iff. split; [apply andb_true_iff; split |].
    + unfold nodes_in_order. rewrite Hn.
      by apply (install_config_table entry h 0 Hno).
    + apply om_sorted_insert; om_order.
    + pose proof (om_insert_nonempty mid_compare (entry_message_id entry)
                    (quorum entry) (_configs h)).
      by destruct (om_insert _ _ _ _).
  - unfold on_commit_fuse. by rewrite Hq.
Qed.

Lemma commit_ok (entry : LogEntry) (h : hub) :
  hub_ok h = true -> hub_ok (commit entry h) = true.
Proof.
  intros Hok. unfold commit. destruct (message entry) as [m | m | m]; [| done |].
  - by apply on_commit_fuse_ok.
  - unfold commit_user_data. destruct (find_node _ h); [| done].
    unfold on_receive. rewrite <- Hok. apply hub_ok_ext; apply safe_exec_frame.
Qed.

Lemma walk_ok (l : list (MessageId * LogEntry))
    (F : option (MessageId * LogEntry)) (live : gset PeerId) (h : hub) :
  hub_ok h = true -> hub_ok (walk l F live h) = true.
Proof.
  revert F h. induction l as [| kv l IH]; intros F h Hok; simpl; [done |].
  pose proof (walk_step_cases F live h kv) as Hc.
  assert (Hce : hub_ok (commit_entry kv h) = true).
  { unfold commit_entry. apply commit_ok. by rewrite <- Hok. }
  destruct (walk_step F live h kv) as [h' F' | h' | h'].
  - apply IH. destruct Hc as [(-> & _) | (-> & _)]; [| done]. by rewrite <- Hok.
  - by subst h'.
  - by destruct Hc as [-> _].
Qed.

Lemma commit_pass_ok (h : hub) :
  hub_ok h = true -> hub_ok (commit_what_was_seen_by_everyone h) = true.
Proof. apply walk_ok. Qed.

Lemma broadcast_ok (msg : Message) (h : hub) :
  hub_ok (broadcast msg h) = hub_ok h.
Proof. apply hub_ok_ext; apply broadcast_frame. Qed.

Lemma add_log_entry_ok (m : LogMessage) (h : hub) :
  hub_ok (add_log_entry m h) = hub_ok h.
Proof. unfold add_log_entry. by destruct (_ && _). Qed.

Lemma broadcast_ack_ok (id : MessageId) (h : hub) :
  hub_ok (broadcast_ack id h) = hub_ok h.
Proof. unfold broadcast_ack, construct_ack. by rewrite broadcast_ok. Qed.

Lemma originate_fuse_ok (target : PeerId) (h : hub) :
  hub_ok (originate_fuse target h) = hub_ok h.
Proof.
  unfold originate_fuse, construct_ackable. by rewrite add_log_entry_ok, broadcast_ok.
Qed.

Lemma process_ok (op : PeerId) (msg : Message) (h : hub) :
  hub_ok h = true -> hub_ok (process op msg h) = true.
Proof.
  intros Hok. destruct msg as [[m | m | m] | m]; simpl.
  - unfold process_fuse.
    assert (H1 : hub_ok (add_log_entry (LFuse m) h) = true)
      by by rewrite add_log_entry_ok.
    destruct (find_highest_fuse_entry _) as [fe |].
    + destruct (mid_leb _ _); [| done].
      apply commit_pass_ok. by rewrite broadcast_ack_ok.
    + apply commit_pass_ok. by rewrite broadcast_ack_ok.
  - unfold process_port_offer. destruct (negb _); [done |].
    destruct (find_node op h) as [n |] eqn:E; [| done].
    pose proof (hub_ok_nodes_in_order h Hok) as Hno.
    apply (hub_ok_nodes h); [done | | done].
    apply nodes_in_order_set; [| done]. simpl. by apply (find_node_id op n h).
  - unfold process_user_data. by rewrite add_log_entry_ok, broadcast_ack_ok.
  - done.
Qed.

Lemma note_received_ok (msg : Message) (h : hub) :
  hub_ok h = true -> hub_ok (note_received msg h) = true.
Proof.
  intros Hok. unfold note_received.
  destruct (find_node _ h); [by rewrite <- Hok |].
  apply (hub_ok_nodes h); [done | | done].
  apply nodes_in_order_insert. by apply hub_ok_nodes_in_order.
Qed.

Lemma on_recv_ok (msg : Message) (h : hub) :
  hub_ok h = true -> hub_ok (on_recv msg h) = true.
Proof.
  intros Hok. unfold on_recv.
  destruct (seen_is_in _ _); [done |].
  pose proof (note_received_ok (mark_visited (_id h) msg) h Hok) as H3.
  destruct (_ =? _); [done |].
  match goal with
  | |- context [process ?op ?m ?x] =>
      assert (H5 : hub_ok (process op m x) = true)
        by (apply process_ok; by rewrite broadcast_ok)
  end.
  destruct (_was_destroyed _); [done |]. by apply commit_pass_ok.
Qed.

Lemma run_op_ok (h : hub) (op : HubOp) :
  hub_ok h = true -> hub_ok (run_op h op) = true.
Proof.
  intros Hok. destruct op as [msg | data | | reg]; simpl.
  - by apply on_recv_ok.
  - unfold total_order_broadcast, construct_ackable.
    by rewrite add_log_entry_ok, broadcast_ok.
  - unfold posted_commit. destruct (_was_destroyed h); [done |].
    by apply commit_pass_ok.
  - rewrite <- Hok. apply hub_ok_ext; apply register_frame.
Qed.

Lemma hub_init_ok (id : PeerId) (cbs : Callbacks) : hub_ok (hub_init id cbs) = true.
Proof. unfold hub_ok, nodes_in_order. simpl. by rewrite N.eqb_refl. Qed.

Section EntryPoints.
Variable decode_version : Bytes -> option (N * Bytes).
Variable decode_uuid : Bytes -> option (PeerId * Bytes).
Variable NET_PROTOCOL_VERSION : N.
Variable get_targets : PeerId -> Graph -> PeerId -> list PeerId.

Lemma send_unreliable_nodes (frame : Bytes) (l : list PeerId) (h : hub) :
  _nodes (foldl (send_unreliable_to frame) h l) = _nodes h /\
  _configs (foldl (send_unreliable_to frame) h l) = _configs h.
Proof.
  revert h. induction l as [| p l IH]; intros h; [done |].
  cbn [foldl]. destruct (IH (send_unreliable_to frame h p)) as [-> ->].
  unfold send_unreliable_to.
  destruct (find_node p h) as [n |]; [by destruct (is_connected n) | done].
Qed.

Lemma fuse_exchanged_ok (socket : Socket) (on_fused : OnFused) (error : ErrorCode)
    (buffer : Bytes) (h h' : hub) :
  hub_ok h = true ->
  fuse_exchanged decode_version decode_uuid NET_PROTOCOL_VERSION
    socket on_fused error buffer h = Some h' ->
  hub_ok h' = true.
Proof.
  intros Hok. unfold fuse_exchanged.
  assert (Hfail : forall e, hub_ok (fusion_failed socket on_fused e h) = true).
  { intros e. rewrite <- Hok. unfold fusion_failed, call_on_fused.
    apply hub_ok_ext;
      (etransitivity; [apply run_reaction_frame | done]). }
  destruct (_was_destroyed h); [by intros [= <-] |].
  destruct error; try (intros [= <-]; apply Hfail).
  destruct (decode_handshake _ _ buffer) as [[v his_id] |];
    [| intros [= <-]; apply Hfail].
  destruct (negb _); [intros [= <-]; apply Hfail |].
  destruct (_ =? _); [intros [= <-]; apply Hfail |].
  pose proof (hub_ok_nodes_in_order h Hok) as Hno.
  set (h1 := match find_node his_id h with
             | Some n => with_nodes (om_set N.compare his_id (assign_socket socket n) (_nodes h)) h
             | None => insert_node his_id (Some socket) h
             end).
  assert (H1 : hub_ok h1 = true).
  { unfold h1. destruct (find_node his_id h) as [n |] eqn:E.
    - apply (hub_ok_nodes h); [done | | done].
      apply nodes_in_order_set; [| done]. simpl. by apply (find_node_id his_id n h).
    - apply (hub_ok_nodes h); [done | | done]. by apply nodes_in_order_insert. }
  set (h3 := originate_fuse his_id h1).
  assert (H3 : hub_ok h3 = true) by (unfold h3; by rewrite originate_fuse_ok).
  set (addr := from_option node_address 0 (find_node his_id h1)).
  unfold this_node. destruct (find_node (_id h3) h3) as [from |] eqn:E; [| done].
  set (h4 := with_nodes _ h3).
  assert (H4 : hub_ok h4 = true).
  { apply (hub_ok_nodes h3); [done | | done].
    apply nodes_in_order_set; [| by apply hub_ok_nodes_in_order]. simpl.
    apply (find_node_id (_id h3) from h3); [by apply hub_ok_nodes_in_order | done]. }
  set (h5 := call_on_fused on_fused success his_id h4).
  assert (H5 : hub_ok h5 = true).
  { rewrite <- H4. unfold h5, call_on_fused.
    apply hub_ok_ext; (etransitivity; [apply run_reaction_frame | done]). }
  assert (Hres : hub_ok (if _was_destroyed h5 then h5
                         else commit_what_was_seen_by_everyone h5) = true).
  { destruct (_was_destroyed h5); [done |]. by apply commit_pass_ok. }
  intros [= <-]. exact Hres.
Qed.

(** X12. The peer table stays a map with every node under its own id, and
    the configurations stay a map that is never empty, through every entry
    point of the hub, [fuse] included whenever it gets past [this_node()];
    they are so in a new hub, and so in every state that receptions,
    broadcasts, commit passes and registrations lead to.  The assertions
    on [_configs.empty()] cannot fail there. *)
Theorem hub_stays_ok :
  (forall id cbs, hub_ok (hub_init id cbs) = true) /\
  (forall h, hub_ok h = true ->
     (forall msg, hub_ok (on_recv msg h) = true) /\
     (forall data, hub_ok (total_order_broadcast data h) = true) /\
     hub_ok (posted_commit h) = true /\
     hub_ok (commit_what_was_seen_by_everyone h) = true /\
     (forall reg, hub_ok (register reg h) = true) /\
     (forall node, hub_ok (on_peer_disconnected node h) = true) /\
     (forall socket on_fused error buffer h',
        fuse_exchanged decode_version decode_uuid NET_PROTOCOL_VERSION
          socket on_fused error buffer h = Some h' ->
        hub_ok h' = true) /\
     (forall buffer,
        hub_ok (node_received_unreliable_broadcast decode_uuid get_targets buffer h)
        = true)) /\
  (forall h, reachable h -> hub_ok h = true /\ _configs h <> []).
Proof.
  split; [apply hub_init_ok |]. split.
  - intros h Hok. split_and!.
    + intros msg. by apply on_recv_ok.
    + intros data. apply (run_op_ok h (Broadcast data) Hok).
    + apply (run_op_ok h CommitPass Hok).
    + by apply commit_pass_ok.
    + intros reg. apply (run_op_ok h (Register reg) Hok).
    + intros node. unfold on_peer_disconnected. apply commit_pass_ok.
      by rewrite originate_fuse_ok.
    + intros socket on_fused error buffer h'. by apply fuse_exchanged_ok.
    + intros buffer. unfold node_received_unreliable_broadcast.
      destruct (decode_uuid buffer) as [[source rest] |]; [| done].
      destruct (negb _); [done |].
      unfold on_receive_unreliable. rewrite <- Hok.
      destruct (send_unreliable_nodes buffer
                  (get_targets (_id h) (_broadcast_routing_table h) source) h)
        as [Hn Hc].
      apply hub_ok_ext.
      * etransitivity; [apply safe_exec_frame | done].
      * etransitivity; [apply safe_exec_frame | done].
  - intros h (id & cbs & ops & ->).
    assert (Hok : hub_ok (run_ops ops (hub_init id cbs)) = true).
    { unfold run_ops. generalize (hub_init_ok id cbs). generalize (hub_init id cbs).
      induction ops as [| op ops IH]; intros h0 H0; simpl; [done |].
      apply IH. by apply run_op_ok. }
    split; [done |]. unfold hub_ok in Hok.
    apply andb_true_iff in Hok as [_ Hne]. by destruct (_configs _).
Qed.
End EntryPoints.

(** ** A hub on its own *)

Lemma no_links_targets (hd : Header) (h : hub) :
  forallb (fun kv => negb (is_connected (snd kv))) (_nodes h) = true ->
  broadcast_targets hd h = [] /\ hub_neighbors h = {[ _id h ]}.
Proof.
  intros Hno. unfold broadcast_targets, hub_neighbors.
  induction (_nodes h) as [| [k n] m IH]; simpl in *.
  - split; [done |]. set_solver.
  - apply andb_true_iff in Hno as [Hn Hm]. apply negb_true_iff in Hn.
    rewrite Hn, !andb_false_r. simpl. by apply IH.
Qed.

Lemma add_log_entry_fresh (m : LogMessage) (h : hub) :
  mid_lt (last_committed (_log h)) (header_id (log_header m)) ->
  entries (_log h) = [] ->
  placeholders (_log h) = [] ->
  add_log_entry m h
  = with_log {| entries := [(header_id (log_header m), new_entry m)];
                placeholders := [];
                last_committed := last_committed (_log h);
                last_commit_op := last_commit_op (_log h);
                last_fuse_commit := last_fuse_commit (_log h) |} h.
Proof.
  intros Hlt Hlog Hph. unfold add_log_entry. rewrite (mid_lt_not_le _ _ Hlt).
  cbn [andb]. unfold insert_entry. rewrite entry_message_id_new_entry, Hlog, Hph.
  done.
Qed.

Lemma own_entry_acked (m : LogMessage) :
  neighbors (log_ack_data m) = {[ original_poster (log_header m) ]} ->
  acked_by_quorum_of {[ original_poster (log_header m) ]} (new_entry m) = true.
Proof.
  intros Hnb. unfold acked_by_quorum_of, acked_by_quorum, quorum, new_entry.
  cbn [entry_apply_ack acks]. rewrite insert_empty, dom_singleton_L.
  rewrite map_to_list_singleton. cbn [forallb snd]. rewrite Hnb.
  set (op := original_poster (log_header m)).
  rewrite (bool_decide_eq_true_2 (({[ op ]} : gset PeerId) = {[ op ]})) by reflexivity.
  rewrite (bool_decide_eq_false_2 (({[ op ]} : gset PeerId) = ∅)); [done |].
  intros Habs. assert (Hin : op ∈ (∅ : gset PeerId)).
  { rewrite <- Habs. set_solver. }
  set_solver.
Qed.

Lemma own_entry_no_gap (m : LogMessage) (h : hub) :
  predecessor_id (log_ack_data m) = last_committed (_log h) ->
  causal_gap h (new_entry m) = false.
Proof.
  intros Hp. unfold causal_gap, new_entry. cbn [entry_apply_ack predecessors].
  cbn [om_insert map rev app fst find_predecessor]. rewrite Hp.
  rewrite (proj2 (mid_eqb_eq (last_committed (_log h)) _) eq_refl).
  by rewrite (proj2 (mid_eqb_eq (last_committed (_log h)) _) eq_refl).
Qed.

Lemma own_broadcast_computes (data : Bytes) (h : hub) :
  on_its_own h ->
  _time_stamp h + 1 < ts_modulus ->
  exists L S,
    posted_commit (total_order_broadcast data h)
    = on_receive (_id h) data
        (with_log L (with_seen S (with_time_stamp (_time_stamp h + 1) h))) /\
    entries L = [] /\ placeholders L = [] /\
    last_committed L = (_time_stamp h + 1, _id h).
Proof.
  intros (Hlog & Hph & Hno & Hself & Hcfg & Halive & Hlc) Hts.
  assert (Hsucc : ts_succ (_time_stamp h) = _time_stamp h + 1).
  { unfold ts_succ. by apply N.mod_small. }
  destruct (no_links_targets (fresh_header 0 h) h Hno) as [_ Hnb].
  assert (Htg : forall hd t, broadcast_targets hd (with_time_stamp t h) = []).
  { intros hd t. by apply (no_links_targets hd (with_time_stamp t h)). }
  assert (Hpred : forall id, get_predecessor_time id (_log h) = last_committed (_log h)).
  { intros id. unfold get_predecessor_time. by rewrite Hlog. }
  unfold total_order_broadcast, construct_ackable. cbv zeta.
  rewrite Hsucc, Hnb, Hpred.
  unfold broadcast. rewrite Htg. cbn [foldl].
  match goal with
  | |- context [add_log_entry ?mm ?hh] => set (m := mm); set (h1 := hh)
  end.
  rewrite (add_log_entry_fresh m h1); [| | done | done].
  2:{ unfold mid_lt, mid_ltb, mid_compare. cbn.
      destruct (N.compare_spec (fst (last_committed (_log h))) (_time_stamp h + 1));
        try done; lia. }
  match goal with
  | |- context [posted_commit ?x] => set (hA := x)
  end.
  unfold posted_commit. change (_was_destroyed hA) with (_was_destroyed h).
  rewrite Halive. unfold commit_what_was_seen_by_everyone.
  assert (HF : last_committable_fuse hA = None) by done.
  assert (Hlive : live_nodes_of hA = {[ _id h ]}).
  { unfold live_nodes_of. rewrite HF. exact Hcfg. }
  rewrite HF, Hlive.
  change (entries (_log hA)) with [(header_id (log_header m), new_entry m)].
  cbn [walk]. unfold walk_step, first_block.
  change (entry_is_fuse (snd (header_id (log_header m), new_entry m))) with false.
  cbn iota. cbn [snd].
  assert (Hack : acked_by_quorum_of {[ _id h ]} (new_entry m) = true)
    by exact (own_entry_acked m eq_refl).
  assert (Hgap : causal_gap hA (new_entry m) = false)
    by exact (own_entry_no_gap m hA eq_refl).
  rewrite Hack, Hgap. cbn [negb].
  assert (Hce : commit_entry (header_id (log_header m), new_entry m) hA
                = on_receive (_id h) data
                    (with_log
                       (set_last_committed (header_id (log_header m)) (_id h)
                          (log_erase (header_id (log_header m)) (_log hA)))
                       (with_seen
                          (seen_everything_up_to (header_id (log_header m)) (_seen hA))
                          hA))).
  { unfold commit_entry, commit, commit_user_data, m.
    cbn [snd fst message new_entry entry_apply_ack ud_header ud_data fresh_header
         original_poster log_header].
    destruct Hself as [self Hself].
    change (find_node _ _) with (find_node (_id h) h). by rewrite Hself. }
  eexists _, _. split.
  - match goal with
    | |- context [if _was_destroyed ?x then _ else _] => destruct (_was_destroyed x)
    end; cbn [walk]; rewrite Hce; reflexivity.
  - split_and!; try done. cbn. by rewrite mid_compare_refl.
Qed.

Lemma own_broadcast_step (data : Bytes) (h : hub) :
  on_its_own h ->
  _time_stamp h + 1 < ts_modulus ->
  let h' := posted_commit (total_order_broadcast data h) in
  journal h'
    = journal h ++ match func (_on_receive (_callbacks h)) with
                   | Some _ => [ACall (EvReceive (_id h) data)]
                   | None => []
                   end /\
  _id h' = _id h /\
  _time_stamp h' = _time_stamp h + 1 /\
  _was_destroyed h'
    = from_option (fun f => destroys (f (_id h) data)) false
        (func (_on_receive (_callbacks h))) /\
  _on_receive (_callbacks h')
    = match func (_on_receive (_callbacks h)) with
      | Some f =>
          match registered_last receive_slot (registers (f (_id h) data)) with
          | Some g => {| func := g; was_reset := true |}
          | None => {| func := Some f; was_reset := false |}
          end
      | None => _on_receive (_callbacks h)
      end /\
  (_was_destroyed h' = false -> on_its_own h').
Proof.
  intros Hown Hts.
  destruct (own_broadcast_computes data h Hown Hts) as (L & S & Heq & HL & HP & Hlc).
  cbv zeta. rewrite Heq. clear Heq.
  destruct Hown as (Hlog & Hph & Hno & Hself & Hcfg & Halive & Hle).
  unfold on_receive.
  match goal with
  | |- context [safe_exec ?s ?c ?e ?x] =>
      destruct (safe_exec_frame s c e x) as (Hi & Ht & Hn & Hl & Hc & _ & _);
      pose proof (safe_exec_journal s c e x) as Hj;
      pose proof (safe_exec_destroyed s c e x) as Hd;
      assert (Hslot : _on_receive (_callbacks (safe_exec s c e x))
                      = match func (_on_receive (_callbacks h)) with
                        | Some f =>
                            match registered_last receive_slot
                                    (registers (f (_id h) data)) with
                            | Some g => {| func := g; was_reset := true |}
                            | None => {| func := Some f; was_reset := false |}
                            end
                        | None => _on_receive (_callbacks h)
                        end)
  end.
  { destruct (func (_on_receive (_callbacks h))) as [f |] eqn:Hf.
    - match goal with
      | |- context [safe_exec _ _ _ ?x] =>
          exact (safe_exec_slot receive_slot (fun g : OnReceive => g (_id h) data)
                   (EvReceive (_id h) data) x f receive_slot_laws Hf)
      end.
    - unfold safe_exec. cbn [slot_get receive_slot _callbacks with_log with_seen
                             with_time_stamp]. by rewrite Hf. }
  cbn [slot_get receive_slot _callbacks with_log with_seen with_time_stamp
       _was_destroyed journal] in Hj, Hd.
  rewrite Halive in Hd. cbn [orb] in Hd.
  split_and!.
  - exact Hj.
  - by rewrite Hi.
  - by rewrite Ht.
  - exact Hd.
  - exact Hslot.
  - intros Hdead. unfold on_its_own, find_node, current_config.
    rewrite Hl, Hn, Hc, Hi, Ht. simpl. split_and!; try done.
    rewrite Hlc. simpl. lia.
Qed.

(** X13. A hub on its own delivers what it broadcasts: each
    [total_order_broadcast] followed by the commit pass it posts hands the
    payload to [on_receive] under the hub's own id, so that a run of
    broadcasts is delivered whole and in the order it was made, as long as
    the clock does not wrap and the function in the slot neither destroys
    the hub nor registers another function, or none, in its place.  If it
    does clear its slot on a delivery, nothing that is broadcast afterwards
    is delivered. *)
Theorem lone_hub_delivers_its_broadcasts (payloads : list Bytes) (h : hub)
    (f : OnReceive) :
  on_its_own h ->
  func (_on_receive (_callbacks h)) = Some f ->
  (forall op data, destroys (f op data) = false) ->
  _time_stamp h + N.of_nat (length payloads) < ts_modulus ->
  ((forall op data, registered_last receive_slot (registers (f op data)) = None) ->
   journal (broadcast_each payloads h)
     = journal h ++ map (fun data => ACall (EvReceive (_id h) data)) payloads /\
   func (_on_receive (_callbacks (broadcast_each payloads h))) = Some f /\
   _time_stamp (broadcast_each payloads h)
     = _time_stamp h + N.of_nat (length payloads) /\
   on_its_own (broadcast_each payloads h)) /\
  (forall data rest,
     payloads = data :: rest ->
     registered_last receive_slot (registers (f (_id h) data)) = Some None ->
     journal (broadcast_each payloads h)
       = journal h ++ [ACall (EvReceive (_id h) data)] /\
     func (_on_receive (_callbacks (broadcast_each payloads h))) = None).
Proof.
  intros Hown Hf Hquiet Hts. split.
  - intros Hsame. revert h Hown Hf Hts.
    induction payloads as [| data payloads IH]; intros h Hown Hf Hts.
    + simpl. rewrite app_nil_r, N.add_0_r. done.
    + unfold broadcast_each in *. cbn [foldl].
      cbn [length] in Hts. rewrite Nat2N.inj_succ in Hts.
      destruct (own_broadcast_step data h Hown) as (Hj & Hi & Ht & Hd & Hs & Hown');
        [lia |].
      set (h' := posted_commit (total_order_broadcast data h)) in *.
      rewrite Hf in Hj, Hd, Hs. cbn [from_option] in Hd.
      rewrite Hquiet in Hd. rewrite Hsame in Hs.
      destruct (IH h' (Hown' Hd)) as (Hj' & Hf' & Ht' & Hown'');
        [by rewrite Hs | lia |].
      split_and!; [| done | | done].
      * rewrite Hj', Hj, Hi. simpl. by rewrite <- app_assoc.
      * rewrite Ht', Ht. cbn [length]. lia.
  - intros data rest -> Hclear. unfold broadcast_each. cbn [foldl].
    cbn [length] in Hts. rewrite Nat2N.inj_succ in Hts.
    destruct (own_broadcast_step data h Hown) as (Hj & Hi & Ht & Hd & Hs & Hown');
      [lia |].
    set (h' := posted_commit (total_order_broadcast data h)) in *.
    rewrite Hf in Hj, Hd, Hs. cbn [from_option] in Hd. rewrite Hquiet in Hd.
    rewrite Hclear in Hs. rewrite <- Hj.
    assert (Hsilent : forall payloads x,
              on_its_own x -> func (_on_receive (_callbacks x)) = None ->
              _time_stamp x + N.of_nat (length payloads) < ts_modulus ->
              journal (foldl (fun acc d => posted_commit (total_order_broadcast d acc))
                             x payloads) = journal x /\
              func (_on_receive
                      (_callbacks
                         (foldl (fun acc d => posted_commit (total_order_broadcast d acc))
                                x payloads))) = None).
    { clear. induction payloads as [| d payloads IH]; intros x Hown Hnone Hts; [done |].
      cbn [foldl]. cbn [length] in Hts. rewrite Nat2N.inj_succ in Hts.
      destruct (own_broadcast_step d x Hown) as (Hj & _ & Ht & Hd & Hs & Hown');
        [lia |].
      set (x' := posted_commit (total_order_broadcast d x)) in *.
      rewrite Hnone in Hj, Hd, Hs. cbn [from_option] in Hd. rewrite app_nil_r in Hj.
      destruct (IH x' (Hown' Hd)) as (Hj' & Hf'); [by rewrite Hs | lia |].
      by rewrite Hj', Hj. }
    apply (Hsilent rest h' (Hown' Hd)); [by rewrite Hs | lia].
Qed.

(** ** The unreliable path, when the source is known *)

Section UnreliableFacts.
Variable decode_uuid : Bytes -> option (PeerId * Bytes).
Variable get_targets : PeerId -> Graph -> PeerId -> list PeerId.
Variable encode_unreliable : PeerId -> Bytes -> Bytes.

Lemma send_unreliable_fold (frame : Bytes) (l : list PeerId) (h : hub) :
  let h' := foldl (send_unreliable_to frame) h l in
  journal h' = journal h
               ++ map (fun p => ASendUnreliable p frame) (List.filter (connected_peer h) l) /\
  _id h' = _id h /\ _time_stamp h' = _time_stamp h /\ _nodes h' = _nodes h /\
  _log h' = _log h /\ _configs h' = _configs h /\ _seen h' = _seen h /\
  _was_destroyed h' = _was_destroyed h /\ _callbacks h' = _callbacks h.
Proof.
  revert h. induction l as [| p l IH]; intros h; cbv zeta; cbn [foldl List.filter].
  - simpl. by rewrite app_nil_r.
  - assert (Hstep : send_unreliable_to frame h p
                    = if connected_peer h p then record (ASendUnreliable p frame) h else h).
    { unfold send_unreliable_to, connected_peer.
      destruct (find_node p h) as [n |]; [by destruct (is_connected n) | done]. }
    rewrite Hstep. destruct (connected_peer h p); [| apply IH].
    destruct (IH (record (ASendUnreliable p frame) h))
      as (Hj & Hi & Ht & Hn & Hl & Hc & Hs & Hd & Hcb).
    rewrite Hj, Hi, Ht, Hn, Hl, Hc, Hs, Hd, Hcb.
    split_and!; try done. simpl. by rewrite <- app_assoc.
Qed.

Lemma payload_buffer_in_frame (rest : Bytes) :
  N.of_nat (length rest) < size_t_modulus ->
  ((4 <= length rest)%nat ->
   payload_buffer rest
   = {| buffer_data := drop 4 rest;
        buffer_size := N.of_nat (length (drop 4 rest)) |}) /\
  ((length rest < 4)%nat ->
   buffer_data (payload_buffer rest) = [] /\
   buffer_size (payload_buffer rest) = size_t_modulus - 4 + N.of_nat (length rest)).
Proof.
  intros Hlen. unfold payload_buffer. split.
  - intros H4. f_equal. rewrite length_drop.
    replace (N.of_nat (length rest) + size_t_modulus - 4)
      with (N.of_nat (length rest - 4) + 1 * size_t_modulus) by lia.
    rewrite N.Div0.mod_add. apply N.mod_small. lia.
  - intros H4. cbn [buffer_data buffer_size]. split.
    + apply drop_ge. lia.
    + rewrite N.mod_small; unfold size_t_modulus in *; lia.
Qed.

(** X14. An unreliable frame from a source the peer table holds is
    forwarded, byte for byte, to those routing targets that are connected
    nodes of the table and to nobody else; then [on_receive_unreliable] is
    run with the source and a buffer that begins four bytes behind the id.
    When at least four bytes follow the id, that buffer is the rest of the
    frame; when fewer follow, its size has wrapped around and it reaches
    past the end of the frame.  No member of the hub but the slots and the
    liveness flag changes. *)
Theorem unreliable_frame_is_relayed (buffer : Bytes) (source : PeerId) (rest : Bytes)
    (h : hub) :
  decode_uuid buffer = Some (source, rest) ->
  is_Some (find_node source h) ->
  N.of_nat (length rest) < size_t_modulus ->
  let h' := node_received_unreliable_broadcast decode_uuid get_targets buffer h in
  journal h'
    = journal h
      ++ map (fun p => ASendUnreliable p buffer)
             (List.filter (connected_peer h)
                (get_targets (_id h) (_broadcast_routing_table h) source))
      ++ match func (_on_receive_unreliable (_callbacks h)) with
         | Some _ => [ACall (EvReceiveUnreliable source (payload_buffer rest))]
         | None => []
         end /\
  ((4 <= length rest)%nat ->
   payload_buffer rest
   = {| buffer_data := drop 4 rest;
        buffer_size := N.of_nat (length (drop 4 rest)) |}) /\
  ((length rest < 4)%nat ->
   buffer_data (payload_buffer rest) = [] /\
   buffer_size (payload_buffer rest) = size_t_modulus - 4 + N.of_nat (length rest)) /\
  _nodes h' = _nodes h /\ _log h' = _log h /\ _seen h' = _seen h /\
  _time_stamp h' = _time_stamp h /\ _configs h' = _configs h.
Proof.
  intros Hdec [n Hn] Hlen h'. unfold h', node_received_unreliable_broadcast.
  rewrite Hdec. unfold om_count. unfold find_node in Hn. rewrite Hn. cbn [negb].
  unfold on_receive_unreliable.
  match goal with
  | |- context [safe_exec ?s ?c ?e ?x] =>
      destruct (safe_exec_frame s c e x) as (_ & -> & -> & -> & -> & -> & _);
      rewrite (safe_exec_journal s c e x)
  end.
  destruct (send_unreliable_fold buffer
              (get_targets (_id h) (_broadcast_routing_table h) source) h)
    as (-> & _ & -> & -> & -> & -> & -> & _ & ->).
  destruct (payload_buffer_in_frame rest Hlen) as [Hin Hout].
  split_and!; try done. by rewrite <- app_assoc.
Qed.

Lemma send_all_journal (frame : Bytes) (l : list PeerId) (h : hub) :
  journal (foldl (fun acc p => record (ASendUnreliable p frame) acc) h l)
  = journal h ++ map (fun p => ASendUnreliable p frame) l.
Proof.
  revert h. induction l as [| p l IH]; intros h; simpl.
  - by rewrite app_nil_r.
  - rewrite IH. simpl. by rewrite <- app_assoc.
Qed.

Lemma unreliable_counter (l : list PeerId) :
  N.of_nat (length l) < size_t_modulus ->
  foldl (fun c _ => (c + 1) mod size_t_modulus) 0 l = N.of_nat (length l).
Proof.
  induction l as [| p l IH] using rev_ind; [done |].
  rewrite foldl_app, length_app. cbn [foldl length]. intros Hlt.
  rewrite IH by lia. rewrite N.mod_small by lia. lia.
Qed.

Lemma run_completions_last (n : nat) :
  N.of_nat (S n) < size_t_modulus ->
  run_completions (S n) (N.of_nat (S n)) = replicate n false ++ [true].
Proof.
  induction n as [| n IH]; intros Hlt.
  - done.
  - cbn [run_completions]. unfold send_completed.
    assert (Hstep : (N.of_nat (S (S n)) + size_t_modulus - 1) mod size_t_modulus
                    = N.of_nat (S n)).
    { replace (N.of_nat (S (S n)) + size_t_modulus - 1)
        with (N.of_nat (S n) + 1 * size_t_modulus) by lia.
      rewrite N.Div0.mod_add. apply N.mod_small. lia. }
    rewrite Hstep. replace (N.of_nat (S n) =? 0) with false.
    + cbn [replicate app]. f_equal. apply IH. lia.
    + symmetry. apply N.eqb_neq. lia.
Qed.

(** X15. [unreliable_broadcast] hands one and the same frame to every
    connected node of the table but the hub's own, and to no other; it
    posts the handler itself exactly when there is no such node.
    Otherwise the completions of the sends, run once each, run the handler
    exactly once, the last of them. *)
Theorem unreliable_broadcast_runs_the_handler_once (payload : Bytes) (h : hub) :
  N.of_nat (length (_nodes h)) < size_t_modulus ->
  let '(h', counter, posted) := unreliable_broadcast encode_unreliable payload h in
  journal h'
    = journal h ++ map (fun p => ASendUnreliable p (encode_unreliable (_id h) payload))
                       (unreliable_targets h) /\
  (forall p, p ∈ unreliable_targets h <->
     p <> _id h /\
     exists n, n ∈ map snd (_nodes h) /\ node_id n = p /\ is_connected n = true) /\
  counter = N.of_nat (length (unreliable_targets h)) /\
  (posted = true <-> unreliable_targets h = []) /\
  (posted = false ->
   run_completions (length (unreliable_targets h)) counter
   = replicate (length (unreliable_targets h) - 1) false ++ [true]).
Proof.
  intros Hsize. unfold unreliable_broadcast.
  assert (Hlen : (length (unreliable_targets h) <= length (_nodes h))%nat).
  { unfold unreliable_targets. rewrite length_map.
    etransitivity; [apply List.filter_length_le |]. by rewrite length_map. }
  assert (Hcount : foldl (fun c _ => (c + 1) mod size_t_modulus) 0 (unreliable_targets h)
                   = N.of_nat (length (unreliable_targets h))).
  { apply unreliable_counter. lia. }
  rewrite Hcount. split_and!.
  - apply send_all_journal.
  - intros p. unfold unreliable_targets.
    rewrite list_elem_of_In, in_map_iff. split.
    + intros (n & <- & Hin). apply filter_In in Hin as [Hin Hf].
      apply negb_true_iff, orb_false_iff in Hf as [Hs Hc].
      apply N.eqb_neq in Hs. apply negb_false_iff in Hc.
      split; [done |]. exists n. by rewrite list_elem_of_In.
    + intros (Hs & n & Hin & <- & Hc). exists n. split; [done |].
      apply filter_In. split; [by apply list_elem_of_In |].
      apply N.eqb_neq in Hs. by rewrite Hs, Hc.
  - done.
  - rewrite N.eqb_eq. destruct (unreliable_targets h); simpl; split; try done; lia.
  - intros Hposted. apply N.eqb_neq in Hposted.
    destruct (length (unreliable_targets h)) as [| n] eqn:E; [done |].
    replace (S n - 1)%nat with n by lia. apply run_completions_last. lia.
Qed.
End UnreliableFacts.

(** ** A good handshake *)

Lemma bind_socket_connected (his_id : PeerId) (socket : Socket) (h : hub) :
  nodes_in_order h = true ->
  exists n,
    find_node his_id (bind_socket his_id socket h) = Some n /\
    node_id n = his_id /\ node_socket n = Some socket.
Proof.
  intros Hok. unfold bind_socket.
  destruct (find_node his_id h) as [n0 |] eqn:E.
  - exists (assign_socket socket n0). split_and!; [| | done].
    + unfold find_node. simpl. apply om_find_set, N.compare_refl.
    + simpl. by apply (find_node_id his_id n0 h).
  - exists (new_node his_id (Some socket)). split_and!; [| done | done].
    unfold find_node, insert_node in *. simpl.
    rewrite om_find_insert_same by apply N.compare_refl. by rewrite E.
Qed.

Lemma originate_fuse_journal (target : PeerId) (h : hub) :
  journal (originate_fuse target h)
  = journal h
    ++ map (fun p => ASend p (MLog (LFuse (originated_fuse target h))))
           (broadcast_targets (fuse_header (originated_fuse target h)) h) /\
  _nodes (originate_fuse target h) = _nodes h /\
  _id (originate_fuse target h) = _id h /\
  _was_destroyed (originate_fuse target h) = _was_destroyed h.
Proof.
  unfold originate_fuse, originated_fuse, construct_ackable. cbv zeta. cbn [fst snd].
  match goal with
  | |- context [add_log_entry ?m (broadcast ?msg ?x)] =>
      assert (Hadd : forall y, journal (add_log_entry m y) = journal y
                               /\ _nodes (add_log_entry m y) = _nodes y
                               /\ _id (add_log_entry m y) = _id y
                               /\ _was_destroyed (add_log_entry m y) = _was_destroyed y)
        by (intros y; unfold add_log_entry; by destruct (_ && _));
      destruct (Hadd (broadcast msg x)) as (-> & -> & -> & ->);
      destruct (broadcast_frame msg x) as (-> & _ & -> & _ & _ & _ & _ & -> & _);
      rewrite (broadcast_journal msg x)
  end.
  done.
Qed.

Section GoodHandshake.
Variable decode_version : Bytes -> option (N * Bytes).
Variable decode_uuid : Bytes -> option (PeerId * Bytes).
Variable NET_PROTOCOL_VERSION : N.

(** What [fuse] does with a good reply, by whether the table holds the
    hub's own record. *)
Lemma fuse_exchanged_good (socket : Socket) (on_fused : OnFused)
    (buffer : Bytes) (his_id : PeerId) (h : hub) :
  _was_destroyed h = false ->
  decode_handshake decode_version decode_uuid buffer
    = Some (NET_PROTOCOL_VERSION, his_id) ->
  his_id <> _id h ->
  fuse_exchanged decode_version decode_uuid NET_PROTOCOL_VERSION
    socket on_fused success buffer h
  = match find_node (_id h) h with
    | None => None
    | Some from =>
        let h3 := originate_fuse his_id (bind_socket his_id socket h) in
        let h4 := with_nodes
                    (om_set N.compare (_id h3)
                       (add_connection from his_id
                          (from_option node_address 0
                             (find_node his_id (bind_socket his_id socket h))))
                       (_nodes h3)) h3 in
        let h5 := call_on_fused on_fused success his_id h4 in
        Some (if _was_destroyed h5 then h5
              else commit_what_was_seen_by_everyone h5)
    end.
Proof.
  intros Halive Hdec Hne.
  assert (Hid1 : _id (bind_socket his_id socket h) = _id h).
  { unfold bind_socket. by destruct (find_node his_id h). }
  assert (Hself1 : find_node (_id h) (bind_socket his_id socket h) = find_node (_id h) h).
  { unfold bind_socket, find_node, insert_node.
    destruct (om_find N.compare his_id (_nodes h)); simpl.
    - apply om_find_set_other; om_order.
    - apply om_find_insert_other; om_order. }
  unfold fuse_exchanged. rewrite Halive, Hdec, N.eqb_refl. cbn [negb].
  replace (_id h =? his_id) with false by (symmetry; apply N.eqb_neq; congruence).
  fold (bind_socket his_id socket h). cbv zeta. unfold this_node.
  destruct (originate_fuse_journal his_id (bind_socket his_id socket h))
    as (_ & Hn3 & Hi3 & _).
  unfold find_node at 1. rewrite Hn3, Hi3, Hid1.
  fold (find_node (_id h) (bind_socket his_id socket h)). by rewrite Hself1.
Qed.

(** X16. A reply with our protocol version and another peer's id binds
    that peer's record to the socket and originates a Fuse about it, which
    is handed to the new peer among the connected ones and names it as a
    neighbour.  If the peer table holds the hub's own record, the
    completion is then told [success] and the peer's id, only after these
    sends, and whatever follows in the journal is a callback of the commit
    pass.  If the table has lost the hub's own record, [this_node()]
    dereferences a null pointer instead. *)
Theorem fuse_greets_the_new_peer (socket : Socket) (on_fused : OnFused)
    (buffer : Bytes) (his_id : PeerId) (h : hub) :
  _was_destroyed h = false ->
  decode_handshake decode_version decode_uuid buffer
    = Some (NET_PROTOCOL_VERSION, his_id) ->
  his_id <> _id h ->
  nodes_in_order h = true ->
  let r := fuse_exchanged decode_version decode_uuid NET_PROTOCOL_VERSION
             socket on_fused success buffer h in
  let fuse_msg := originated_fuse his_id (bind_socket his_id socket h) in
  let targets :=
    broadcast_targets (fuse_header fuse_msg) (bind_socket his_id socket h) in
  his_id ∈ targets /\
  his_id ∈ neighbors (fuse_ack_data fuse_msg) /\
  fuse_target fuse_msg = his_id /\
  original_poster (fuse_header fuse_msg) = _id h /\
  (find_node (_id h) h = None -> r = None) /\
  (is_Some (find_node (_id h) h) ->
   exists h' calls,
     r = Some h' /\
     journal h'
     = journal h
       ++ map (fun p => ASend p (MLog (LFuse fuse_msg))) targets
       ++ [ACall (EvFused success his_id)]
       ++ calls /\
     forallb is_call calls = true).
Proof.
  intros Halive Hdec Hne Hok r fuse_msg targets.
  destruct (bind_socket_connected his_id socket h Hok) as (n & Hfind & Hid & Hsock).
  assert (Hconn : exists n0, n0 ∈ map snd (_nodes (bind_socket his_id socket h))
                             /\ node_id n0 = his_id /\ is_connected n0 = true).
  { exists n. split_and!; [by apply (find_node_elem his_id) | done |].
    unfold is_connected. by rewrite Hsock. }
  assert (Hid1 : _id (bind_socket his_id socket h) = _id h).
  { unfold bind_socket. by destruct (find_node his_id h). }
  pose proof (fuse_exchanged_good socket on_fused buffer his_id h Halive Hdec Hne) as Hr.
  fold r in Hr.
  split_and!.
  - apply broadcast_targets_spec. rewrite Hid1. split_and!; [done | | done].
    unfold fuse_msg, originated_fuse, construct_ackable. simpl. rewrite Hid1.
    set_solver.
  - unfold fuse_msg, originated_fuse, construct_ackable. simpl.
    apply hub_neighbors_spec. by right.
  - done.
  - unfold fuse_msg, originated_fuse, construct_ackable. simpl. by rewrite Hid1.
  - intros Hnone. by rewrite Hr, Hnone.
  - intros [from Hfrom]. rewrite Hr, Hfrom. cbv zeta. clear Hr.
    set (h1 := bind_socket his_id socket h) in *.
    destruct (originate_fuse_journal his_id h1) as (Hj3 & Hn3 & Hi3 & Hd3).
    set (h3 := originate_fuse his_id h1) in *.
    set (h4 := with_nodes _ h3).
    assert (H4 : journal h4 = journal h3) by done.
    assert (Hj1 : journal h1 = journal h).
    { unfold h1, bind_socket. by destruct (find_node his_id h). }
    set (h5 := call_on_fused on_fused success his_id h4).
    assert (H5 : journal h5 = journal h
                   ++ map (fun p => ASend p (MLog (LFuse fuse_msg))) targets
                   ++ [ACall (EvFused success his_id)]).
    { unfold h5, call_on_fused.
      match goal with
      | |- context [run_reaction ?x ?y] =>
          destruct (run_reaction_frame x y) as (_ & _ & _ & _ & _ & _ & _ & _ & ->)
      end.
      simpl. rewrite Hj3, Hj1. by rewrite <- app_assoc. }
    destruct (_was_destroyed h5).
    + exists h5, []. rewrite H5, app_nil_r. done.
    + destruct (walk_frame (entries (_log h5)) (last_committable_fuse h5)
                  (live_nodes_of h5) h5 eq_refl)
        as (_ & _ & _ & pre & calls & _ & Hj & Hcalls & _).
      eexists _, calls. split; [done |]. unfold commit_what_was_seen_by_everyone.
      rewrite Hj, H5, <- !app_assoc. done.
Qed.

End GoodHandshake.

(** ** The clock *)

Lemma add_log_entry_clock (m : LogMessage) (h : hub) :
  _time_stamp (add_log_entry m h) = _time_stamp h /\
  _id (add_log_entry m h) = _id h.
Proof. unfold add_log_entry. by destruct (_ && _). Qed.

Lemma broadcast_ack_clock (id : MessageId) (h : hub) :
  _time_stamp (broadcast_ack id h) = ts_succ (_time_stamp h) /\
  _id (broadcast_ack id h) = _id h.
Proof.
  unfold broadcast_ack, construct_ack. cbv zeta.
  match goal with
  | |- context [broadcast ?msg ?x] =>
      destruct (broadcast_frame msg x) as (-> & -> & _)
  end.
  done.
Qed.

Lemma commit_pass_clock (h : hub) :
  _time_stamp (commit_what_was_seen_by_everyone h) = _time_stamp h /\
  _id (commit_what_was_seen_by_everyone h) = _id h.
Proof.
  unfold commit_what_was_seen_by_everyone.
  destruct (walk_frame (entries (_log h)) (last_committable_fuse h) (live_nodes_of h)
              h eq_refl) as (-> & -> & _).
  done.
Qed.

Lemma process_clock (op : PeerId) (msg : Message) (h : hub) :
  _time_stamp h + 1 < ts_modulus ->
  _time_stamp h <= _time_stamp (process op msg h) <= _time_stamp h + 1 /\
  _id (process op msg h) = _id h.
Proof.
  intros Hts.
  assert (Hsucc : ts_succ (_time_stamp h) = _time_stamp h + 1).
  { unfold ts_succ. by apply N.mod_small. }
  destruct msg as [[m | m | m] | m]; simpl.
  - unfold process_fuse.
    destruct (add_log_entry_clock (LFuse m) h) as [Ht Hi].
    set (h1 := add_log_entry (LFuse m) h) in *.
    assert (Hack : _time_stamp (commit_what_was_seen_by_everyone
                                  (broadcast_ack (header_id (fuse_header m)) h1))
                   = _time_stamp h + 1
                   /\ _id (commit_what_was_seen_by_everyone
                             (broadcast_ack (header_id (fuse_header m)) h1)) = _id h).
    { destruct (commit_pass_clock (broadcast_ack (header_id (fuse_header m)) h1))
        as [-> ->].
      destruct (broadcast_ack_clock (header_id (fuse_header m)) h1) as [-> ->].
      by rewrite Ht, Hi. }
    destruct (find_highest_fuse_entry _) as [fe |].
    + destruct (mid_leb _ _).
      * destruct Hack as [-> ->]. split; [lia | done].
      * rewrite Ht, Hi. split; [lia | done].
    + destruct Hack as [-> ->]. split; [lia | done].
  - unfold process_port_offer. destruct (negb _); [split; [lia | done] |].
    destruct (find_node op h); simpl; (split; [lia | done]).
  - unfold process_user_data.
    destruct (add_log_entry_clock (LUserData m)
                (broadcast_ack (header_id (ud_header m)) h)) as [-> ->].
    destruct (broadcast_ack_clock (header_id (ud_header m)) h) as [-> ->].
    rewrite Hsucc. split; [lia | done].
  - split; [lia | done].
Qed.

(** X17. Receiving a message the seen filter does not hold raises the
    clock to the message's timestamp at least, and past it by one at most;
    so whatever the hub originates next is stamped above the message it
    received (while the 64-bit clock does not wrap). *)
Theorem on_recv_raises_the_clock (msg : Message) (h : hub) :
  seen_is_in (message_id msg) (_seen h) = false ->
  N.max (_time_stamp h) (time_stamp (header msg)) + 2 < ts_modulus ->
  N.max (_time_stamp h) (time_stamp (header msg)) <= _time_stamp (on_recv msg h)
    <= N.max (_time_stamp h) (time_stamp (header msg)) + 1 /\
  mid_lt (message_id msg)
         (header_id (fst (fst (construct_ackable (on_recv msg h))))).
Proof.
  intros Hnew Hts.
  assert (Hclock :
    N.max (_time_stamp h) (time_stamp (header msg)) <= _time_stamp (on_recv msg h)
      <= N.max (_time_stamp h) (time_stamp (header msg)) + 1
    /\ _id (on_recv msg h) = _id h).
  { unfold on_recv. rewrite message_id_mark_visited, Hnew.
    set (m := mark_visited (_id h) msg).
    destruct (note_received_fields m h) as (_ & Ht & _ & _ & _ & Hi & _).
    assert (Hm : time_stamp (header m) = time_stamp (header msg)).
    { unfold m. by rewrite header_mark_visited. }
    rewrite Hm in Ht.
    set (h3 := note_received m h) in *.
    destruct (_ =? _); [rewrite Ht, Hi; split; [lia | done] |].
    destruct (broadcast_frame m h3) as (Hib & Htb & _).
    destruct (process_clock (original_poster (header m)) m (broadcast m h3))
      as [Hp Hip]; [rewrite Htb, Ht; lia |].
    rewrite Htb, Ht in Hp. rewrite Hib, Hi in Hip.
    destruct (_was_destroyed _); [split; [lia | done] |].
    match goal with
    | |- context [commit_what_was_seen_by_everyone ?x] =>
        destruct (commit_pass_clock x) as [-> ->]
    end.
    split; [lia | done]. }
  destruct Hclock as [Hc Hi]. split; [done |].
  unfold construct_ackable. cbn [fst snd fresh_header header_id time_stamp original_poster].
  unfold message_id, header_id, mid_lt, mid_ltb, mid_compare. cbn [fst snd].
  assert (Hsucc : ts_succ (_time_stamp (on_recv msg h)) = _time_stamp (on_recv msg h) + 1).
  { unfold ts_succ. apply N.mod_small. lia. }
  rewrite Hsucc. cbn [fresh_header time_stamp].
  pose proof (N.le_max_r (_time_stamp h) (time_stamp (header msg))) as Hmax.
  assert (Hlt : time_stamp (header msg) < _time_stamp (on_recv msg h) + 1) by lia.
  apply N.compare_lt_iff in Hlt. by rewrite Hlt.
Qed.

(** ** Nothing is stamped ahead of the clock *)

Definition well_stamped (t : TimeStamp) (kv : MessageId * LogEntry) : Prop :=
  entry_message_id (snd kv) = fst kv /\ fst (fst kv) <= t.

Lemma stamped_by_clock_spec (h : hub) :
  stamped_by_clock h = true <->
  Forall (well_stamped (_time_stamp h)) (entries (_log h)) /\
  fst (last_committed (_log h)) <= _time_stamp h.
Proof.
  unfold stamped_by_clock. rewrite andb_true_iff, forallb_forall, Forall_forall.
  rewrite N.leb_le. split; intros [Hall Hlc]; (split; [| done]); intros kv Hin.
  - apply list_elem_of_In in Hin. apply Hall in Hin.
    apply andb_true_iff in Hin as [Hid Hts].
    split; [by apply mid_eqb_eq | by apply N.leb_le].
  - apply list_elem_of_In in Hin. destruct (Hall kv Hin) as [Hid Hts].
    apply andb_true_iff. split; [by apply mid_eqb_eq | by apply N.leb_le].
Qed.

Lemma well_stamped_mono (t t' : TimeStamp) (l : list (MessageId * LogEntry)) :
  t <= t' -> Forall (well_stamped t) l -> Forall (well_stamped t') l.
Proof.
  intros Hle Hall. eapply Forall_impl; [exact Hall |].
  intros kv [Hid Hts]. split; [done | lia].
Qed.

Lemma om_find_elem_mid {V : Type} (k : MessageId) (v : V) (m : list (MessageId * V)) :
  om_find mid_compare k m = Some v -> (k, v) ∈ m.
Proof.
  induction m as [| [k0 v0] m IH]; simpl; [done |].
  destruct (mid_compare k k0) eqn:E.
  - intros [= ->]. apply mid_compare_eq in E. subst. apply elem_of_cons. by left.
  - done.
  - intros H. apply elem_of_cons. right. by apply IH.
Qed.

Lemma om_set_elem_mid {V : Type} (k : MessageId) (v : V) (m : list (MessageId * V))
    (x : MessageId * V) :
  x ∈ om_set mid_compare k v m -> x = (k, v) \/ x ∈ m.
Proof.
  induction m as [| [k0 v0] m IH]; simpl.
  - intros Hx. apply list_elem_of_singleton in Hx. by left.
  - destruct (mid_compare k k0) eqn:E.
    + apply mid_compare_eq in E. subst k0.
      intros Hx. apply elem_of_cons in Hx as [-> | Hx]; [by left |].
      right. apply elem_of_cons. by right.
    + intros Hx. apply elem_of_cons in Hx as [-> | Hx]; [by left | by right].
    + intros Hx. apply elem_of_cons in Hx as [-> | Hx].
      * right. apply elem_of_cons. by left.
      * destruct (IH Hx) as [? | ?]; [by left |]. right. apply elem_of_cons. by right.
Qed.

Lemma insert_entry_well_stamped (t : TimeStamp) (e : LogEntry) (l : Log) :
  fst (entry_message_id e) <= t ->
  Forall (well_stamped t) (entries l) ->
  Forall (well_stamped t) (entries (insert_entry e l)) /\
  last_committed (insert_entry e l) = last_committed l.
Proof.
  intros Hts Hall. unfold insert_entry.
  destruct (om_find mid_compare (entry_message_id e) (entries l)) as [old |] eqn:E;
    simpl; (split; [| done]); apply Forall_forall; intros x Hx.
  - apply om_set_elem_mid in Hx as [-> | Hx].
    + split; [| done]. simpl. unfold entry_message_id at 1.
      rewrite fold_acks_message. apply om_find_elem_mid in E.
      rewrite Forall_forall in Hall. by destruct (Hall _ E).
    + rewrite Forall_forall in Hall. by apply Hall.
  - apply (om_insert_elem mid_compare) in Hx as [-> | Hx].
    + split; [| done]. simpl.
      destruct (om_find mid_compare (entry_message_id e) (placeholders l)); [| done].
      unfold entry_message_id at 1. by rewrite fold_acks_message.
    + rewrite Forall_forall in Hall. by apply Hall.
Qed.

Lemma log_apply_ack_well_stamped (t : TimeStamp) (acker : PeerId) (ad : AckData) (l : Log) :
  Forall (well_stamped t) (entries l) ->
  Forall (well_stamped t) (entries (log_apply_ack acker ad l)) /\
  last_committed (log_apply_ack acker ad l) = last_committed l.
Proof.
  intros Hall. unfold log_apply_ack.
  destruct (om_find mid_compare (acked_message_id ad) (entries l)) as [e |] eqn:E;
    simpl; (split; [| done]); [| done].
  apply Forall_forall. intros x Hx.
  rewrite Forall_forall in Hall.
  apply om_set_elem_mid in Hx as [-> | Hx]; [| by apply Hall].
  apply om_find_elem_mid in E. destruct (Hall _ E) as [Hid Hts]. by split.
Qed.

Lemma commit_entry_clock (kv : MessageId * LogEntry) (h : hub) :
  _time_stamp (commit_entry kv h) = _time_stamp h.
Proof.
  unfold commit_entry.
  match goal with
  | |- context [commit ?e ?x] => destruct (commit_frame e x) as (_ & ->)
  end.
  done.
Qed.

Lemma walk_well_stamped (l : list (MessageId * LogEntry))
    (F : option (MessageId * LogEntry)) (live : gset PeerId) (h : hub) :
  entries (_log h) = l ->
  Forall (well_stamped (_time_stamp h)) l ->
  fst (last_committed (_log h)) <= _time_stamp h ->
  Forall (well_stamped (_time_stamp h)) (entries (_log (walk l F live h))) /\
  fst (last_committed (_log (walk l F live h))) <= _time_stamp h /\
  _time_stamp (walk l F live h) = _time_stamp h.
Proof.
  revert F h. induction l as [| kv l IH]; intros F h Hlog Hall Hlc.
  - simpl. by rewrite Hlog.
  - apply Forall_cons in Hall as [[Hid Hts] Hall].
    assert (Herase : om_erase mid_compare (fst kv) (entries (_log h)) = l).
    { rewrite Hlog. destruct kv as [k v].
      apply (om_erase_head mid_compare mid_compare_refl). }
    pose proof (walk_step_cases F live h kv) as Hc. simpl.
    destruct (walk_step F live h kv) as [h' F' | h' | h'].
    + assert (Hh' : entries (_log h') = l
                    /\ last_committed (_log h') = fst kv
                    /\ _time_stamp h' = _time_stamp h).
      { destruct Hc as [(-> & _) | (-> & _)].
        - destruct (drop_entry_log kv h) as (-> & -> & _). done.
        - destruct (commit_entry_log kv h) as (-> & ->).
          by rewrite commit_entry_clock. }
      destruct Hh' as (Hl' & Hlc' & Ht').
      destruct (IH F' h' Hl') as (H1 & H2 & H3).
      * by rewrite Ht'.
      * by rewrite Hlc', Ht'.
      * rewrite Ht' in *. done.
    + subst h'. rewrite Hlog. split_and!; try done.
      apply Forall_cons. done.
    + destruct Hc as [-> _]. destruct (commit_entry_log kv h) as (-> & ->).
      rewrite commit_entry_clock, Herase, Hid. done.
Qed.

Lemma commit_pass_stamped (h : hub) :
  stamped_by_clock h = true ->
  stamped_by_clock (commit_what_was_seen_by_everyone h) = true.
Proof.
  rewrite !stamped_by_clock_spec. intros [Hall Hlc].
  unfold commit_what_was_seen_by_everyone.
  destruct (walk_well_stamped (entries (_log h)) (last_committable_fuse h)
              (live_nodes_of h) h eq_refl Hall Hlc) as (H1 & H2 & ->).
  done.
Qed.

Lemma add_log_entry_stamped (m : LogMessage) (h : hub) :
  fst (header_id (log_header m)) <= _time_stamp h ->
  stamped_by_clock h = true ->
  stamped_by_clock (add_log_entry m h) = true.
Proof.
  intros Hts. rewrite !stamped_by_clock_spec. intros [Hall Hlc].
  unfold add_log_entry. destruct (_ && _); [done |]. simpl.
  destruct (insert_entry_well_stamped (_time_stamp h) (new_entry m) (_log h))
    as [H1 ->]; done.
Qed.

Lemma broadcast_stamped (msg : Message) (h : hub) :
  stamped_by_clock (broadcast msg h) = stamped_by_clock h.
Proof.
  unfold stamped_by_clock.
  destruct (broadcast_frame msg h) as (_ & -> & _ & -> & _). done.
Qed.

Lemma broadcast_ack_stamped (id : MessageId) (h : hub) :
  _time_stamp h + 1 < ts_modulus ->
  stamped_by_clock h = true ->
  stamped_by_clock (broadcast_ack id h) = true /\
  _time_stamp (broadcast_ack id h) = _time_stamp h + 1.
Proof.
  intros Hts Hok.
  assert (Hsucc : ts_succ (_time_stamp h) = _time_stamp h + 1).
  { unfold ts_succ. by apply N.mod_small. }
  split; [| by rewrite (proj1 (broadcast_ack_clock id h))].
  unfold broadcast_ack, construct_ack. cbv zeta. rewrite broadcast_stamped.
  apply stamped_by_clock_spec in Hok as [Hall Hlc].
  apply stamped_by_clock_spec. simpl. rewrite Hsucc.
  match goal with
  | |- context [log_apply_ack ?a ?d ?l] =>
      destruct (log_apply_ack_well_stamped (_time_stamp h + 1) a d l) as [H1 ->]
  end.
  - apply (well_stamped_mono (_time_stamp h)); [lia | done].
  - split; [done | lia].
Qed.

Lemma process_stamped (op : PeerId) (msg : Message) (h : hub) :
  _time_stamp h + 1 < ts_modulus ->
  time_stamp (header msg) <= _time_stamp h ->
  stamped_by_clock h = true ->
  stamped_by_clock (process op msg h) = true.
Proof.
  intros Hts Hmsg Hok. destruct msg as [[m | m | m] | m]; simpl in *.
  - unfold process_fuse.
    assert (H1 : stamped_by_clock (add_log_entry (LFuse m) h) = true)
      by by apply add_log_entry_stamped.
    assert (Hack : stamped_by_clock
                     (commit_what_was_seen_by_everyone
                        (broadcast_ack (header_id (fuse_header m))
                           (add_log_entry (LFuse m) h))) = true).
    { apply commit_pass_stamped. apply broadcast_ack_stamped; [| done].
      by rewrite (proj1 (add_log_entry_clock (LFuse m) h)). }
    destruct (find_highest_fuse_entry _); [destruct (mid_leb _ _) |]; done.
  - unfold process_port_offer. destruct (negb _); [done |].
    by destruct (find_node op h).
  - unfold process_user_data.
    destruct (broadcast_ack_stamped (header_id (ud_header m)) h Hts Hok) as [H1 Ht].
    apply add_log_entry_stamped; [| done]. simpl. rewrite Ht. lia.
  - unfold process_ack. apply stamped_by_clock_spec in Hok as [Hall Hlc].
    apply stamped_by_clock_spec. simpl.
    destruct (log_apply_ack_well_stamped (_time_stamp h)
                (original_poster (ack_header m)) (ack_data m) (_log h) Hall) as [H1 ->].
    done.
Qed.

Lemma on_recv_stamped (msg : Message) (h : hub) :
  N.max (_time_stamp h) (time_stamp (header msg)) + 1 < ts_modulus ->
  stamped_by_clock h = true ->
  stamped_by_clock (on_recv msg h) = true.
Proof.
  intros Hts Hok. unfold on_recv.
  destruct (seen_is_in _ _); [done |].
  set (m := mark_visited (_id h) msg).
  destruct (note_received_fields m h) as (_ & Ht & Hl & _).
  assert (Hm : time_stamp (header m) = time_stamp (header msg)).
  { unfold m. by rewrite header_mark_visited. }
  rewrite Hm in Ht.
  set (h3 := note_received m h) in *.
  assert (H3 : stamped_by_clock h3 = true).
  { apply stamped_by_clock_spec in Hok as [Hall Hlc].
    apply stamped_by_clock_spec. rewrite Hl, Ht. split; [| lia].
    apply (well_stamped_mono (_time_stamp h)); [lia | done]. }
  destruct (_ =? _); [done |].
  assert (H5 : stamped_by_clock
                 (process (original_poster (header m)) m (broadcast m h3)) = true).
  { destruct (broadcast_frame m h3) as (_ & Htb & _).
    apply process_stamped.
    - rewrite Htb, Ht. lia.
    - rewrite Htb, Ht, Hm. lia.
    - by rewrite broadcast_stamped. }
  destruct (_was_destroyed _); [done |]. by apply commit_pass_stamped.
Qed.

(** X18. While no entry and no commit is stamped ahead of the clock, a
    payload the hub broadcasts is always logged: [add_log_entry] does not
    take its early return, and the assertion there does not fail.  A new
    hub is in that state, and receptions, broadcasts and commit passes keep
    it there as long as the 64-bit clock does not wrap. *)
Theorem own_broadcast_is_always_logged (h : hub) :
  stamped_by_clock h = true ->
  (_time_stamp h + 1 < ts_modulus ->
   forall data,
     is_Some (om_find mid_compare (_time_stamp h + 1, _id h)
                (entries (_log (total_order_broadcast data h)))) /\
     stamped_by_clock (total_order_broadcast data h) = true) /\
  (forall msg,
     N.max (_time_stamp h) (time_stamp (header msg)) + 1 < ts_modulus ->
     stamped_by_clock (on_recv msg h) = true) /\
  stamped_by_clock (posted_commit h) = true /\
  (forall id cbs, stamped_by_clock (hub_init id cbs) = true).
Proof.
  intros Hok. split_and!.
  - intros Hts data.
    assert (Hsucc : ts_succ (_time_stamp h) = _time_stamp h + 1).
    { unfold ts_succ. by apply N.mod_small. }
    unfold total_order_broadcast, construct_ackable. cbv zeta. rewrite Hsucc.
    match goal with
    | |- context [add_log_entry ?m (broadcast ?msg ?x)] =>
        set (h2 := broadcast msg x); set (lm := m);
        assert (H2 : stamped_by_clock h2 = true /\ _time_stamp h2 = _time_stamp h + 1
                     /\ _log h2 = _log h)
    end.
    { unfold h2. rewrite broadcast_stamped.
      match goal with
      | |- context [broadcast ?msg ?x] =>
          destruct (broadcast_frame msg x) as (_ & -> & _ & -> & _)
      end.
      split; [| done].
      apply stamped_by_clock_spec in Hok as [Hall Hlc].
      apply stamped_by_clock_spec. simpl. split; [| lia].
      apply (well_stamped_mono (_time_stamp h)); [lia | done]. }
    destruct H2 as (H2 & Ht2 & Hl2). split.
    + unfold add_log_entry. rewrite Hl2.
      replace (mid_leb (header_id (log_header lm)) (last_committed (_log h))) with false.
      * cbn [andb]. cbn [_log with_log].
        change (_time_stamp h + 1, _id h) with (entry_message_id (new_entry lm)).
        apply insert_entry_present.
      * symmetry. apply stamped_by_clock_spec in Hok as [_ Hlc].
        unfold mid_leb, mid_compare. cbn.
        destruct (N.compare_spec (_time_stamp h + 1) (fst (last_committed (_log h))));
          try done; lia.
    + apply add_log_entry_stamped; [| done]. rewrite Ht2. simpl. lia.
  - intros msg Hts. by apply on_recv_stamped.
  - unfold posted_commit. destruct (_was_destroyed h); [done |].
    by apply commit_pass_stamped.
  - intros id cbs. done.
Qed.

(** * The further properties on the sample states *)

Lemma broadcast_spares_the_originator_witness :
  original_poster (header returned_message) ∈ visited (header returned_message) /\
  Forall (fun p => p <> original_poster (header returned_message))
         (broadcast_targets (header returned_message) hub_linked) /\
  journal (broadcast returned_message hub_linked)
    = journal hub_linked
      ++ map (fun p => ASend p returned_message)
             (broadcast_targets (header returned_message) hub_linked).
Proof.
  assert (H : original_poster (header returned_message)
                ∈ visited (header returned_message))
    by (vm_compute; set_solver).
  destruct (broadcast_spares_the_originator returned_message hub_linked H)
    as (H1 & H2 & _).
  split; [exact H |]. split; [exact H1 | exact H2].
Defined.

Lemma commit_pass_waits_for_acks_witness :
  entries (_log hub_waiting_for_3) = [] ++ first_pending hub_waiting_for_3 :: [] /\
  exists taken left calls,
    [] = taken ++ left /\
    entries (_log (commit_what_was_seen_by_everyone hub_waiting_for_3))
      = left ++ first_pending hub_waiting_for_3 :: [] /\
    journal (commit_what_was_seen_by_everyone hub_waiting_for_3)
      = journal hub_waiting_for_3 ++ calls /\
    deliveries calls `sublist_of` omap payload taken.
Proof.
  assert (H1 : entries (_log hub_waiting_for_3)
               = [] ++ first_pending hub_waiting_for_3 :: [])
    by (vm_compute; reflexivity).
  assert (H2 : entry_is_fuse (snd (first_pending hub_waiting_for_3)) = false)
    by (vm_compute; reflexivity).
  assert (H3 : acked_by_quorum_of (live_nodes_of hub_waiting_for_3)
                 (snd (first_pending hub_waiting_for_3)) = false)
    by (vm_compute; reflexivity).
  split; [exact H1 |].
  exact (commit_pass_waits_for_acks hub_waiting_for_3 [] _ [] H1 H2 H3).
Defined.

Lemma on_commit_fuse_forgets_the_lost_witness :
  acked_by_quorum (snd (first_pending hub_losing_3)) = true /\
  3 ∈ Diff.removed (Diff.make (snd (current_config hub_losing_3))
                      (quorum (snd (first_pending hub_losing_3)))) /\
  find_node 3 (on_commit_fuse (snd (first_pending hub_losing_3)) hub_losing_3) = None /\
  find_node 2 (on_commit_fuse (snd (first_pending hub_losing_3)) hub_losing_3)
    = find_node 2 hub_losing_3.
Proof.
  assert (H1 : acked_by_quorum (snd (first_pending hub_losing_3)) = true)
    by (vm_compute; reflexivity).
  assert (H2 : nodes_in_order hub_losing_3 = true) by (vm_compute; reflexivity).
  assert (H3 : 3 ∈ Diff.removed (Diff.make (snd (current_config hub_losing_3))
                                   (quorum (snd (first_pending hub_losing_3)))))
    by (apply (bool_decide_unpack _); vm_compute; exact I).
  assert (H4 : 2 ∉ Diff.removed (Diff.make (snd (current_config hub_losing_3))
                                   (quorum (snd (first_pending hub_losing_3)))))
    by (apply (bool_decide_unpack _); vm_compute; exact I).
  destruct (on_commit_fuse_forgets_the_lost (snd (first_pending hub_losing_3))
              hub_losing_3 H1 H2) as (Hgone & Hkept & _).
  split; [exact H1 |]. split; [exact H3 |].
  split; [exact (Hgone 3 H3) | exact (Hkept 2 H4)].
Defined.

Lemma on_commit_fuse_current_config_witness :
  acked_by_quorum (snd (first_pending hub_losing_3)) = true /\
  current_config (on_commit_fuse (snd (first_pending hub_losing_3)) hub_losing_3)
    = (entry_message_id (snd (first_pending hub_losing_3)),
       quorum (snd (first_pending hub_losing_3))).
Proof.
  assert (H1 : acked_by_quorum (snd (first_pending hub_losing_3)) = true)
    by (vm_compute; reflexivity).
  assert (H2 : om_sorted mid_compare (_configs hub_losing_3) = true)
    by (vm_compute; reflexivity).
  assert (H3 : _configs hub_losing_3 <> []) by (vm_compute; discriminate).
  assert (H4 : mid_lt (fst (current_config hub_losing_3))
                 (entry_message_id (snd (first_pending hub_losing_3))))
    by (vm_compute; reflexivity).
  destruct (on_commit_fuse_current_config (snd (first_pending hub_losing_3))
              hub_losing_3 H1 H2 H3) as (_ & Hnew & _).
  split; [exact H1 | exact (Hnew H4)].
Defined.

Lemma on_commit_fuse_reports_the_change_witness :
  acked_by_quorum (snd (first_pending hub_losing_3)) = true /\
  _was_destroyed hub_losing_3 = false /\
  journal (on_commit_fuse (snd (first_pending hub_losing_3)) hub_losing_3)
  = journal hub_losing_3 ++ [ACall (EvRemove {[ 3 ]})].
Proof.
  assert (H1 : acked_by_quorum (snd (first_pending hub_losing_3)) = true)
    by (vm_compute; reflexivity).
  assert (H2 : _was_destroyed hub_losing_3 = false) by (vm_compute; reflexivity).
  split; [exact H1 |]. split; [exact H2 |].
  pose proof (on_commit_fuse_reports_the_change
                (snd (first_pending hub_losing_3)) hub_losing_3 H1 H2) as H.
  cbv zeta in H. rewrite H. vm_compute. reflexivity.
Defined.

Lemma lone_hub_delivers_its_broadcasts_witness :
  on_its_own hub_listening /\
  journal (broadcast_each [[1]; [2; 3]] hub_listening)
    = journal hub_listening
      ++ map (fun data => ACall (EvReceive (_id hub_listening) data)) [[1]; [2; 3]] /\
  journal (broadcast_each [[1]; [2; 3]] hub_listening_once)
    = journal hub_listening_once ++ [ACall (EvReceive (_id hub_listening_once) [1])].
Proof.
  assert (Hown : forall cbs, on_its_own (hub_init 2 cbs)).
  { intros cbs. unfold on_its_own. split_and!; try (vm_compute; reflexivity).
    - vm_compute. by eexists.
    - vm_compute. discriminate. }
  assert (H1 : on_its_own hub_listening) by apply Hown.
  assert (H1' : on_its_own hub_listening_once) by apply Hown.
  assert (H2 : func (_on_receive (_callbacks hub_listening)) = Some (fun _ _ => quiet))
    by reflexivity.
  assert (H2' : func (_on_receive (_callbacks hub_listening_once)) = Some receive_once)
    by reflexivity.
  assert (H3 : forall (op : PeerId) (data : Bytes),
            destroys ((fun _ _ => quiet) op data) = false) by reflexivity.
  assert (H3' : forall (op : PeerId) (data : Bytes), destroys (receive_once op data) = false)
    by reflexivity.
  assert (H4 : _time_stamp hub_listening + N.of_nat (length [[1]; [2; 3]]) < ts_modulus)
    by (vm_compute; reflexivity).
  assert (H4' : _time_stamp hub_listening_once + N.of_nat (length [[1]; [2; 3]])
                < ts_modulus)
    by (vm_compute; reflexivity).
  destruct (lone_hub_delivers_its_broadcasts [[1]; [2; 3]] hub_listening
              (fun _ _ => quiet) H1 H2 H3 H4) as (Hkeeps & _).
  destruct (lone_hub_delivers_its_broadcasts [[1]; [2; 3]] hub_listening_once
              receive_once H1' H2' H3' H4') as (_ & Hclears).
  split; [exact H1 |]. split.
  - apply Hkeeps. reflexivity.
  - apply (Hclears [1] [[2; 3]]); reflexivity.
Defined.

Lemma unreliable_frame_is_relayed_witness :
  decode_be 16 unreliable_frame = Some (1, [0; 0; 0; 2; 104; 105]) /\
  journal (node_received_unreliable_broadcast (decode_be 16) route_to_3_and_5
             unreliable_frame hub_before_crash)
    = journal hub_before_crash ++ [ASendUnreliable 3 unreliable_frame] /\
  payload_buffer [0; 0; 0; 2; 104; 105]
    = {| buffer_data := [104; 105]; buffer_size := 2 |}.
Proof.
  assert (H1 : decode_be 16 unreliable_frame = Some (1, [0; 0; 0; 2; 104; 105]))
    by (vm_compute; reflexivity).
  assert (H2 : is_Some (find_node 1 hub_before_crash))
    by (vm_compute; by eexists).
  assert (H3 : N.of_nat (length [0; 0; 0; 2; 104; 105]) < size_t_modulus)
    by (vm_compute; reflexivity).
  split; [exact H1 |].
  destruct (unreliable_frame_is_relayed (decode_be 16) route_to_3_and_5
              unreliable_frame 1 _ hub_before_crash H1 H2 H3) as (Hj & Hin & _).
  split.
  - rewrite Hj. vm_compute. reflexivity.
  - apply Hin. simpl. lia.
Defined.

Lemma unreliable_broadcast_runs_the_handler_once_witness :
  N.of_nat (length (_nodes hub_before_crash)) < size_t_modulus /\
  let '(h', counter, posted) := unreliable_broadcast plain_frame [9] hub_before_crash in
  journal h'
    = journal hub_before_crash
      ++ map (fun p => ASendUnreliable p (plain_frame (_id hub_before_crash) [9]))
             (unreliable_targets hub_before_crash) /\
  counter = N.of_nat (length (unreliable_targets hub_before_crash)) /\
  (posted = true <-> unreliable_targets hub_before_crash = []).
Proof.
  assert (H1 : N.of_nat (length (_nodes hub_before_crash)) < size_t_modulus)
    by (vm_compute; reflexivity).
  split; [exact H1 |].
  pose proof (unreliable_broadcast_runs_the_handler_once plain_frame [9]
                hub_before_crash H1) as H.
  destruct (unreliable_broadcast plain_frame [9] hub_before_crash)
    as [[h' counter] posted].
  destruct H as (Hj & _ & Hc & Hposted & _).
  split; [exact Hj |]. split; [exact Hc | exact Hposted].
Defined.

Lemma fuse_greets_the_new_peer_witness :
  decode_handshake (decode_be 4) (decode_be 16) (sample_reply 1 3) = Some (1, 3) /\
  3 ∈ broadcast_targets
        (fuse_header (originated_fuse 3 (bind_socket 3 7 hub_alone)))
        (bind_socket 3 7 hub_alone) /\
  3 ∈ neighbors (fuse_ack_data (originated_fuse 3 (bind_socket 3 7 hub_alone))) /\
  exists h' calls,
    fuse_exchanged (decode_be 4) (decode_be 16) 1 7 quiet_on_fused success
      (sample_reply 1 3) hub_alone = Some h' /\
    journal h'
    = journal hub_alone
      ++ map (fun p => ASend p (MLog (LFuse (originated_fuse 3 (bind_socket 3 7 hub_alone)))))
             (broadcast_targets
                (fuse_header (originated_fuse 3 (bind_socket 3 7 hub_alone)))
                (bind_socket 3 7 hub_alone))
      ++ [ACall (EvFused success 3)]
      ++ calls /\
    forallb is_call calls = true.
Proof.
  assert (H1 : _was_destroyed hub_alone = false) by reflexivity.
  assert (H2 : decode_handshake (decode_be 4) (decode_be 16) (sample_reply 1 3)
               = Some (1, 3)) by (vm_compute; reflexivity).
  assert (H3 : 3 <> _id hub_alone) by (vm_compute; discriminate).
  assert (H4 : nodes_in_order hub_alone = true) by (vm_compute; reflexivity).
  assert (H5 : is_Some (find_node (_id hub_alone) hub_alone))
    by (vm_compute; by eexists).
  destruct (fuse_greets_the_new_peer (decode_be 4) (decode_be 16) 1 7 quiet_on_fused
              (sample_reply 1 3) 3 hub_alone H1 H2 H3 H4) as (Ht & Hn & _ & _ & _ & Hgood).
  split; [exact H2 |]. split; [exact Ht |]. split; [exact Hn |]. exact (Hgood H5).
Defined.

Lemma on_recv_raises_the_clock_witness :
  seen_is_in (message_id early_fuse) (_seen hub_linked) = false /\
  3 <= _time_stamp (on_recv early_fuse hub_linked) <= 4 /\
  mid_lt (message_id early_fuse)
         (header_id (fst (fst (construct_ackable (on_recv early_fuse hub_linked))))).
Proof.
  assert (H1 : seen_is_in (message_id early_fuse) (_seen hub_linked) = false)
    by (vm_compute; reflexivity).
  assert (H2 : N.max (_time_stamp hub_linked) (time_stamp (header early_fuse)) + 2
               < ts_modulus) by (vm_compute; reflexivity).
  split; [exact H1 |].
  exact (on_recv_raises_the_clock early_fuse hub_linked H1 H2).
Defined.

Lemma own_broadcast_is_always_logged_witness :
  stamped_by_clock hub_before_crash = true /\
  is_Some (om_find mid_compare (_time_stamp hub_before_crash + 1, _id hub_before_crash)
             (entries (_log (total_order_broadcast [5] hub_before_crash)))) /\
  stamped_by_clock (on_recv early_fuse hub_before_crash) = true.
Proof.
  assert (H1 : stamped_by_clock hub_before_crash = true) by (vm_compute; reflexivity).
  assert (H2 : _time_stamp hub_before_crash + 1 < ts_modulus)
    by (vm_compute; reflexivity).
  assert (H3 : N.max (_time_stamp hub_before_crash) (time_stamp (header early_fuse)) + 1
               < ts_modulus) by (vm_compute; reflexivity).
  destruct (own_broadcast_is_always_logged hub_before_crash H1) as (Hb & Hr & _).
  split; [exact H1 |].
  split; [exact (proj1 (Hb H2 [5])) | exact (Hr early_fuse H3)].
Defined.

Lemma safe_exec_keeps_or_replaces_witness :
  func (_on_receive (_callbacks hub_listening_once)) = Some receive_once /\
  _on_receive (_callbacks (on_receive 2 [1] hub_listening_once))
    = {| func := None; was_reset := true |} /\
  journal (on_receive 2 [1] hub_listening_once)
    = journal hub_listening_once ++ [ACall (EvReceive 2 [1])].
Proof.
  assert (Hf : func (slot_get receive_slot (_callbacks hub_listening_once))
               = Some receive_once) by reflexivity.
  destruct (safe_exec_keeps_or_replaces receive_slot (fun g : OnReceive => g 2 [1])
              (EvReceive 2 [1]) hub_listening_once receive_once receive_slot_laws Hf)
    as (Hslot & Hj & _).
  split; [exact Hf |]. split; [exact Hslot | exact Hj].
Defined.

